(** * Elysia request lifecycle: a shallow embedding of [src/index.ts]
      ([Elysia]: registration, [state], [setModel], [group], [guard],
      [handle], [handleError]) and [src/utils.ts] ([mergeObjectArray],
      [mergeHook], [clone], [mapPathnameAndQueryRegEx], [mergeDeep],
      [createValidationError], [getSchemaValidator],
      [getResponseSchemaValidator]).

    JavaScript values are an inductive type, objects used as maps are
    finite maps, and the arrays of lifecycle callbacks live in an explicit
    heap, because [push]/[splice] mutate them in place while [mergeHook]
    copies them.  Promises are resolved where they are awaited, so a
    callback is a state transformer that returns or raises. *)

From Stdlib Require Import ZArith Lia Ascii String Sorted DecimalString.
From stdpp Require Import base strings list gmap option.

Set Warnings "-register-all".
Local Open Scope string_scope.
Local Open Scope list_scope.

(** ** JavaScript values *)

Inductive value :=
| VUndefined
| VNull
| VBool (b : bool)
| VNum (n : Z)
| VStr (s : string)
| VObj (fields : list (string * value))
| VArr (items : list value)
| VResponse (status : Z) (headers : list (string * string)) (body : value).

(** [x === undefined || x === null] *)
Definition nullish (v : value) : bool :=
  match v with VUndefined | VNull => true | _ => false end.

(** JavaScript truthiness, as used by [if (newResponse)]. *)
Definition truthy (v : value) : bool :=
  match v with
  | VUndefined | VNull => false
  | VBool b => b
  | VNum n => negb (n =? 0)%Z
  | VStr s => negb (String.eqb s "")
  | VObj _ | VArr _ | VResponse _ _ _ => true
  end.

Fixpoint assoc {A} (k : string) (l : list (string * A)) : option A :=
  match l with
  | [] => None
  | (k', v) :: rest => if String.eqb k k' then Some v else assoc k rest
  end.

(** ** TypeBox (external package): schemas and compiled checks

    Only the fragment the scenarios use: [t.String()], [t.Number()],
    [t.Boolean()] and [t.Object({...})] with required properties. *)

Module TypeBox.

Inductive TSchema :=
| TString
| TNumber
| TBoolean
| TObject (properties : list (string * TSchema)) (additionalProperties : option bool).

(** The write [schema.additionalProperties = additionalProperties], done
    when [schema.type === 'object'] and the key is absent. *)
Definition default_additional (ap : bool) (s : TSchema) : TSchema :=
  match s with
  | TObject props None => TObject props (Some ap)
  | _ => s
  end.

Fixpoint Check (s : TSchema) (v : value) {struct s} : bool :=
  match s with
  | TString => match v with VStr _ => true | _ => false end
  | TNumber => match v with VNum _ => true | _ => false end
  | TBoolean => match v with VBool _ => true | _ => false end
  | TObject props ap =>
      match v with
      | VObj fields =>
          (fix required (ps : list (string * TSchema)) : bool :=
             match ps with
             | [] => true
             | (k, sk) :: rest =>
                 match assoc k fields with
                 | Some vk => Check sk vk && required rest
                 | None => false
                 end
             end) props
          && match ap with
             | Some false =>
                 forallb (fun kv => bool_decide (is_Some (assoc (fst kv) props))) fields
             | _ => true
             end
      | _ => false
      end
  end.

(** [TypeCompiler.Compile(schema)]: the compiled check keeps its schema. *)
Record TypeCheck := Compile { schema_of : TSchema }.

Definition run_check (c : TypeCheck) (v : value) : bool := Check (schema_of c) v.

(** [validator.Errors(value)]: the errors of the package in the order it
    yields them, each with its path and its message.  For an object:
    the properties the schema does not allow, the required properties
    that are missing, then the errors of each property. *)
Fixpoint Errors (s : TSchema) (path : string) (v : value) {struct s}
  : list (string * string) :=
  match s with
  | TString => match v with VStr _ => [] | _ => [(path, "Expected string")] end
  | TNumber => match v with VNum _ => [] | _ => [(path, "Expected number")] end
  | TBoolean => match v with VBool _ => [] | _ => [(path, "Expected boolean")] end
  | TObject props ap =>
      match v with
      | VObj fields =>
          match ap with
          | Some false =>
              omap (fun kv => if bool_decide (is_Some (assoc (fst kv) props)) then None
                              else Some ((path ++ "/" ++ fst kv)%string, "Unexpected property"))
                   fields
          | _ => []
          end
          ++ omap (fun p => if bool_decide (is_Some (assoc (fst p) fields)) then None
                            else Some ((path ++ "/" ++ fst p)%string,
                                       "Expected required property"))
                  props
          ++ (fix visit (ps : list (string * TSchema)) : list (string * string) :=
                match ps with
                | [] => []
                | (k, sk) :: rest =>
                    Errors sk (path ++ "/" ++ k)%string
                           (match assoc k fields with Some vk => vk | None => VUndefined end)
                    ++ visit rest
                end) props
      | _ => [(path, "Expected object")]
      end
  end.

(** [validator.Errors(value).First()] *)
Definition First (c : TypeCheck) (v : value) : option (string * string) :=
  head (Errors (schema_of c) "" v).

End TypeBox.
Export TypeBox.

(** ** Requests, responses, errors *)

Record Request := {
  r_method : string;
  (** the match of [mapPathnameAndQueryRegEx] on [request.url]: the
      pathname and, when the URL has one, the query string split into
      its [key=value] pairs *)
  r_url : option (string * option (list (string * string)));
  r_headers : list (string * string);
  (** [await request.json()]; [None] when the body is not JSON and the
      call rejects *)
  r_json : option value;
  (** [await request.text()], and the same text split for [parseQuery] *)
  r_text : string;
  r_urlencoded : list (string * string);
  (** the entries of [await request.formData()] *)
  r_form : list (string * value)
}.

Record Response := mkResponse {
  res_status : Z;
  res_headers : list (string * string);
  (** the value the body is written from *)
  res_body : value
}.

Record Error := {
  e_message : string;
  e_cause : option string;
  (** [ValidationError.type] *)
  e_type : option string;
  e_value : value
}.

Definition mkError (message : string) : Error :=
  {| e_message := message; e_cause := None; e_type := None; e_value := VUndefined |}.

(** [context.set] *)
Record SetT := { set_status : Z; set_headers : list (string * string) }.

(** Modelled from the spec: [./validation] is not among the sources.  A
    [ValidationError] carries the field kind, a cause string, and the
    rejected value; its message is the code [VALIDATION]. *)
Definition ValidationError (cause type : string) (v : value) : Error :=
  {| e_message := "VALIDATION"; e_cause := Some cause; e_type := Some type; e_value := v |}.

(** [createValidationError]: the cause is
    [`Invalid ${type}: '${error?.path?.slice(1) || 'root'}'. ${error?.message}`]. *)
Definition createValidationError (type : string) (validator : TypeCheck) (v : value) : Error :=
  let error := First validator v in
  let path := match error with
              | Some (String _ rest, _) =>
                  if String.eqb rest "" then "root" else rest
              | _ => "root"
              end in
  let message := match error with Some (_, m) => m | None => "undefined" end in
  ValidationError ("Invalid " ++ type ++ ": '" ++ path ++ "'. " ++ message)%string type v.

(** Modelled from the spec: [./error] is not among the sources.  Codes
    surfaced to error hooks: [NOT_FOUND], [INTERNAL_SERVER_ERROR],
    [VALIDATION], and [UNKNOWN] for anything else. *)
Definition mapErrorCode (message : string) : string :=
  if String.eqb message "NOT_FOUND" then "NOT_FOUND"
  else if String.eqb message "VALIDATION" then "VALIDATION"
  else if String.eqb message "INTERNAL_SERVER_ERROR" then "INTERNAL_SERVER_ERROR"
  else "UNKNOWN".

(** Modelled from the spec: [mapErrorStatus] of [./error]:
    [VALIDATION -> 400], [NOT_FOUND -> 404],
    [INTERNAL_SERVER_ERROR/UNKNOWN -> 500], unrecognized codes [-> 500]. *)
Definition mapErrorStatus (code : string) : Z :=
  if String.eqb code "VALIDATION" then 400
  else if String.eqb code "NOT_FOUND" then 404
  else 500.

(** Modelled from the spec: [mapResponse] of [./handler].  A
    [Response]-shaped value is passed through unchanged; a string, number
    or boolean is wrapped with the staged status and headers; a
    structured value is given a JSON content type. *)
Definition mapResponse (response : value) (set : SetT) : Response :=
  match response with
  | VResponse st hs b => mkResponse st hs b
  | VObj _ | VArr _ =>
      mkResponse (set_status set) (("content-type", "application/json") :: set_headers set) response
  | _ => mkResponse (set_status set) (set_headers set) response
  end.

(** Modelled from the spec: [mapEarlyResponse] of [./handler]:
    [undefined]/[null] from an early-exit stage means "no short-circuit,
    continue"; any other value is mapped as [mapResponse] does. *)
Definition mapEarlyResponse (response : value) (set : SetT) : option Response :=
  if nullish response then None else Some (mapResponse response set).

(** [parseQuery] of [fast-querystring] (external): repeated keys become
    arrays. *)
Fixpoint put_query (k v : string) (fields : list (string * value)) : list (string * value) :=
  match fields with
  | [] => [(k, VStr v)]
  | (k', old) :: rest =>
      if String.eqb k k' then
        (k', match old with
             | VArr items => VArr (items ++ [VStr v])
             | _ => VArr [old; VStr v]
             end) :: rest
      else (k', old) :: put_query k v rest
  end.

Definition parseQuery (pairs : list (string * string)) : value :=
  VObj (fold_left (fun acc kv => put_query (fst kv) (snd kv) acc) pairs []).

(** ** The context object, the store, callbacks *)

(** The object [handle] passes to hooks and handler.  [c_decor] holds its
    other properties (whatever hooks assign to it). *)
Record Context := {
  c_request : option Request;
  c_set : SetT;
  c_body : value;
  c_params : value;
  c_query : value;
  c_decor : gmap string value
}.

(** What a callback can read and write: the context object and the shared
    [store]. *)
Record UState := { ctx : Context; store : gmap string value }.

Inductive Outcome := Return (v : value) | Raise (e : Error).

(** A lifecycle callback or handler.  The first argument is the one the
    source passes next to (or instead of) the context: the content type
    for a parser, the running response for [afterHandle], the error
    description for an error hook, [undefined] otherwise. *)
Definition Callback := value -> UState -> Outcome * UState.

(** ** Heap of callback arrays *)

Definition loc := nat.

Record World := {
  arrays : list (list Callback);
  w_store : gmap string value
}.

Definition deref (w : World) (a : loc) : list Callback := default [] (arrays w !! a).

(** A new array literal. *)
Definition alloc (fs : list Callback) (w : World) : loc * World :=
  (length (arrays w), {| arrays := arrays w ++ [fs]; w_store := w_store w |}).

(** [array.push(f)] *)
Definition push (a : loc) (f : Callback) (w : World) : World :=
  {| arrays := <[a := deref w a ++ [f]]> (arrays w); w_store := w_store w |}.

(** [array.splice(start, 0, f)]: a negative [start] counts from the end
    and is clamped at 0, a [start] beyond the end is clamped at the
    length. *)
Definition splice_insert {A} (start : Z) (x : A) (l : list A) : list A :=
  let len := Z.of_nat (length l) in
  let k := if (start <? 0)%Z then Z.max (len + start) 0 else Z.min start len in
  take (Z.to_nat k) l ++ x :: drop (Z.to_nat k) l.

Definition splice (a : loc) (start : Z) (f : Callback) (w : World) : World :=
  {| arrays := <[a := splice_insert start f (deref w a)]> (arrays w); w_store := w_store w |}.

(** ** Hooks and schemas (types.ts) *)

Record LifeCycleStore := {
  ev_start : loc;
  ev_request : loc;
  ev_parse : loc;
  ev_transform : loc;
  ev_beforeHandle : loc;
  ev_afterHandle : loc;
  ev_error : loc;
  ev_stop : loc
}.

Inductive SchemaRef := Inline (s : TSchema) | Named (name : string).

Inductive ResponseRef :=
| RSchema (s : TSchema)
| RNamed (name : string)
| RRecord (by_status : list (Z * SchemaRef)).

(** A schema object.  A caller writes the header schema under [headers]
    ([TypedSchema]); the object literal built by [mergeHook] has the key
    [header] and no key [headers]. *)
Record TypedSchema := {
  s_body : option SchemaRef;
  s_headers : option SchemaRef;
  s_header : option SchemaRef;
  s_params : option SchemaRef;
  s_query : option SchemaRef;
  s_response : option ResponseRef
}.

(** [T | T[]]: one callback, an array literal of the caller, or an array
    of the heap. *)
Inductive HookArg := One (f : Callback) | Lit (fs : list Callback) | Ref (a : loc).

Record LocalHook := {
  h_schema : option TypedSchema;
  h_transform : option HookArg;
  h_beforeHandle : option HookArg;
  h_parse : option HookArg;
  h_afterHandle : option HookArg;
  h_error : option HookArg
}.

Record RegisteredHook := {
  rh_schema : option TypedSchema;
  rh_transform : loc;
  rh_beforeHandle : loc;
  rh_parse : loc;
  rh_afterHandle : loc;
  rh_error : loc
}.

(** A [RegisteredHook] or a [LifeCycleStore] read through the keys of a
    [LocalHook]. *)
Definition registered_as_local (h : RegisteredHook) : LocalHook :=
  {| h_schema := rh_schema h;
     h_transform := Some (Ref (rh_transform h));
     h_beforeHandle := Some (Ref (rh_beforeHandle h));
     h_parse := Some (Ref (rh_parse h));
     h_afterHandle := Some (Ref (rh_afterHandle h));
     h_error := Some (Ref (rh_error h)) |}.

Definition event_as_local (e : LifeCycleStore) : LocalHook :=
  {| h_schema := None;
     h_transform := Some (Ref (ev_transform e));
     h_beforeHandle := Some (Ref (ev_beforeHandle e));
     h_parse := Some (Ref (ev_parse e));
     h_afterHandle := Some (Ref (ev_afterHandle e));
     h_error := Some (Ref (ev_error e)) |}.

(** ** utils.ts *)

(** [Array.isArray(a) ? a : [a]], with [x ?? []] for an absent key. *)
Definition as_array (w : World) (a : option HookArg) : list Callback :=
  match a with
  | None => []
  | Some (One f) => [f]
  | Some (Lit fs) => fs
  | Some (Ref l) => deref w l
  end.

(** [mergeObjectArray]: the spread builds a new array. *)
Definition mergeObjectArray (a b : option HookArg) (w : World) : loc * World :=
  alloc (as_array w a ++ as_array w b) w.

Definition or_else {A} (x y : option A) : option A :=
  match x with Some _ => x | None => y end.

(** [mergeHook(a, b)].  An absent [schema] key and an undefined one read
    the same; the [detail] metadata is left out. *)
Definition mergeHook (a : LocalHook) (b : option LocalHook) (w : World) : RegisteredHook * World :=
  let aSchema := h_schema a in
  let bSchema := b ≫= h_schema in
  let schema :=
    match aSchema, bSchema with
    | None, None => None
    | _, _ =>
        Some {| s_body := or_else (bSchema ≫= s_body) (aSchema ≫= s_body);
                s_headers := None;
                s_header := or_else (bSchema ≫= s_headers) (aSchema ≫= s_headers);
                s_params := or_else (bSchema ≫= s_params) (aSchema ≫= s_params);
                s_query := or_else (bSchema ≫= s_query) (aSchema ≫= s_query);
                s_response := or_else (bSchema ≫= s_response) (aSchema ≫= s_response) |}
    end in
  let '(transform, w) := mergeObjectArray (h_transform a) (b ≫= h_transform) w in
  let '(beforeHandle, w) := mergeObjectArray (h_beforeHandle a) (b ≫= h_beforeHandle) w in
  let '(parse, w) := mergeObjectArray (h_parse a) (b ≫= h_parse) w in
  let '(afterHandle, w) := mergeObjectArray (h_afterHandle a) (b ≫= h_afterHandle) w in
  let '(error, w) := mergeObjectArray (h_error a) (b ≫= h_error) w in
  ({| rh_schema := schema;
      rh_transform := transform;
      rh_beforeHandle := beforeHandle;
      rh_parse := parse;
      rh_afterHandle := afterHandle;
      rh_error := error |}, w).

(** [clone(value) = [value][0]]: the same object. *)
Definition clone {A} (x : A) : A := x.

(** [getSchemaValidator]: the compiled check, and the registry after
    the call.  The write [schema.additionalProperties = ...] is made on
    the schema object itself: for a model, on the object the registry
    holds, which keeps the value for every later compilation; a schema
    literal of a builder program is an object of its own. *)
Definition getSchemaValidator (s : option SchemaRef) (models : gmap string TSchema)
    (additionalProperties : bool) : option TypeCheck * gmap string TSchema :=
  match s with
  | None => (None, models)
  | Some (Inline schema) =>
      (Some (Compile (default_additional additionalProperties schema)), models)
  | Some (Named name) =>
      if String.eqb name "" then (None, models)
      else match models !! name with
           | None => (None, models)
           | Some schema =>
               let schema := default_additional additionalProperties schema in
               (Some (Compile schema), <[name := schema]> models)
           end
  end.

(** [getResponseSchemaValidator]: a record from status to compiled check;
    a bare schema goes under 200. *)
Definition getResponseSchemaValidator (s : option ResponseRef) (models : gmap string TSchema)
    (additionalProperties : bool) : option (list (Z * TypeCheck)) :=
  match s with
  | None => None
  | Some (RSchema schema) => Some [(200%Z, Compile schema)]
  | Some (RNamed name) =>
      if String.eqb name "" then None
      else match models !! name with
           | None => None
           | Some schema => Some [(200%Z, Compile schema)]
           end
  | Some (RRecord by_status) =>
      Some (omap (fun '(st, r) =>
                    match r with
                    | Named name => (fun schema => (st, Compile schema)) <$> models !! name
                    | Inline schema =>
                        Some (st, Compile (default_additional additionalProperties schema))
                    end) by_status)
  end.

(** ** The router (Raikiri, external)

    Modelled from the spec: the path-matching structure is consumed via
    [add(method, path, entry)] and [match(method, path)]; a segment with
    a leading [:] is a parameter and a trailing bare [*] is a catch-all.
    Static paths are looked up before patterns. *)

Module Raikiri.

Fixpoint split_path (s cur : string) : list string :=
  match s with
  | EmptyString => [cur]
  | String c rest =>
      if Ascii.eqb c "/"%char then cur :: split_path rest ""
      else split_path rest (cur ++ String c "")%string
  end.

Definition segments (path : string) : list string := split_path path "".

Definition is_pattern_segment (seg : string) : bool :=
  match seg with
  | String c _ => Ascii.eqb c ":"%char || String.eqb seg "*"
  | EmptyString => false
  end.

Definition is_static (path : string) : bool :=
  forallb (fun seg => negb (is_pattern_segment seg)) (segments path).

Fixpoint match_segments (pat path : list string) (acc : list (string * value))
  : option (list (string * value)) :=
  match pat, path with
  | [], [] => Some acc
  | p :: pat', _ =>
      if String.eqb p "*" then Some acc
      else match path with
           | [] => None
           | s :: path' =>
               match p with
               | String ":" name => match_segments pat' path' (acc ++ [(name, VStr s)])
               | _ => if String.eqb p s then match_segments pat' path' acc else None
               end
           end
  | [], _ :: _ => None
  end.

Section Router.
Context {T : Type}.

Definition t := list (string * string * T).

Definition add (method path : string) (entry : T) (r : t) : t :=
  r ++ [(method, path, entry)].

Definition find_static (method path : string) (r : t) : option T :=
  snd <$> List.find (fun e => String.eqb (fst (fst e)) method
                              && String.eqb (snd (fst e)) path
                              && is_static (snd (fst e))) r.

Fixpoint find_pattern (method : string) (path : list string) (r : t)
  : option (T * list (string * value)) :=
  match r with
  | [] => None
  | (m, p, entry) :: rest =>
      if String.eqb m method && negb (is_static p) then
        match match_segments (segments p) path [] with
        | Some params => Some (entry, params)
        | None => find_pattern method path rest
        end
      else find_pattern method path rest
  end.

(** [router.match(method, path)]: the stored entry and the parameters. *)
Definition lookup (method path : string) (r : t) : option (T * value) :=
  match find_static method path r with
  | Some entry => Some (entry, VObj [])
  | None =>
      (fun '(entry, params) => (entry, VObj params)) <$> find_pattern method (segments path) r
  end.

End Router.
Arguments t : clear implicits.

End Raikiri.

(** ** The application instance (index.ts) *)

Record InternalRoute := {
  ir_method : string;
  ir_path : string;
  ir_handler : Callback;
  ir_hooks : RegisteredHook
}.

(** The object [_addHandler] builds with the shorthand literal
    [{ body, header, params, query, response }]. *)
Record Validator := {
  v_body : option TypeCheck;
  v_header : option TypeCheck;
  v_params : option TypeCheck;
  v_query : option TypeCheck;
  v_response : option (list (Z * TypeCheck))
}.

(** The read [validator.headers]: the literal above has no such key. *)
Definition v_headers (v : Validator) : option TypeCheck := None.

(** The read [validator.response.Check]: the record returned by
    [getResponseSchemaValidator] has status numbers as its only keys. *)
Definition response_Check (record : list (Z * TypeCheck)) : option (value -> bool) := None.

(** What is stored in the router: [{ handle, hooks, validator }]. *)
Record MainHandler := {
  mh_handle : Callback;
  mh_hooks : option RegisteredHook;
  mh_validator : option Validator
}.

(** An [Elysia] instance.  [decorators] is the object [handle] uses as the
    context.  The [store] is the one object every scope of a tree shares
    and lives in [World]; [$schema] stays [null] (the [schema] method is
    not modelled, nor are [decorate], [derive], [fn], [use], [ws],
    [listen], [stop]). *)
Record Elysia := {
  event : LifeCycleStore;
  routes : list InternalRoute;
  router : Raikiri.t MainHandler;
  defs : gmap string TSchema;
  decorators : Context
}.

Definition App : Type := Elysia * World.

Definition with_event (e : LifeCycleStore) (this : Elysia) : Elysia :=
  {| event := e; routes := routes this; router := router this;
     defs := defs this; decorators := decorators this |}.

Definition with_defs (d : gmap string TSchema) (this : Elysia) : Elysia :=
  {| event := event this; routes := routes this; router := router this;
     defs := d; decorators := decorators this |}.

Definition with_decorators (c : Context) (this : Elysia) : Elysia :=
  {| event := event this; routes := routes this; router := router this;
     defs := defs this; decorators := c |}.

Definition with_store (s : gmap string value) (w : World) : World :=
  {| arrays := arrays w; w_store := s |}.

Definition empty_context : Context :=
  {| c_request := None; c_set := {| set_status := 200; set_headers := [] |};
     c_body := VUndefined; c_params := VUndefined; c_query := VUndefined;
     c_decor := ∅ |}.

(** [new Elysia()]: eight empty arrays for [event]. *)
Definition newElysia (w : World) : App :=
  let '(start, w) := alloc [] w in
  let '(request, w) := alloc [] w in
  let '(parse, w) := alloc [] w in
  let '(transform, w) := alloc [] w in
  let '(beforeHandle, w) := alloc [] w in
  let '(afterHandle, w) := alloc [] w in
  let '(error, w) := alloc [] w in
  let '(stop, w) := alloc [] w in
  ({| event := {| ev_start := start; ev_request := request; ev_parse := parse;
                  ev_transform := transform; ev_beforeHandle := beforeHandle;
                  ev_afterHandle := afterHandle; ev_error := error; ev_stop := stop |};
      routes := []; router := []; defs := ∅; decorators := empty_context |}, w).

Definition empty_world : World := {| arrays := []; w_store := ∅ |}.

Definition starts_with_slash (path : string) : bool :=
  match path with String "/" _ => true | _ => false end.

(** [_addHandler(method, path, handler, hook)] *)
Definition _addHandler (method path : string) (handler : Callback) (hook : option LocalHook)
    (app : App) : App :=
  let '(this, w) := app in
  let path := if starts_with_slash path then path else ("/" ++ path)%string in
  (* this.routes.push({ ..., hooks: mergeHook({ ...this.event }, hook) }) *)
  let '(route_hooks, w) := mergeHook (event_as_local (event this)) hook w in
  let routes' := routes this ++ [{| ir_method := method; ir_path := path;
                                    ir_handler := handler; ir_hooks := route_hooks |}] in
  let defs := defs this in
  let schema := hook ≫= h_schema in
  (* each call leaves the registry to the next *)
  let body := getSchemaValidator (schema ≫= s_body) defs false in
  let header := getSchemaValidator (schema ≫= s_headers) (snd body) true in
  let params := getSchemaValidator (schema ≫= s_params) (snd header) false in
  let query := getSchemaValidator (schema ≫= s_query) (snd params) false in
  let defs := snd query in
  let response := getResponseSchemaValidator (schema ≫= s_response) defs false in
  let body := fst body in
  let header := fst header in
  let params := fst params in
  let query := fst query in
  let validator :=
    if bool_decide (is_Some body ∨ is_Some header ∨ is_Some params ∨ is_Some query
                    ∨ is_Some response)
    then Some {| v_body := body; v_header := header; v_params := params;
                 v_query := query; v_response := response |}
    else None in
  let '(hooks, w) := mergeHook (event_as_local (clone (event this))) hook w in
  let hooks :=
    if negb (bool_decide (is_Some (rh_schema hooks)))
       && bool_decide (length (deref w (rh_transform hooks)) = 0)
       && bool_decide (length (deref w (rh_beforeHandle hooks)) = 0)
       && bool_decide (length (deref w (rh_error hooks)) = 0)
       && bool_decide (length (deref w (rh_afterHandle hooks)) = 0)
    then None else Some hooks in
  let mainHandler := {| mh_handle := handler; mh_hooks := hooks; mh_validator := validator |} in
  ({| event := event this; routes := routes';
      router := Raikiri.add method path mainHandler (router this);
      defs := defs; decorators := decorators this |}, w).

(** *** Lifecycle registration *)

Definition onStart (handler : Callback) (app : App) : App :=
  let '(this, w) := app in (this, push (ev_start (event this)) handler w).

Definition onRequest (handler : Callback) (app : App) : App :=
  let '(this, w) := app in (this, push (ev_request (event this)) handler w).

(** [this.event.parse.splice(this.event.parse.length - 1, 0, parser)] *)
Definition onParse (parser : Callback) (app : App) : App :=
  let '(this, w) := app in
  let parse := ev_parse (event this) in
  (this, splice parse (Z.of_nat (length (deref w parse)) - 1) parser w).

Definition onTransform (handler : Callback) (app : App) : App :=
  let '(this, w) := app in (this, push (ev_transform (event this)) handler w).

Definition onBeforeHandle (handler : Callback) (app : App) : App :=
  let '(this, w) := app in (this, push (ev_beforeHandle (event this)) handler w).

Definition onAfterHandle (handler : Callback) (app : App) : App :=
  let '(this, w) := app in (this, push (ev_afterHandle (event this)) handler w).

Definition onError (errorHandler : Callback) (app : App) : App :=
  let '(this, w) := app in (this, push (ev_error (event this)) errorHandler w).

Definition onStop (handler : Callback) (app : App) : App :=
  let '(this, w) := app in (this, push (ev_stop (event this)) handler w).

Inductive LifeCycleEvent :=
| EvStart | EvRequest | EvParse | EvTransform
| EvBeforeHandle | EvAfterHandle | EvError | EvStop.

Definition event_array (type : LifeCycleEvent) (e : LifeCycleStore) : loc :=
  match type with
  | EvStart => ev_start e
  | EvRequest => ev_request e
  | EvParse => ev_parse e
  | EvTransform => ev_transform e
  | EvBeforeHandle => ev_beforeHandle e
  | EvAfterHandle => ev_afterHandle e
  | EvError => ev_error e
  | EvStop => ev_stop e
  end.

(** [on(type, handler)]: every case is a [push]. *)
Definition on (type : LifeCycleEvent) (handler : Callback) (app : App) : App :=
  let '(this, w) := app in (this, push (event_array type (event this)) handler w).

(** *** Routes *)

Definition route (method path : string) (handler : Callback) (hook : option LocalHook)
  : App -> App := _addHandler method path handler hook.

Definition get := route "GET".
Definition post := route "POST".
Definition put := route "PUT".
Definition patch := route "PATCH".
Definition all := route "ALL".

(** *** [state] and [setModel] *)

(** Property names every object literal inherits from [Object.prototype];
    [name in {}] is true for them. *)
Definition object_prototype_keys : list string :=
  [ "constructor"; "__defineGetter__"; "__defineSetter__"; "hasOwnProperty";
    "__lookupGetter__"; "__lookupSetter__"; "isPrototypeOf";
    "propertyIsEnumerable"; "toString"; "valueOf"; "__proto__"; "toLocaleString" ].

(** [name in this.store], the store being created as [{}]. *)
Definition in_store (name : string) (s : gmap string value) : bool :=
  bool_decide (is_Some (s !! name)) || bool_decide (name ∈ object_prototype_keys).

Definition state (name : string) (v : value) (app : App) : App :=
  let '(this, w) := app in
  if in_store name (w_store w) then app
  else (this, with_store (<[name := v]> (w_store w)) w).

(** [key in this.meta[DEFS]], the registry being [Object.create(null)]. *)
Definition in_defs (key : string) (d : gmap string TSchema) : bool :=
  bool_decide (is_Some (d !! key)).

Definition setModel (record : gmap string TSchema) (app : App) : App :=
  let '(this, w) := app in
  (with_defs (fold_left (fun d kv => if in_defs (fst kv) d then d
                                     else <[fst kv := snd kv]> d)
                        (map_to_list record) (defs this)) this, w).

(** *** [group] and [guard]

    [run] is the caller's function; it returns the instance it was given
    (every method returns [this]), so [sandbox] and [instance] are one. *)

Definition fold_request_hooks (sandbox : Elysia) (app : App) : App :=
  let '(this, w) := app in
  let theirs := deref w (ev_request (event sandbox)) in
  if bool_decide (length theirs = 0) then app
  else
    let '(request, w) := alloc (deref w (ev_request (event this)) ++ theirs) w in
    let e := event this in
    (with_event {| ev_start := ev_start e; ev_request := request; ev_parse := ev_parse e;
                   ev_transform := ev_transform e; ev_beforeHandle := ev_beforeHandle e;
                   ev_afterHandle := ev_afterHandle e; ev_error := ev_error e;
                   ev_stop := ev_stop e |} this, w).

Definition error_only (a : loc) : LocalHook :=
  {| h_schema := None; h_transform := None; h_beforeHandle := None; h_parse := None;
     h_afterHandle := None; h_error := Some (Ref a) |}.

Definition group (prefix : string) (run : App -> App) (app : App) : App :=
  let '(this, w) := app in
  let '(sandbox, w) := run (newElysia w) in
  let app := fold_request_hooks sandbox (this, w) in
  let app := setModel (defs sandbox) app in
  fold_left
    (fun app r =>
       let path := if String.eqb (ir_path r) "/" then prefix
                   else (prefix ++ ir_path r)%string in
       let '(this, w) := app in
       let '(hooks, w) :=
         mergeHook (registered_as_local (ir_hooks r))
                   (Some (error_only (ev_error (event sandbox)))) w in
       _addHandler (ir_method r) path (ir_handler r) (Some (registered_as_local hooks)) (this, w))
    (routes sandbox) app.

Definition guard (hook : LocalHook) (run : App -> App) (app : App) : App :=
  let '(this, w) := app in
  let '(sandbox, w) := run (newElysia w) in
  let app := fold_request_hooks sandbox (this, w) in
  let app := setModel (defs sandbox) app in
  fold_left
    (fun app r =>
       let '(this, w) := app in
       let '(hooks, w) := mergeHook hook (Some (registered_as_local (ir_hooks r))) w in
       _addHandler (ir_method r) (ir_path r) (ir_handler r) (Some (registered_as_local hooks))
                   (this, w))
    (routes sandbox) app.

(** *** Builder programs: the chained calls a caller writes *)

Inductive Build :=
| BRoute (method path : string) (handler : Callback) (hook : option LocalHook)
| BOn (type : LifeCycleEvent) (handler : Callback)
| BOnStart (handler : Callback)
| BOnRequest (handler : Callback)
| BOnParse (parser : Callback)
| BOnTransform (handler : Callback)
| BOnBeforeHandle (handler : Callback)
| BOnAfterHandle (handler : Callback)
| BOnError (handler : Callback)
| BOnStop (handler : Callback)
| BState (name : string) (v : value)
| BSetModel (record : gmap string TSchema)
| BGroup (prefix : string) (run : list Build)
| BGuard (hook : LocalHook) (run : list Build).

Fixpoint exec (b : Build) (app : App) : App :=
  match b with
  | BRoute method path handler hook => route method path handler hook app
  | BOn type handler => on type handler app
  | BOnStart handler => onStart handler app
  | BOnRequest handler => onRequest handler app
  | BOnParse parser => onParse parser app
  | BOnTransform handler => onTransform handler app
  | BOnBeforeHandle handler => onBeforeHandle handler app
  | BOnAfterHandle handler => onAfterHandle handler app
  | BOnError handler => onError handler app
  | BOnStop handler => onStop handler app
  | BState name v => state name v app
  | BSetModel record => setModel record app
  | BGroup prefix run => group prefix (fun child => fold_left (fun a c => exec c a) run child) app
  | BGuard hook run => guard hook (fun child => fold_left (fun a c => exec c a) run child) app
  end.

Definition chain (calls : list Build) (app : App) : App :=
  fold_left (fun a c => exec c a) calls app.

(** [new Elysia()] followed by the chained calls. *)
Definition build (calls : list Build) : App := chain calls (newElysia empty_world).

(** ** Handling a request *)

(** Calls made to the caller's functions, in the order they are made
    (bookkeeping of the model, to state which callbacks ran). *)
Inductive Call :=
| CRequest (i : nat)
| CParse (i : nat)
| CTransform (i : nat)
| CBeforeHandle (i : nat)
| CHandler
| CAfterHandle (i : nat)
| CError (i : nat)
| CGlobalError (i : nat).

(** The state of one run of [handle]: what callbacks see, the local
    variable [handleErrors], and the calls made so far. *)
Record Run := {
  u : UState;
  handleErrors : option loc;
  calls : list Call
}.

(** A computation inside the [try] block: it returns or throws. *)
Definition Exec (A : Type) : Type := Run -> (A + Error) * Run.

Definition ret {A} (x : A) : Exec A := fun r => (inl x, r).
Definition throw {A} (e : Error) : Exec A := fun r => (inr e, r).
Definition bind {A B} (m : Exec A) (k : A -> Exec B) : Exec B :=
  fun r => match m r with
           | (inl x, r') => k x r'
           | (inr e, r') => (inr e, r')
           end.

Notation "x <- m ;; k" := (bind m (fun x => k))
  (at level 100, m at next level, right associativity).
Notation "m ;;; k" := (bind m (fun _ => k))
  (at level 100, right associativity).

Definition get_ctx : Exec Context := fun r => (inl (ctx (u r)), r).

Definition set_ctx (c : Context) : Exec unit :=
  fun r => (inl tt, {| u := {| ctx := c; store := store (u r) |};
                       handleErrors := handleErrors r; calls := calls r |}).

Definition set_handleErrors (a : loc) : Exec unit :=
  fun r => (inl tt, {| u := u r; handleErrors := Some a; calls := calls r |}).

(** Calling [f(context)] or [f(context, arg)]. *)
Definition invoke (tag : Call) (f : Callback) (arg : value) : Exec value :=
  fun r =>
    let '(o, u') := f arg (u r) in
    (match o with Return v => inl v | Raise e => inr e end,
     {| u := u'; handleErrors := handleErrors r; calls := calls r ++ [tag] |}).

Definition with_set (s : SetT) (c : Context) : Context :=
  {| c_request := c_request c; c_set := s; c_body := c_body c;
     c_params := c_params c; c_query := c_query c; c_decor := c_decor c |}.

(** An error hook is called with [{ request, error, set, code }], not with
    the context: it sees [request] and [set] only, and [set] is the
    object it can write to. *)
Definition error_view (c : Context) : Context :=
  {| c_request := c_request c; c_set := c_set c; c_body := VUndefined;
     c_params := VUndefined; c_query := VUndefined; c_decor := ∅ |}.

Definition error_arg (error : Error) (code : string) : value :=
  VObj [("code", VStr code);
        ("message", VStr (e_message error));
        ("cause", match e_cause error with Some c => VStr c | None => VUndefined end)].

Definition invoke_error (tag : Call) (f : Callback) (error : Error) (code : string)
  : Exec value :=
  fun r =>
    let '(o, u') := f (error_arg error code)
                      {| ctx := error_view (ctx (u r)); store := store (u r) |} in
    (match o with Return v => inl v | Raise e => inr e end,
     {| u := {| ctx := with_set (c_set (ctx u')) (ctx (u r)); store := store u' |};
        handleErrors := handleErrors r; calls := calls r ++ [tag] |}).

(** [for (i ...) { response = this.event.request[i](context); ... }] *)
Fixpoint request_hooks (hs : list Callback) (i : nat) : Exec (option Response) :=
  match hs with
  | [] => ret None
  | f :: rest =>
      response <- invoke (CRequest i) f VUndefined ;;
      c <- get_ctx ;;
      match mapEarlyResponse response (c_set c) with
      | Some r => ret (Some r)
      | None => request_hooks rest (S i)
      end
  end.

(** The custom parsers: the first result that is not [undefined] is the
    body. *)
Fixpoint parse_hooks (hs : list Callback) (contentType : string) (i : nat) : Exec value :=
  match hs with
  | [] => ret VUndefined
  | f :: rest =>
      temp <- invoke (CParse i) f (VStr contentType) ;;
      match temp with
      | VUndefined => parse_hooks rest contentType (S i)
      | _ => ret temp
      end
  end.

(** [form.keys()] / [form.getAll(key)]: a key met again is skipped, one
    value is stored as it is, several as an array. *)
Fixpoint form_body (entries all : list (string * value)) (acc : list (string * value))
  : list (string * value) :=
  match entries with
  | [] => acc
  | (key, _) :: rest =>
      if bool_decide (is_Some (assoc key acc)) then form_body rest all acc
      else
        let vs := snd <$> filter (fun e => fst e = key) all in
        form_body rest all (acc ++ [(key, match vs with [x] => x | _ => VArr vs end)])
  end.

(** The [switch (contentType)] of the default decoders. *)
Definition default_body (request : Request) (contentType : string) : Exec value :=
  if String.eqb contentType "application/json" then
    match r_json request with
    | Some v => ret v
    | None => throw (mkError "Unexpected token")
    end
  else if String.eqb contentType "text/plain" then ret (VStr (r_text request))
  else if String.eqb contentType "application/x-www-form-urlencoded" then
    ret (parseQuery (r_urlencoded request))
  else if String.eqb contentType "multipart/form-data" then
    ret (VObj (form_body (r_form request) (r_form request) []))
  else if String.eqb contentType "elysia/fn" then
    match r_json request with
    | Some v => ret v
    | None => throw (mkError "Unexpected token")
    end
  else ret VUndefined.

(** [contentType.slice(0, contentType.indexOf(';'))] when there is a [;]. *)
Fixpoint before_semicolon (s : string) : string :=
  match s with
  | EmptyString => EmptyString
  | String c rest => if Ascii.eqb c ";"%char then EmptyString else String c (before_semicolon rest)
  end.

(** [request.headers.get(name)] *)
Definition headers_get (name : string) (request : Request) : option string :=
  assoc name (r_headers request).

Definition read_body (parse : list Callback) (request : Request) : Exec value :=
  if String.eqb (r_method request) "GET" then ret VUndefined
  else
    match headers_get "content-type" request with
    | None => ret VUndefined
    | Some contentType =>
        if String.eqb contentType "" then ret VUndefined
        else
          let contentType := before_semicolon contentType in
          body <- parse_hooks parse contentType 0 ;;
          match body with
          | VUndefined => default_body request contentType
          | _ => ret body
          end
    end.

Fixpoint transform_hooks (hs : list Callback) (i : nat) : Exec unit :=
  match hs with
  | [] => ret tt
  | f :: rest => invoke (CTransform i) f VUndefined ;;; transform_hooks rest (S i)
  end.

(** [_header]: the request's headers as an object.  ([handle] fills it
    with a [for ... in] over [request.headers], [compose.ts] with
    [headers.keys()]; in [handle] it is only passed to the check under
    [validator.headers].) *)
Definition header_record (request : Request) : value :=
  VObj ((fun kv => (fst kv, VStr (snd kv))) <$> r_headers request).

(** [if (validator.X?.Check(v) === false) throw createValidationError(...)] *)
Definition check_or_throw (type : string) (validator : option TypeCheck) (v : value)
  : Exec unit :=
  match validator with
  | Some c => if run_check c v then ret tt else throw (createValidationError type c v)
  | None => ret tt
  end.

Definition validate (hooks : option RegisteredHook) (validator : option Validator)
    (request : Request) (body : value) : Exec unit :=
  match validator with
  | None => ret tt
  | Some validator =>
      match hooks with Some h => set_handleErrors (rh_error h) | None => ret tt end ;;;
      check_or_throw "header" (v_headers validator) (header_record request) ;;;
      c <- get_ctx ;;
      check_or_throw "params" (v_params validator) (c_params c) ;;;
      c <- get_ctx ;;
      check_or_throw "query" (v_query validator) (c_query c) ;;;
      check_or_throw "body" (v_body validator) body
  end.

(** The inner loop of the [beforeHandle] short-circuit:
    [if (newResponse) response = newResponse]. *)
Fixpoint afterHandle_early (afters : list Callback) (response : value) (i : nat)
  : Exec value :=
  match afters with
  | [] => ret response
  | f :: rest =>
      newResponse <- invoke (CAfterHandle i) f response ;;
      afterHandle_early rest (if truthy newResponse then newResponse else response) (S i)
  end.

Fixpoint beforeHandle_hooks (hs afters : list Callback) (i : nat) : Exec (option Response) :=
  match hs with
  | [] => ret None
  | f :: rest =>
      response <- invoke (CBeforeHandle i) f VUndefined ;;
      if nullish response then beforeHandle_hooks rest afters (S i)
      else
        response <- afterHandle_early afters response 0 ;;
        c <- get_ctx ;;
        match mapEarlyResponse response (c_set c) with
        | Some result => ret (Some result)
        | None => beforeHandle_hooks rest afters (S i)
        end
  end.

(** [if (validator?.response?.Check(response) === false) ...]: calling the
    missing [Check] of the record is a [TypeError]. *)
Definition validate_response (hooks : option RegisteredHook) (validator : option Validator)
    (response : value) : Exec unit :=
  match validator ≫= v_response with
  | None => ret tt
  | Some record =>
      match response_Check record with
      | None => throw (mkError "validator.response.Check is not a function")
      | Some check =>
          if check response then ret tt
          else
            match hooks with Some h => set_handleErrors (rh_error h) | None => ret tt end ;;;
            throw (ValidationError "Invalid response" "response" response)
      end
  end.

(** The loop after the handler: the first hook whose result maps to a
    response ends the request. *)
Fixpoint afterHandle_hooks (afters : list Callback) (response : value) (i : nat)
  : Exec (option Response) :=
  match afters with
  | [] => ret None
  | f :: rest =>
      newResponse <- invoke (CAfterHandle i) f response ;;
      c <- get_ctx ;;
      match mapEarlyResponse newResponse (c_set c) with
      | Some result => ret (Some result)
      | None => afterHandle_hooks rest response (S i)
      end
  end.

Definition with_payload (body params query : value) (c : Context) : Context :=
  {| c_request := c_request c; c_set := c_set c; c_body := body;
     c_params := params; c_query := query; c_decor := c_decor c |}.

Definition note_error_hooks (hooks : option RegisteredHook) : Exec unit :=
  match hooks with
  | Some h => set_handleErrors (rh_error h)
  | None => ret tt
  end.

(** [handle], from the matched route to the validators. *)
Definition enter_route (this : Elysia) (w : World) (request : Request)
    (search : option (list (string * string))) (entry : MainHandler) (params : value)
  : Exec unit :=
  let hooks := mh_hooks entry in
  let validator := mh_validator entry in
  note_error_hooks hooks ;;;
  body <- read_body (deref w (ev_parse (event this))) request ;;
  c <- get_ctx ;;
  set_ctx (with_payload body params
             (match search with Some pairs => parseQuery pairs | None => VObj [] end) c) ;;;
  match hooks with
  | Some h => transform_hooks (deref w (rh_transform h)) 0
  | None => ret tt
  end ;;;
  validate hooks validator request body.

(** [handle], from the call of the handler to the end of the [try]
    block. *)
Definition from_handler (w : World) (entry : MainHandler) : Exec Response :=
  let hooks := mh_hooks entry in
  let validator := mh_validator entry in
  response <- invoke CHandler (mh_handle entry) VUndefined ;;
  validate_response hooks validator response ;;;
  late <- match hooks with
          | Some h => afterHandle_hooks (deref w (rh_afterHandle h)) response 0
          | None => ret None
          end ;;
  match late with
  | Some result => ret result
  | None => c <- get_ctx ;; ret (mapResponse response (c_set c))
  end.

(** [handle], from the [beforeHandle] loop to the end of the [try]
    block. *)
Definition from_beforeHandle (w : World) (entry : MainHandler) : Exec Response :=
  early <- match mh_hooks entry with
           | Some h => beforeHandle_hooks (deref w (rh_beforeHandle h))
                                          (deref w (rh_afterHandle h)) 0
           | None => ret None
           end ;;
  match early with
  | Some result => ret result
  | None => from_handler w entry
  end.

Definition handle_route (this : Elysia) (w : World) (request : Request)
    (search : option (list (string * string))) (entry : MainHandler) (params : value)
  : Exec Response :=
  enter_route this w request search entry params ;;;
  from_beforeHandle w entry.

(** The [try] block of [handle]. *)
Definition attempt (this : Elysia) (w : World) (request : Request) : Exec Response :=
  early <- request_hooks (deref w (ev_request (event this))) 0 ;;
  match early with
  | Some response => ret response
  | None =>
      match r_url request with
      | None => throw (mkError "NOT_FOUND")
      | Some (pathname, search) =>
          match or_else (Raikiri.lookup (r_method request) pathname (router this))
                        (Raikiri.lookup "ALL" pathname (router this)) with
          | None => throw (mkError "NOT_FOUND")
          | Some (entry, params) => handle_route this w request search entry params
          end
      end
  end.

(** [if (!set.status || set.status < 300) set.status = 500] *)
Definition failed_status (s : SetT) : SetT :=
  if (set_status s =? 0)%Z || (set_status s <? 300)%Z
  then {| set_status := 500; set_headers := set_headers s |}
  else s.

(** The route-level loop of the [catch] block. *)
Fixpoint error_hooks (hs : list Callback) (error : Error) (code : string) (i : nat)
  : Exec (option Response) :=
  match hs with
  | [] => ret None
  | f :: rest =>
      handled <- invoke_error (CError i) f error code ;;
      c <- get_ctx ;;
      match mapEarlyResponse handled (c_set c) with
      | Some response => ret (Some response)
      | None => error_hooks rest error code (S i)
      end
  end.

(** The loop of [handleError] over [this.event.error]. *)
Fixpoint global_error_hooks (hs : list Callback) (error : Error) (i : nat)
  : Exec (option Response) :=
  match hs with
  | [] => ret None
  | f :: rest =>
      response <- invoke_error (CGlobalError i) f error (mapErrorCode (e_message error)) ;;
      if nullish response then global_error_hooks rest error (S i)
      else c <- get_ctx ;; ret (Some (mapResponse response (c_set c)))
  end.

(** The default answer of [handleError]. *)
Definition default_error_response (error : Error) (set : SetT) : Response :=
  mkResponse (mapErrorStatus (mapErrorCode (e_message error))) (set_headers set)
             (VStr (match e_cause error with Some cause => cause | None => e_message error end)).

Definition handleError (this : Elysia) (w : World) (error : Error) : Exec Response :=
  handled <- global_error_hooks (deref w (ev_error (event this))) error 0 ;;
  match handled with
  | Some response => ret response
  | None => c <- get_ctx ;; ret (default_error_response error (c_set c))
  end.

(** The [catch] block of [handle]. *)
Definition recover (this : Elysia) (w : World) (error : Error) : Exec Response :=
  c <- get_ctx ;;
  set_ctx (with_set (failed_status (c_set c)) c) ;;;
  fun r =>
    (handled <- match handleErrors r with
                | Some a => error_hooks (deref w a) error (mapErrorCode (e_message error)) 0
                | None => ret None
                end ;;
     match handled with
     | Some response => ret response
     | None => handleError this w error
     end) r.

(** The context of a request: the [decorators] object with [request] and
    a new [set] assigned. *)
Definition enter (request : Request) (c : Context) : Context :=
  {| c_request := Some request;
     c_set := {| set_status := 200; set_headers := [] |};
     c_body := c_body c; c_params := c_params c; c_query := c_query c;
     c_decor := c_decor c |}.

Definition start_run (this : Elysia) (w : World) (request : Request) : Run :=
  {| u := {| ctx := enter request (decorators this); store := w_store w |};
     handleErrors := None; calls := [] |}.

(** [handle(request)]: the response (or the error an error hook threw),
    the instance and world it leaves, and the calls it made. *)
Definition handle (app : App) (request : Request) : (Response + Error) * App * list Call :=
  let '(this, w) := app in
  let '(result, r) :=
    match attempt this w request (start_run this w request) with
    | (inl response, r) => (inl response, r)
    | (inr error, r) => recover this w error r
    end in
  (result, (with_decorators (ctx (u r)) this, with_store (store (u r)) w), calls r).

(** ** Scenarios *)

Definition returns (v : value) : Callback := fun _ s => (Return v, s).

Definition no_schema : TypedSchema :=
  {| s_body := None; s_headers := None; s_header := None; s_params := None;
     s_query := None; s_response := None |}.

Definition schema_hook (s : TypedSchema) : LocalHook :=
  {| h_schema := Some s; h_transform := None; h_beforeHandle := None; h_parse := None;
     h_afterHandle := None; h_error := None |}.

Definition query_schema (q : TSchema) : TypedSchema :=
  {| s_body := None; s_headers := None; s_header := None; s_params := None;
     s_query := Some (Inline q); s_response := None |}.

Definition headers_schema (h : TSchema) : TypedSchema :=
  {| s_body := None; s_headers := Some (Inline h); s_header := None; s_params := None;
     s_query := None; s_response := None |}.

Definition body_schema (b : TSchema) : TypedSchema :=
  {| s_body := Some (Inline b); s_headers := None; s_header := None; s_params := None;
     s_query := None; s_response := None |}.

Definition response_schema (r : TSchema) : TypedSchema :=
  {| s_body := None; s_headers := None; s_header := None; s_params := None;
     s_query := None; s_response := Some (RSchema r) |}.

(** [{ beforeHandle: f, schema: s }] *)
Definition before_and_schema (f : Callback) (s : TypedSchema) : LocalHook :=
  {| h_schema := Some s; h_transform := None; h_beforeHandle := Some (One f);
     h_parse := None; h_afterHandle := None; h_error := None |}.

(** The nested guard example: a guard with a query schema around route
    [/] and around a second guard, which declares a header schema around
    route [/a]; then the catch-all route. *)
Definition nested_guard : list Build :=
  [ BGuard (schema_hook (query_schema (TObject [("name", TString)] None)))
      [ BRoute "GET" "/" (returns (VStr "A"))
          (Some (before_and_schema (returns VUndefined)
                   (query_schema (TObject [("a", TString)] None))));
        BGuard (schema_hook (headers_schema (TObject [("a", TString)] None)))
          [ BRoute "GET" "/a" (returns (VStr "A"))
              (Some (before_and_schema (returns VUndefined)
                       (body_schema (TObject [("username", TString)] None)))) ] ];
    BRoute "GET" "*" (returns (VStr "Star now work")) None ].

(** [{ beforeHandle: f }] *)
Definition before_hook (f : Callback) : LocalHook :=
  {| h_schema := None; h_transform := None; h_beforeHandle := Some (One f);
     h_parse := None; h_afterHandle := None; h_error := None |}.

(** The scenario of the nested guards by itself: the example above
    without the body schema of the route [/a], so that the header schema
    of the inner guard is the only schema that could reject a request
    which carries the query the outer guard asks for. *)
Definition nested_guard_scenario : list Build :=
  [ BGuard (schema_hook (query_schema (TObject [("name", TString)] None)))
      [ BRoute "GET" "/" (returns (VStr "A"))
          (Some (before_and_schema (returns VUndefined)
                   (query_schema (TObject [("a", TString)] None))));
        BGuard (schema_hook (headers_schema (TObject [("a", TString)] None)))
          [ BRoute "GET" "/a" (returns (VStr "A"))
              (Some (before_hook (returns VUndefined))) ] ];
    BRoute "GET" "*" (returns (VStr "Star now work")) None ].

Definition get_request (pathname : string) (search : option (list (string * string)))
    (hdrs : list (string * string)) : Request :=
  {| r_method := "GET"; r_url := Some (pathname, search); r_headers := hdrs;
     r_json := None; r_text := ""; r_urlencoded := []; r_form := [] |}.

Definition post_text (pathname text : string) : Request :=
  {| r_method := "POST"; r_url := Some (pathname, None);
     r_headers := [("content-type", "text/plain")];
     r_json := None; r_text := text; r_urlencoded := []; r_form := [] |}.

(** [({ body }) => body] *)
Definition echo_body : Callback := fun _ s => (Return (c_body (ctx s)), s).

(** A route with a header schema:
    [get('/', () => 'hi', { schema: { headers: t.Object({ a: t.String() }) } })]. *)
Definition header_route : list Build :=
  [ BRoute "GET" "/" (returns (VStr "hi"))
      (Some (schema_hook (headers_schema (TObject [("a", TString)] None)))) ].

(** A route with a response schema whose handler returns a number:
    [get('/', () => 1, { schema: { response: t.String() } })]. *)
Definition response_route (result : value) : list Build :=
  [ BRoute "GET" "/" (returns result) (Some (schema_hook (response_schema TString))) ].

(** Two parsers registered in turn, then a route that answers with the
    parsed body. *)
Definition first_parser : Callback := returns (VStr "first").
Definition second_parser : Callback := returns (VStr "second").

Definition two_parsers : list Build :=
  [ BOnParse first_parser; BOnParse second_parser; BRoute "POST" "/" echo_body None ].

Definition two_parsers_by_name : list Build :=
  [ BOn EvParse first_parser; BOn EvParse second_parser; BRoute "POST" "/" echo_body None ].

(** A route registered before any parser. *)
Definition echo_route : list Build := [ BRoute "POST" "/" echo_body None ].

(** A request hook that answers with the [token] of [context.query], if
    the context has one. *)
Definition answer_token : Callback :=
  fun _ s =>
    (Return (match c_query (ctx s) with
             | VObj fields => default VUndefined (assoc "token" fields)
             | _ => VUndefined
             end), s).

Definition token_app : list Build :=
  [ BOnRequest answer_token; BRoute "GET" "/" (returns (VStr "home")) None ].

(** The test "delegate onRequest" of [test/group]. *)
Definition increment_counter : Callback :=
  fun _ s =>
    (Return VUndefined,
     {| ctx := ctx s;
        store := match store s !! "counter" with
                 | Some (VNum n) => <["counter" := VNum (n + 1)]> (store s)
                 | _ => store s
                 end |}).

Definition read_counter : Callback :=
  fun _ s => (Return (default VUndefined (store s !! "counter")), s).

Definition counter_app : list Build :=
  [ BRoute "GET" "/" (returns (VStr "A")) None;
    BGroup "/counter"
      [ BState "counter" (VNum 0);
        BOnRequest increment_counter;
        BRoute "GET" "" read_counter None ] ].

(** ** Behaviour of callbacks, as hypotheses of the theorems *)

(** The hooks run in order from state [s], none throws, each returns
    [null] or [undefined]; [s'] is the state they leave. *)
Inductive all_pass (arg : value) : list Callback -> UState -> UState -> Prop :=
| all_pass_nil s : all_pass arg [] s s
| all_pass_cons f fs s s1 s2 v :
    f arg s = (Return v, s1) -> nullish v = true ->
    all_pass arg fs s1 s2 -> all_pass arg (f :: fs) s s2.


(** What an error hook sees and leaves: the state with the context
    reduced to [request] and [set]. *)
Definition error_state (s : UState) : UState :=
  {| ctx := error_view (ctx s); store := store s |}.

Definition after_error (s s' : UState) : UState :=
  {| ctx := with_set (c_set (ctx s')) (ctx s); store := store s' |}.

(** The error hooks run in order from [s], none throws, each returns
    [null] or [undefined]. *)
Inductive errors_pass (arg : value) : list Callback -> UState -> UState -> Prop :=
| errors_pass_nil s : errors_pass arg [] s s
| errors_pass_cons f fs s s1 s2 v :
    f arg (error_state s) = (Return v, s1) -> nullish v = true ->
    errors_pass arg fs (after_error s s1) s2 -> errors_pass arg (f :: fs) s s2.

(** ** Reading the outcome of [handle] *)

Definition result_of (x : (Response + Error) * App * list Call) : Response + Error :=
  fst (fst x).
Definition app_of (x : (Response + Error) * App * list Call) : App := snd (fst x).
Definition calls_of (x : (Response + Error) * App * list Call) : list Call := snd x.

(** The array of an event of an application. *)
Definition hooks_of (type : LifeCycleEvent) (app : App) : list Callback :=
  deref (snd app) (event_array type (event (fst app))).

(** The route a request is dispatched to. *)
Definition matched (this : Elysia) (request : Request) (pathname : string)
  : option (MainHandler * value) :=
  or_else (Raikiri.lookup (r_method request) pathname (router this))
          (Raikiri.lookup "ALL" pathname (router this)).

(** The merged registry of [setModel]: a name keeps its first schema. *)
Definition first_wins {A} (x y : option A) : option A := or_else x y.

(** The run [r] after [handleErrors = hooks.error]. *)
Definition noted (hooks : option RegisteredHook) (r : Run) : Run :=
  match hooks with
  | Some h => {| u := u r; handleErrors := Some (rh_error h); calls := calls r |}
  | None => r
  end.

(** The run [r] after callbacks left state [s] and the calls [new] were
    made. *)
Definition advance (r : Run) (s : UState) (new : list Call) : Run :=
  {| u := s; handleErrors := handleErrors r; calls := calls r ++ new |}.

(** Every run of [m] is a step of the relation [R]. *)
Definition steps (R : Run -> Run -> Prop) {A} (m : Exec A) : Prop :=
  forall r x r', m r = (x, r') -> R r r'.

(** The second run has the calls of the first and then calls that all
    satisfy [P]. *)
Definition grows_by (P : Call -> Prop) (r r' : Run) : Prop :=
  exists new, calls r' = calls r ++ new /\ Forall P new.

(** A computation only adds calls, all of them satisfying [P]. *)
Definition grows (P : Call -> Prop) {A} (m : Exec A) : Prop := steps (grows_by P) m.


(** The [beforeHandle] and [afterHandle] arrays of a stored route; a
    route stored without hooks has none. *)
Definition route_beforeHandle (w : World) (entry : MainHandler) : list Callback :=
  match mh_hooks entry with Some h => deref w (rh_beforeHandle h) | None => [] end.

Definition route_afterHandle (w : World) (entry : MainHandler) : list Callback :=
  match mh_hooks entry with Some h => deref w (rh_afterHandle h) | None => [] end.

(** Two [beforeHandle] hooks, the second answering, and an [afterHandle]
    hook replacing the answer. *)
Definition short_circuit_app : list Build :=
  [ BOnBeforeHandle (returns VUndefined);
    BOnBeforeHandle (returns (VStr "early"));
    BOnAfterHandle (returns (VStr "after"));
    BRoute "GET" "/" (returns (VStr "handler")) None ].

(** [beforeHandle] hooks that all pass. *)
Definition pass_through_app : list Build :=
  [ BOnBeforeHandle (returns VUndefined);
    BOnBeforeHandle (returns VNull);
    BRoute "GET" "/" (returns (VStr "handler")) None ].

Definition short_circuit_built : App := Eval vm_compute in build short_circuit_app.
Definition pass_through_built : App := Eval vm_compute in build pass_through_app.

(** The run at the start of the [catch] block, after
    [if (!set.status || set.status < 300) set.status = 500]. *)
Definition failed (r : Run) : Run :=
  {| u := {| ctx := with_set (failed_status (c_set (ctx (u r)))) (ctx (u r));
             store := store (u r) |};
     handleErrors := handleErrors r; calls := calls r |}.

(** The route-level error hooks of a run: the array [handleErrors] points
    to, none while it is [undefined]. *)
Definition route_errors (w : World) (r : Run) : list Callback :=
  match handleErrors r with Some a => deref w a | None => [] end.

(** An error hook that answers with the error code. *)
Definition answer_code : Callback :=
  fun arg s =>
    (Return (match arg with
             | VObj fields => default VUndefined (assoc "code" fields)
             | _ => VUndefined
             end), s).

(** A route with an error hook of its own that declines, under a global
    error hook that answers; the handler throws. *)
Definition throwing : Callback := fun _ s => (Raise (mkError "boom"), s).

Definition error_route_hook : LocalHook :=
  {| h_schema := None; h_transform := None; h_beforeHandle := None; h_parse := None;
     h_afterHandle := None; h_error := Some (One (returns VUndefined)) |}.

Definition recovering_app : list Build :=
  [ BRoute "GET" "/" throwing (Some error_route_hook);
    BOnError answer_code ].

Definition recovering_built : App := Eval vm_compute in build recovering_app.

(** Two runs that differ at most in the [body], [params] and [query] of
    the context. *)
Definition run_eqv (r1 r2 : Run) : Prop :=
  c_request (ctx (u r1)) = c_request (ctx (u r2))
  /\ c_set (ctx (u r1)) = c_set (ctx (u r2))
  /\ c_decor (ctx (u r1)) = c_decor (ctx (u r2))
  /\ store (u r1) = store (u r2)
  /\ handleErrors r1 = handleErrors r2
  /\ calls r1 = calls r2.

(** A context as a request with a query, a body and route parameters
    leaves it. *)
Definition used_context : Context :=
  {| c_request := None; c_set := {| set_status := 404; set_headers := [("x", "y")] |};
     c_body := VStr "old body"; c_params := VObj [("id", VStr "7")];
     c_query := VObj [("token", VStr "secret")]; c_decor := ∅ |}.

(** Two outcomes with the same result and such runs. *)
Definition eqv_out {A} (o1 o2 : (A + Error) * Run) : Prop :=
  fst o1 = fst o2 /\ run_eqv (snd o1) (snd o2).

(** A callback that neither reads nor writes the [body], [params] and
    [query] of the context: with other values there it has the same
    outcome and effect, and leaves those values where they are. *)
Definition ignores_payload (f : Callback) : Prop :=
  forall arg s body params query,
    f arg {| ctx := with_payload body params query (ctx s); store := store s |}
    = (fst (f arg s),
       {| ctx := with_payload body params query (ctx (snd (f arg s)));
          store := store (snd (f arg s)) |}).

(** The run after [context.body = body; context.params = ...;
    context.query = ...]. *)
Definition payload_run (body params : value) (search : option (list (string * string)))
    (r : Run) : Run :=
  {| u := {| ctx := with_payload body params
                      (match search with Some pairs => parseQuery pairs | None => VObj [] end)
                      (ctx (u r));
             store := store (u r) |};
     handleErrors := handleErrors r; calls := calls r |}.

(** [handle] from the transform hooks on. *)
Definition after_payload (w : World) (request : Request) (entry : MainHandler) (body : value)
  : Exec Response :=
  (match mh_hooks entry with
   | Some h => transform_hooks (deref w (rh_transform h)) 0
   | None => ret tt
   end ;;;
   validate (mh_hooks entry) (mh_validator entry) request body) ;;;
  from_beforeHandle w entry.

(** The end of [handle]: the [catch] block for a raised error. *)
Definition finish (this : Elysia) (w : World) (o : (Response + Error) * Run)
  : (Response + Error) * Run :=
  match o with
  | (inl response, r) => (inl response, r)
  | (inr error, r) => recover this w error r
  end.

Definition echo_built : App := Eval vm_compute in build echo_route.

(** ** The arrays an application can reach *)

Definition event_locs (e : LifeCycleStore) : list loc :=
  [ev_start e; ev_request e; ev_parse e; ev_transform e;
   ev_beforeHandle e; ev_afterHandle e; ev_error e; ev_stop e].

Definition hook_locs (h : RegisteredHook) : list loc :=
  [rh_transform h; rh_beforeHandle h; rh_parse h; rh_afterHandle h; rh_error h].

Definition entry_locs (m : MainHandler) : list loc :=
  match mh_hooks m with Some h => hook_locs h | None => [] end.

Definition router_locs (this : Elysia) : list loc :=
  router this ≫= (fun e => entry_locs (snd e)).

(** The second world has the store and the arrays of the first, and new
    arrays after them. *)
Definition extends (w w' : World) : Prop :=
  w_store w' = w_store w /\ exists extra, arrays w' = arrays w ++ extra.

(** The arrays of [event] exist and are distinct, and the arrays stored
    with the routes exist and are none of them. *)
Definition wf (app : App) : Prop :=
  Forall (fun l => l < length (arrays (snd app))) (event_locs (event (fst app)))
  /\ NoDup (event_locs (event (fst app)))
  /\ Forall (fun l => l < length (arrays (snd app)) /\ l ∉ event_locs (event (fst app)))
            (router_locs (fst app)).

(** The instance was created when the heap had [bound] arrays. *)
Definition above (bound : nat) (app : App) : Prop :=
  bound <= length (arrays (snd app))
  /\ Forall (fun l => bound <= l) (event_locs (event (fst app))).

(** A step of building: the heap does not shrink, and an instance
    created at [bound] stays so and leaves the arrays below [bound] as
    they are. *)
Definition frame_ok (app app' : App) : Prop :=
  length (arrays (snd app)) <= length (arrays (snd app'))
  /\ forall bound, above bound app ->
       above bound app'
       /\ forall l, l < bound -> arrays (snd app') !! l = arrays (snd app) !! l.


(** Induction over builder programs, through the bodies of [group] and
    [guard]. *)
Section BuildInduction.
Context (P : Build -> Prop).
Hypothesis Hroute : forall method path handler hook, P (BRoute method path handler hook).
Hypothesis Hon : forall type handler, P (BOn type handler).
Hypothesis HonStart : forall handler, P (BOnStart handler).
Hypothesis HonRequest : forall handler, P (BOnRequest handler).
Hypothesis HonParse : forall parser, P (BOnParse parser).
Hypothesis HonTransform : forall handler, P (BOnTransform handler).
Hypothesis HonBeforeHandle : forall handler, P (BOnBeforeHandle handler).
Hypothesis HonAfterHandle : forall handler, P (BOnAfterHandle handler).
Hypothesis HonError : forall handler, P (BOnError handler).
Hypothesis HonStop : forall handler, P (BOnStop handler).
Hypothesis Hstate : forall name v, P (BState name v).
Hypothesis HsetModel : forall record, P (BSetModel record).
Hypothesis Hgroup : forall prefix run, Forall P run -> P (BGroup prefix run).
Hypothesis Hguard : forall hook run, Forall P run -> P (BGuard hook run).

Fixpoint Build_nested_ind (b : Build) : P b :=
  match b with
  | BRoute method path handler hook => Hroute method path handler hook
  | BOn type handler => Hon type handler
  | BOnStart handler => HonStart handler
  | BOnRequest handler => HonRequest handler
  | BOnParse parser => HonParse parser
  | BOnTransform handler => HonTransform handler
  | BOnBeforeHandle handler => HonBeforeHandle handler
  | BOnAfterHandle handler => HonAfterHandle handler
  | BOnError handler => HonError handler
  | BOnStop handler => HonStop handler
  | BState name v => Hstate name v
  | BSetModel record => HsetModel record
  | BGroup prefix run =>
      Hgroup prefix run
        ((fix all (l : list Build) : Forall P l :=
            match l with
            | [] => Forall_nil P
            | c :: l' => Forall_cons P c l' (Build_nested_ind c) (all l')
            end) run)
  | BGuard hook run =>
      Hguard hook run
        ((fix all (l : list Build) : Forall P l :=
            match l with
            | [] => Forall_nil P
            | c :: l' => Forall_cons P c l' (Build_nested_ind c) (all l')
            end) run)
  end.

End BuildInduction.


(** A step that registers a route keeps [event] and only adds arrays. *)
Definition adds_route (app app' : App) : Prop :=
  event (fst app') = event (fst app) /\ extends (snd app) (snd app').

(** The checks [handle] makes for a route with validators, in its order:
    kind, compiled check, value checked. *)
Definition validator_checks (v : Validator) (c : Context) (body : value)
  : list (string * option TypeCheck * value) :=
  [("params", v_params v, c_params c);
   ("query", v_query v, c_query c);
   ("body", v_body v, body)].

Definition check_fails (k : string * option TypeCheck * value) : bool :=
  match k with
  | (_, Some c, x) => negb (run_check c x)
  | (_, None, _) => false
  end.

(** ** Further behaviour of callbacks and runs *)

(** The parsers run in order from state [s], none throws, and each
    returns [undefined]; [s'] is the state they leave. *)
Inductive all_decline (arg : value) : list Callback -> UState -> UState -> Prop :=
| all_decline_nil s : all_decline arg [] s s
| all_decline_cons f fs s s1 s2 :
    f arg s = (Return VUndefined, s1) ->
    all_decline arg fs s1 s2 -> all_decline arg (f :: fs) s s2.

(** The state at the start of the [catch] block. *)
Definition fail_state (s : UState) : UState :=
  {| ctx := with_set (failed_status (c_set (ctx s))) (ctx s); store := store s |}.

(** The request carries no body [handle] would read: the method is
    [GET], or there is no [content-type] header, or it is empty. *)
Definition no_payload (request : Request) : Prop :=
  r_method request = "GET"
  \/ headers_get "content-type" request = None
  \/ headers_get "content-type" request = Some "".

Definition is_parse (c : Call) : Prop := exists i, c = CParse i.
Definition is_global_error (c : Call) : Prop := exists i, c = CGlobalError i.

(** Three [afterHandle] hooks, the second answering. *)
Definition after_answer_app : list Build :=
  [ BOnAfterHandle (returns VUndefined);
    BOnAfterHandle (returns (VStr "after"));
    BOnAfterHandle (returns (VStr "later"));
    BRoute "GET" "/" (returns (VStr "handler")) None ].

Definition after_answer_built : App := Eval vm_compute in build after_answer_app.

(** ** The order of the calls of one request *)

(** The stage of the pipeline a call belongs to, and its position in the
    array of its stage. *)
Definition stage (c : Call) : nat :=
  match c with
  | CRequest _ => 0
  | CParse _ => 1
  | CTransform _ => 2
  | CBeforeHandle _ => 3
  | CHandler => 4
  | CAfterHandle _ => 5
  | CError _ => 6
  | CGlobalError _ => 7
  end.

Definition index (c : Call) : nat :=
  match c with
  | CRequest i | CParse i | CTransform i | CBeforeHandle i
  | CAfterHandle i | CError i | CGlobalError i => i
  | CHandler => 0
  end.

(** An earlier stage, or the same stage and an earlier hook. *)
Definition before (c d : Call) : Prop :=
  stage c < stage d \/ (stage c = stage d /\ index c < index d).

Definition in_stages (lo hi : nat) (c : Call) : Prop := lo <= stage c <= hi.

(** The calls [tag i], [tag (i + 1)], ... of one array. *)
Definition from_index (tag : nat -> Call) (i : nat) (c : Call) : Prop :=
  exists j, i <= j /\ c = tag j.

(** [tag] numbers the hooks of one stage. *)
Definition indexed (tag : nat -> Call) : Prop :=
  forall j, stage (tag j) = stage (tag 0) /\ index (tag j) = j.

Definition same_calls (r r' : Run) : Prop := calls r' = calls r.

(** A computation that calls nothing. *)
Definition quiet {A} (m : Exec A) : Prop := steps same_calls m.

(** The second run has the calls of the first and then calls in
    pipeline order that all satisfy [P]. *)
Definition adds_in_order (P : Call -> Prop) (r r' : Run) : Prop :=
  exists new, calls r' = calls r ++ new /\ StronglySorted before new /\ Forall P new.

Definition emits (P : Call -> Prop) {A} (m : Exec A) : Prop := steps (adds_in_order P) m.

(** ** Registered routes *)

(** An array stored with a route, chosen by [sel]; a route stored
    without hooks has none. *)
Definition route_hooks (sel : RegisteredHook -> loc) (w : World) (entry : MainHandler)
  : list Callback :=
  match mh_hooks entry with Some h => deref w (sel h) | None => [] end.

(** A hook argument that is an array of the heap names an existing one. *)
Definition arg_in_heap (w : World) (a : option HookArg) : Prop :=
  match a with Some (Ref l) => l < length (arrays w) | _ => True end.

Definition hook_in_heap (w : World) (h : LocalHook) : Prop :=
  arg_in_heap w (h_transform h) /\ arg_in_heap w (h_beforeHandle h)
  /\ arg_in_heap w (h_parse h) /\ arg_in_heap w (h_afterHandle h)
  /\ arg_in_heap w (h_error h).

(** [path.startsWith('/') ? path : `/${path}`] *)
Definition with_slash (path : string) : string :=
  if starts_with_slash path then path else ("/" ++ path)%string.

(** What [group] and [guard] read of a route of the child. *)
Definition listed (r : InternalRoute) : string * string * Callback :=
  (ir_method r, ir_path r, ir_handler r).

(** The path [group] registers a route of the child under. *)
Definition prefixed (prefix : string) (r : InternalRoute) : string :=
  if String.eqb (ir_path r) "/" then prefix else (prefix ++ ir_path r)%string.

(** A schema reference that resolves to no validator: absent, or the
    name of a model that is not registered. *)
Definition unresolved (models : gmap string TSchema) (s : option SchemaRef) : Prop :=
  match s with
  | None => True
  | Some (Named name) => models !! name = None
  | Some (Inline _) => False
  end.

Definition unresolved_response (models : gmap string TSchema) (s : option ResponseRef) : Prop :=
  match s with
  | None => True
  | Some (RNamed name) => models !! name = None
  | Some _ => False
  end.

(** ** A later write to an array of the heap *)

(** The world with the array at [a] replaced by [fs]. *)
Definition poke (a : loc) (fs : list Callback) (w : World) : World :=
  {| arrays := <[a := fs]> (arrays w); w_store := w_store w |}.

(** The arrays of the routes an instance lists in [routes]. *)
Definition routes_locs (this : Elysia) : list loc :=
  routes this ≫= (fun r => hook_locs (ir_hooks r)).

(** The arrays listed with the routes exist and are none of [event]. *)
Definition routes_wf (app : App) : Prop :=
  Forall (fun l => l < length (arrays (snd app)) /\ l ∉ event_locs (event (fst app)))
         (routes_locs (fst app)).





(** A hook object of the caller: its arrays are array literals. *)
Definition plain_arg (x : option HookArg) : bool :=
  match x with Some (Ref _) => false | _ => true end.

Definition plain_hook (h : LocalHook) : bool :=
  plain_arg (h_transform h) && plain_arg (h_beforeHandle h) && plain_arg (h_parse h)
  && plain_arg (h_afterHandle h) && plain_arg (h_error h).






(** ** Validation *)

(** A check that is absent or accepts the value, and one that rejects
    it. *)
Definition passes (validator : option TypeCheck) (x : value) : Prop :=
  match validator with Some c => run_check c x = true | None => True end.

Definition rejects (validator : option TypeCheck) (x : value) : Prop :=
  match validator with Some c => run_check c x = false | None => False end.

(** The [ValidationError] a failed check of a kind raises. *)
Definition rejection (type : string) (validator : option TypeCheck) (x : value) : Error :=
  match validator with
  | Some c => createValidationError type c x
  | None => mkError ""
  end.

(** The run [r] after [context.body = b]. *)
Definition assign_body (b : value) (r : Run) : Run :=
  {| u := {| ctx := {| c_request := c_request (ctx (u r)); c_set := c_set (ctx (u r));
                       c_body := b; c_params := c_params (ctx (u r));
                       c_query := c_query (ctx (u r)); c_decor := c_decor (ctx (u r)) |};
             store := store (u r) |};
     handleErrors := handleErrors r; calls := calls r |}.

(** ** The hooks of the routes of a group or guard *)

(** The four arrays of a stored route that [handle] runs. *)
Inductive HookKind := KTransform | KBeforeHandle | KAfterHandle | KError.

Definition stored (k : HookKind) (h : RegisteredHook) : loc :=
  match k with
  | KTransform => rh_transform h
  | KBeforeHandle => rh_beforeHandle h
  | KAfterHandle => rh_afterHandle h
  | KError => rh_error h
  end.

Definition given (k : HookKind) (h : LocalHook) : option HookArg :=
  match k with
  | KTransform => h_transform h
  | KBeforeHandle => h_beforeHandle h
  | KAfterHandle => h_afterHandle h
  | KError => h_error h
  end.

Definition event_of (k : HookKind) : LifeCycleEvent :=
  match k with
  | KTransform => EvTransform
  | KBeforeHandle => EvBeforeHandle
  | KAfterHandle => EvAfterHandle
  | KError => EvError
  end.

(** The step of the [forEach] of [group] and [guard]: the route [r] of
    the child is registered with [mergeHook(first r, second r)] under
    [place r]. *)
Definition place_route (first : InternalRoute -> LocalHook)
    (second : InternalRoute -> option LocalHook) (place : InternalRoute -> string)
    (app : App) (r : InternalRoute) : App :=
  let '(this, w) := app in
  let '(hooks, w) := mergeHook (first r) (second r) w in
  _addHandler (ir_method r) (place r) (ir_handler r) (Some (registered_as_local hooks)) (this, w).

(** What is known of the routes registered by the [forEach] from
    [(this, w)] to [app']. *)
Definition placed (first : InternalRoute -> LocalHook)
    (second : InternalRoute -> option LocalHook) (place : InternalRoute -> string)
    (rs : list InternalRoute) (this : Elysia) (w : World) (app' : App) : Prop :=
  event (fst app') = event this /\ extends w (snd app')
  /\ exists entries,
       router (fst app') = router this ++ entries
       /\ Forall2 (fun r e =>
                     fst e = (ir_method r, with_slash (place r))
                     /\ mh_handle (snd e) = ir_handler r
                     /\ Forall (fun l => l < length (arrays (snd app'))) (entry_locs (snd e))
                     /\ (hook_in_heap w (first r) ->
                         (forall h, second r = Some h -> hook_in_heap w h) ->
                         forall k,
                           route_hooks (stored k) (snd app') (snd e)
                           = deref w (event_array (event_of k) (event this))
                             ++ (as_array w (given k (first r))
                                 ++ as_array w (second r ≫= given k))))
                  rs entries.

(** Two registries hold the same names. *)
Definition same_names (d d' : gmap string TSchema) : Prop :=
  forall k, is_Some (d' !! k) <-> is_Some (d !! k).

(** ** [mergeDeep] (utils.ts)

    Plain data: what an object literal or [JSON.parse] can hold, as in
    the [detail] metadata that [mergeHook] merges.  An object is a plain
    object (its prototype is [Object.prototype]) and lists each of its
    own properties once. *)
Inductive Plain :=
| PUndefined
| PNull
| PBool (b : bool)
| PNum (n : Z)
| PStr (s : string)
| PArr (items : list Plain)
| PObj (fields : list (string * Plain)).

(** [item && typeof item === 'object' && !Array.isArray(item)] *)
Definition isObject (item : Plain) : bool :=
  match item with PObj _ => true | _ => false end.

Fixpoint set_field (k : string) (v : Plain) (fields : list (string * Plain))
  : list (string * Plain) :=
  match fields with
  | [] => [(k, v)]
  | (k', old) :: rest =>
      if String.eqb k k' then (k', v) :: rest else (k', old) :: set_field k v rest
  end.

(** [Object.assign(output, { [key]: v })] and [output[key] = v]: an
    assignment.  Assigning [__proto__] runs the setter of
    [Object.prototype] and adds no property. *)
Definition assign_field (k : string) (v : Plain) (output : list (string * Plain))
  : list (string * Plain) :=
  if String.eqb k "__proto__" then output else set_field k v output.

(** [String(i)] *)
Definition index_key (i : nat) : string := NilZero.string_of_uint (Nat.to_uint i).

(** The own enumerable properties of a value: the fields of an object,
    the items of an array and the characters of a string under their
    indices, none for the other primitives. *)
Definition own_properties (v : Plain) : list (string * Plain) :=
  match v with
  | PObj fields => fields
  | PArr items => imap (fun i x => (index_key i, x)) items
  | PStr s => imap (fun i c => (index_key i, PStr (String c ""))) (list_ascii_of_string s)
  | _ => []
  end.

(** [Object.assign({}, target)] *)
Definition assign_all (v : Plain) : list (string * Plain) :=
  fold_left (fun output kv => assign_field (fst kv) (snd kv) output) (own_properties v) [].

(** [key in target] for a plain object. *)
Definition has_key (k : string) (fields : list (string * Plain)) : bool :=
  bool_decide (is_Some (assoc k fields)) || bool_decide (k ∈ object_prototype_keys).

(** One round of the [forEach] over the keys of [source]; [merged t] is
    [mergeDeep(t, source[key])].  A key that [target] only inherits holds
    a function there, and merging into a function gives [{}]. *)
Definition merge_key (target : list (string * Plain)) (key : string) (s : Plain)
    (merged : Plain -> Plain) (output : list (string * Plain)) : list (string * Plain) :=
  if isObject s then
    if negb (has_key key target) then assign_field key s output
    else assign_field key (match assoc key target with
                           | Some t => merged t
                           | None => PObj []
                           end) output
  else assign_field key s output.

Fixpoint mergeDeep (target source : Plain) {struct source} : Plain :=
  let output := assign_all target in
  match target, source with
  | PObj tfields, PObj sfields =>
      PObj (fold_left (fun output kv =>
                         merge_key tfields (fst kv) (snd kv)
                                   (fun t => mergeDeep t (snd kv)) output)
                      sfields output)
  | _, _ => PObj output
  end.

(** The own property [k] of a value. *)
Definition own (v : Plain) (k : string) : option Plain :=
  match v with PObj fields => assoc k fields | _ => None end.

(** The keys of an object, once each. *)
Definition distinct_keys (fields : list (string * Plain)) : Prop := NoDup (fst <$> fields).

(** No key is a property name of [Object.prototype]. *)
Definition plain_keys (fields : list (string * Plain)) : Prop :=
  Forall (fun kv => fst kv ∉ object_prototype_keys) fields.

Definition primitive (v : Plain) : Prop :=
  match v with PUndefined | PNull | PBool _ | PNum _ => True | _ => False end.

(** What [mergeDeep] stores under a key of [source] holding [s]. *)
Definition merged_value (target : list (string * Plain)) (key : string) (s : Plain) : Plain :=
  if isObject s && has_key key target then
    match assoc key target with
    | Some t => mergeDeep t s
    | None => PObj []
    end
  else s.

(** Objects that list each key once and have no key that is a property
    name of [Object.prototype], at every depth. *)
Fixpoint proper (v : Plain) : Prop :=
  match v with
  | PObj fields =>
      distinct_keys fields /\ plain_keys fields
      /\ (fix all (l : list (string * Plain)) : Prop :=
            match l with
            | [] => True
            | kv :: rest => proper (snd kv) /\ all rest
            end) fields
  | _ => True
  end.

(** Induction over plain data, through the fields of objects. *)
Section PlainInduction.
Context (P : Plain -> Prop).
Hypothesis Hundefined : P PUndefined.
Hypothesis Hnull : P PNull.
Hypothesis Hbool : forall b, P (PBool b).
Hypothesis Hnum : forall n, P (PNum n).
Hypothesis Hstr : forall s, P (PStr s).
Hypothesis Harr : forall items, P (PArr items).
Hypothesis Hobj : forall fields, Forall (fun kv => P (snd kv)) fields -> P (PObj fields).

Fixpoint Plain_nested_ind (v : Plain) : P v :=
  match v with
  | PUndefined => Hundefined
  | PNull => Hnull
  | PBool b => Hbool b
  | PNum n => Hnum n
  | PStr s => Hstr s
  | PArr items => Harr items
  | PObj fields =>
      Hobj fields
        ((fix all (l : list (string * Plain)) : Forall (fun kv => P (snd kv)) l :=
            match l with
            | [] => Forall_nil _
            | kv :: rest => Forall_cons _ kv rest (Plain_nested_ind (snd kv)) (all rest)
            end) fields)
  end.

End PlainInduction.

(** ** [mapPathnameAndQueryRegEx] (utils.ts)

    [/:\/\/[^/]+([^#?]+)(?:\?([^#]+))?/], as [request.url.match] runs it:
    the leftmost match, every repetition as long as it can be. *)

(** [c] is none of [chars]: the class [[^...]]. *)
Definition is_not (chars : list ascii) (c : ascii) : bool :=
  negb (existsb (Ascii.eqb c) chars).

(** The longest prefix of characters of a class, and what follows it. *)
Fixpoint span (p : ascii -> bool) (s : string) : string * string :=
  match s with
  | EmptyString => (EmptyString, EmptyString)
  | String c rest =>
      if p c then let '(a, b) := span p rest in (String c a, b)
      else (EmptyString, s)
  end.

Fixpoint skip (n : nat) (s : string) : string :=
  match n, s with
  | S m, String _ rest => skip m rest
  | _, _ => s
  end.

Fixpoint all_chars (p : ascii -> bool) (s : string) : bool :=
  match s with
  | EmptyString => true
  | String c rest => p c && all_chars p rest
  end.

(** [(?:\?([^#]+))?]: the second group, when it takes part. *)
Definition query_group (s : string) : option string :=
  match s with
  | String "?" rest =>
      let query := fst (span (is_not ["#"%char]) rest) in
      if String.eqb query "" then None else Some query
  | _ => None
  end.

(** [([^#?]+)(?:\?([^#]+))?] at the start of [s]. *)
Definition path_groups (s : string) : option (string * option string) :=
  let '(path, rest) := span (is_not ["#"%char; "?"%char]) s in
  if String.eqb path "" then None else Some (path, query_group rest).

(** [[^/]+] gives characters back until the groups match: [n] is the
    number of characters it keeps. *)
Fixpoint host_then_groups (n : nat) (s : string) : option (string * option string) :=
  match n with
  | 0 => None
  | S m =>
      match path_groups (skip n s) with
      | Some groups => Some groups
      | None => host_then_groups m s
      end
  end.

(** The expression after [://]. *)
Definition after_scheme (s : string) : option (string * option string) :=
  host_then_groups (String.length (fst (span (is_not ["/"%char]) s))) s.

(** [url.match(mapPathnameAndQueryRegEx)]: the groups 1 and 2 of the
    leftmost match. *)
Fixpoint fracture (url : string) : option (string * option string) :=
  match url with
  | EmptyString => None
  | String c rest =>
      match match url with
            | String ":" (String "/" (String "/" tail)) => after_scheme tail
            | _ => None
            end with
      | Some groups => Some groups
      | None => fracture rest
      end
  end.

(** A URL put together from its parts. *)
Definition url_of (scheme host path : string) (query fragment : option string) : string :=
  (scheme ++ "://" ++ host ++ path
   ++ match query with Some q => "?" ++ q | None => "" end
   ++ match fragment with Some f => "#" ++ f | None => "" end)%string.

(** * Theorems *)

(** ** Registry and store: first writer wins *)

Lemma setModel_fold_union (l : list (string * TSchema)) (d : gmap string TSchema) :
  fold_left (fun d kv => if in_defs (fst kv) d then d else <[fst kv := snd kv]> d) l d
  = d ∪ list_to_map l.
Proof.
  revert d. induction l as [|[k v] l IH]; intros d; simpl.
  - by rewrite (right_id_L ∅ (∪)).
  - rewrite IH. unfold in_defs. case_bool_decide as Hk.
    + destruct Hk as [x Hx]. apply map_eq. intros j.
      rewrite !lookup_union. destruct (decide (k = j)) as [->|Hne].
      * rewrite Hx. by destruct (list_to_map l !! j), (<[j:=v]> (list_to_map l) !! j).
      * by rewrite lookup_insert_ne.
    + apply map_eq. intros j. rewrite !lookup_union.
      destruct (decide (k = j)) as [->|Hne].
      * rewrite !lookup_insert_eq.
        assert (d !! j = None) as ->.
        { destruct (d !! j) eqn:E; [|done]. exfalso. apply Hk. eauto. }
        simpl. by destruct (list_to_map l !! j).
      * by rewrite !lookup_insert_ne.
Qed.

Lemma setModel_defs (record : gmap string TSchema) (app : App) :
  defs (fst (setModel record app)) = defs (fst app) ∪ record.
Proof.
  destruct app as [this w]. simpl. rewrite setModel_fold_union.
  by rewrite list_to_map_to_list.
Qed.

Lemma setModel_world (record : gmap string TSchema) (app : App) :
  snd (setModel record app) = snd app.
Proof. by destruct app. Qed.

Lemma in_store_insert (name : string) (v : value) (s : gmap string value) :
  in_store name (<[name := v]> s) = true.
Proof.
  unfold in_store. rewrite lookup_insert_eq.
  rewrite bool_decide_eq_true_2; [done | eauto].
Qed.

Lemma state_twice (name : string) (v1 v2 : value) (app : App) :
  state name v2 (state name v1 app) = state name v1 app.
Proof.
  destruct app as [this w]. unfold state at 2.
  destruct (in_store name (w_store w)) eqn:E.
  - unfold state. by rewrite E.
  - unfold state. cbn [with_store w_store]. by rewrite in_store_insert, E.
Qed.

Lemma state_inherited (name : string) (v : value) (app : App) :
  name ∈ object_prototype_keys -> state name v app = app.
Proof.
  intros Hin. destruct app as [this w]. unfold state, in_store.
  by rewrite (bool_decide_eq_true_2 _ Hin), orb_true_r.
Qed.

Lemma state_present (name : string) (v x : value) (app : App) :
  w_store (snd app) !! name = Some x -> state name v app = app.
Proof.
  intros Hx. destruct app as [this w]. cbn [snd] in Hx. unfold state, in_store.
  rewrite Hx. rewrite bool_decide_eq_true_2; [done | eauto].
Qed.

(** C9, amended.  [setModel] keeps, for every name, the first schema
    registered under it (one already in the registry, else the one of the
    first call, else the one of the second), and registering a record
    twice is registering it once.  [state] writes only when
    [name in this.store] is false: a second [state] call for a name
    changes nothing; a name that is neither a key of the store nor
    inherited from [Object.prototype] keeps the value of the first call;
    a key of the store keeps its value; and for a name inherited from
    [Object.prototype] no call writes at all. *)
Theorem registration_first_writer_wins :
  forall (app : App) (r1 r2 : gmap string TSchema) (name : string) (v1 v2 : value),
    (forall k, defs (fst (setModel r2 (setModel r1 app))) !! k
               = first_wins (first_wins (defs (fst app) !! k) (r1 !! k)) (r2 !! k))
    /\ setModel r1 (setModel r1 app) = setModel r1 app
    /\ state name v2 (state name v1 app) = state name v1 app
    /\ (w_store (snd app) !! name = None -> name ∉ object_prototype_keys ->
        w_store (snd (state name v2 (state name v1 app))) !! name = Some v1)
    /\ (forall x, w_store (snd app) !! name = Some x ->
                  w_store (snd (state name v2 (state name v1 app))) !! name = Some x)
    /\ (name ∈ object_prototype_keys ->
        state name v1 app = app /\ state name v2 (state name v1 app) = app).
Proof.
  intros app r1 r2 name v1 v2. repeat split.
  - intros k. rewrite !setModel_defs, !lookup_union.
    by destruct (defs (fst app) !! k), (r1 !! k), (r2 !! k).
  - destruct app as [this w]. unfold setModel. simpl.
    rewrite !setModel_fold_union, !list_to_map_to_list.
    unfold with_defs. simpl. do 2 f_equal.
    apply map_eq. intros k. rewrite !lookup_union.
    by destruct (defs this !! k), (r1 !! k).
  - apply state_twice.
  - intros Hnone Hfresh. rewrite state_twice. destruct app as [this w]. simpl in *.
    unfold state, in_store. rewrite Hnone.
    rewrite bool_decide_eq_false_2 by (by intros [x Hx]).
    rewrite (bool_decide_eq_false_2 _ Hfresh). simpl. apply lookup_insert_eq.
  - intros x Hx. by rewrite state_twice, (state_present name v1 x app Hx).
  - by apply state_inherited.
  - rewrite state_twice. by apply state_inherited.
Qed.

Lemma registration_first_writer_wins_witness :
  w_store (snd (build [])) !! "counter" = None
  /\ ("counter" ∉ object_prototype_keys)
  /\ w_store (snd (state "counter" (VNum 1) (state "counter" (VNum 0) (build []))))
     !! "counter" = Some (VNum 0).
Proof.
  assert (H1 : w_store (snd (build [])) !! "counter" = None) by reflexivity.
  assert (H2 : "counter" ∉ object_prototype_keys).
  { unfold object_prototype_keys. rewrite !not_elem_of_cons. repeat split; try discriminate.
    apply not_elem_of_nil. }
  split; [exact H1 |]. split; [exact H2 |].
  exact (proj1 (proj2 (proj2 (proj2
    (registration_first_writer_wins (build []) ∅ ∅ "counter" (VNum 0) (VNum 1)))))
    H1 H2).
Defined.

(** C9, as stated, fails for [state]: for a name every object inherits
    from [Object.prototype], [name in this.store] is true from the start,
    so no [state] call for it writes and the first call does not win;
    [setModel], whose registry has no prototype, registers the same
    name. *)
Lemma state_skips_inherited_names :
  w_store (snd (state "toString" (VNum 1) (build []))) !! "toString" = None
  /\ w_store (snd (state "toString" (VNum 2) (state "toString" (VNum 1) (build []))))
     !! "toString" = None
  /\ defs (fst (setModel {["toString" := TString]} (build []))) !! "toString" = Some TString.
Proof. repeat split; vm_compute; reflexivity. Qed.

(** ** Parsers: [onParse] against [on('parse', ...)] *)

Lemma splice_before_last {A} (l : list A) (x y : A) :
  splice_insert (Z.of_nat (length (l ++ [y])) - 1) x (l ++ [y]) = l ++ [x; y].
Proof.
  unfold splice_insert. rewrite length_app. simpl.
  replace (Z.of_nat (length l + 1) - 1)%Z with (Z.of_nat (length l)) by lia.
  destruct (Z.ltb_spec (Z.of_nat (length l)) 0); [lia |].
  rewrite Z.min_l by lia. rewrite Nat2Z.id.
  by rewrite take_app_length, drop_app_length.
Qed.

Lemma splice_into_empty {A} (x : A) :
  splice_insert (Z.of_nat (length (@nil A)) - 1) x [] = [x].
Proof. reflexivity. Qed.

(** C5.  [onParse] does not append: it inserts the parser before the last
    element of the array, so of two parsers registered in turn the second
    runs first and its body is the one the handler sees; [on('parse', ...)],
    documented as doing the same thing, appends and keeps the
    registration order. *)
Theorem onParse_runs_second_parser_first :
  hooks_of EvParse (build [BOnParse first_parser; BOnParse second_parser])
  = [second_parser; first_parser]
  /\ hooks_of EvParse (build [BOn EvParse first_parser; BOn EvParse second_parser])
     = [first_parser; second_parser]
  /\ result_of (handle (build two_parsers) (post_text "/" "x"))
     = inl (mkResponse 200 [] (VStr "second"))
  /\ calls_of (handle (build two_parsers) (post_text "/" "x")) = [CParse 0; CHandler]
  /\ result_of (handle (build two_parsers_by_name) (post_text "/" "x"))
     = inl (mkResponse 200 [] (VStr "first")).
Proof. repeat split; vm_compute; reflexivity. Qed.

(** ** Validators that never run *)

(** C2.  A route declares a header schema requiring header [a]; a request
    without that header is answered 200 by the handler.  The compiled
    header check is stored under the key [header] and rejects the
    request's headers, but [handle] reads [validator.headers], which the
    stored object does not have, so the header check is never run. *)
Theorem header_schema_is_not_checked :
  let app := build header_route in
  let request := get_request "/" None [] in
  result_of (handle app request) = inl (mkResponse 200 [] (VStr "hi"))
  /\ calls_of (handle app request) = [CHandler]
  /\ exists entry v c,
       matched (fst app) request "/" = Some (entry, VObj [])
       /\ mh_validator entry = Some v
       /\ v_header v = Some c
       /\ v_headers v = None
       /\ run_check c (header_record request) = false.
Proof.
  split; [vm_compute; reflexivity |].
  split; [vm_compute; reflexivity |].
  vm_compute. do 3 eexists. repeat split; reflexivity.
Qed.

(** C4.  A route declares the response schema [t.String()].  Whatever its
    handler returns, a value violating the schema such as the number 1
    included, the handler runs and the request then ends with status 500
    and the message of a [TypeError]: [validator.response] is the record
    from status to compiled check, and [handle] calls a [Check] that this
    record does not have.  No [ValidationError] of kind [response] is
    raised. *)
Theorem response_schema_check_is_a_type_error :
  Check TString (VNum 1) = false
  /\ forall result : value,
       result_of (handle (build (response_route result)) (get_request "/" None []))
       = inl (mkResponse 500 [] (VStr "validator.response.Check is not a function"))
       /\ calls_of (handle (build (response_route result)) (get_request "/" None []))
          = [CHandler].
Proof.
  split; [reflexivity |]. intros result. split; vm_compute; reflexivity.
Qed.

(** ** Counterexamples *)


(** C8, as stated, fails: a request hook runs before [handle] overwrites
    [query], so it reads the query of the previous request; the same
    request [GET /] is answered [home] at first and [secret] after a
    request carrying [?token=secret] was handled. *)
Lemma context_is_reused_across_requests :
  let app := build token_app in
  let home := get_request "/" None [] in
  let other := get_request "/" (Some [("token", "secret")]) [] in
  result_of (handle app home) = inl (mkResponse 200 [] (VStr "home"))
  /\ result_of (handle (app_of (handle app other)) home)
     = inl (mkResponse 200 [] (VStr "secret"))
  /\ w_store (snd (app_of (handle app other))) = w_store (snd app).
Proof. repeat split; vm_compute; reflexivity. Qed.

(** The test "delegate onRequest": after [GET /] and [GET /counter] the
    counter reads 2, the hook of the group having run for both. *)
Example delegate_onRequest_test :
  result_of (handle (app_of (handle (build counter_app) (get_request "/" None [])))
                    (get_request "/counter" None []))
  = inl (mkResponse 200 [] (VNum 2)).
Proof. vm_compute. reflexivity. Qed.

(** ** Running the pipeline *)

Lemma bind_inl {A B} (m : Exec A) (k : A -> Exec B) r x r' :
  m r = (inl x, r') -> bind m k r = k x r'.
Proof. unfold bind. by intros ->. Qed.

Lemma bind_inr {A B} (m : Exec A) (k : A -> Exec B) r e r' :
  m r = (inr e, r') -> bind m k r = (inr e, r').
Proof. unfold bind. by intros ->. Qed.

Lemma get_ctx_bind {B} (k : Context -> Exec B) r : bind get_ctx k r = k (ctx (u r)) r.
Proof. reflexivity. Qed.

Lemma handle_of_return this w request response r :
  attempt this w request (start_run this w request) = (inl response, r) ->
  handle (this, w) request
  = (inl response, (with_decorators (ctx (u r)) this, with_store (store (u r)) w), calls r).
Proof. unfold handle. by intros ->. Qed.

Lemma handle_of_raise this w request error r result r' :
  attempt this w request (start_run this w request) = (inr error, r) ->
  recover this w error r = (result, r') ->
  handle (this, w) request
  = (result, (with_decorators (ctx (u r')) this, with_store (store (u r')) w), calls r').
Proof. unfold handle. by intros -> ->. Qed.

Lemma attempt_matched this w request r0 r1 pathname search entry params :
  request_hooks (deref w (ev_request (event this))) 0 r0 = (inl None, r1) ->
  r_url request = Some (pathname, search) ->
  matched this request pathname = Some (entry, params) ->
  attempt this w request r0 = handle_route this w request search entry params r1.
Proof.
  intros Hreq Hurl Hm. unfold attempt. rewrite (bind_inl _ _ _ _ _ Hreq), Hurl.
  unfold matched in Hm. by rewrite Hm.
Qed.

Lemma note_error_hooks_run hooks r : note_error_hooks hooks r = (inl tt, noted hooks r).
Proof. by destruct hooks. Qed.

Lemma validate_rejects_body hooks v request body c r :
  v_body v = Some c -> run_check c body = false ->
  exists error,
    validate hooks (Some v) request body r = (inr error, noted hooks r)
    /\ e_message error = "VALIDATION".
Proof.
  intros Hb Hc. unfold validate.
  fold (note_error_hooks hooks).
  rewrite (bind_inl _ _ _ _ _ (note_error_hooks_run hooks r)).
  unfold check_or_throw, v_headers. unfold bind at 1. cbn [ret].
  unfold bind at 1. cbn [get_ctx].
  destruct (v_params v) as [p|].
  - destruct (run_check p _).
    + unfold bind at 1. cbn [ret]. unfold bind at 1. cbn [get_ctx].
      destruct (v_query v) as [q|].
      * destruct (run_check q _).
        -- unfold bind at 1. cbn [ret]. rewrite Hb, Hc. eexists. split; reflexivity.
        -- unfold bind at 1. cbn [throw]. eexists. split; reflexivity.
      * unfold bind at 1. cbn [ret]. rewrite Hb, Hc. eexists. split; reflexivity.
    + unfold bind at 1. cbn [throw]. eexists. split; reflexivity.
  - unfold bind at 1. cbn [ret]. unfold bind at 1. cbn [get_ctx].
    destruct (v_query v) as [q|].
    * destruct (run_check q _).
      -- unfold bind at 1. cbn [ret]. rewrite Hb, Hc. eexists. split; reflexivity.
      -- unfold bind at 1. cbn [throw]. eexists. split; reflexivity.
    * unfold bind at 1. cbn [ret]. rewrite Hb, Hc. eexists. split; reflexivity.
Qed.

(** What [handle] does for a route with validators: it checks params,
    query and body in this order, the first check that fails raises its
    [ValidationError], and the others are not made.  The header check is
    not among them. *)
Lemma validate_first_failure hooks v request body r :
  validate hooks (Some v) request body r
  = match List.find check_fails (validator_checks v (ctx (u r)) body) with
    | Some (type, Some c, x) => (inr (createValidationError type c x), noted hooks r)
    | _ => (inl tt, noted hooks r)
    end.
Proof.
  unfold validate. fold (note_error_hooks hooks).
  rewrite (bind_inl _ _ _ _ _ (note_error_hooks_run hooks r)).
  unfold check_or_throw, v_headers, validator_checks. cbn [List.find check_fails].
  unfold bind at 1. cbn [ret]. rewrite get_ctx_bind.
  assert (Hc : ctx (u (noted hooks r)) = ctx (u r)) by (by destruct hooks).
  rewrite Hc.
  destruct (v_params v) as [p|]; [destruct (run_check p _) |]; cbn [negb];
    try reflexivity;
    (unfold bind at 1; cbn [ret]; rewrite get_ctx_bind, Hc;
     destruct (v_query v) as [q|]; [destruct (run_check q _) |]; cbn [negb];
     try reflexivity;
     (unfold bind at 1; cbn [ret];
      destruct (v_body v) as [b|]; [destruct (run_check b _) |]; reflexivity)).
Qed.

Lemma nested_guard_route_a :
  exists entry h v,
    hooks_of EvRequest (build nested_guard) = []
    /\ hooks_of EvError (build nested_guard) = []
    /\ matched (fst (build nested_guard)) (get_request "/a" None []) "/a" = Some (entry, VObj [])
    /\ mh_hooks entry = Some h
    /\ mh_validator entry = Some v
    /\ deref (snd (build nested_guard)) (rh_transform h) = []
    /\ deref (snd (build nested_guard)) (rh_error h) = []
    /\ v_header v = None
    /\ v_body v = Some (Compile (TObject [("username", TString)] (Some false))).
Proof. vm_compute. do 3 eexists. repeat split; reflexivity. Qed.

Lemma matched_method this request request' pathname :
  r_method request = r_method request' ->
  matched this request pathname = matched this request' pathname.
Proof. unfold matched. by intros ->. Qed.

(** In the nested guard example as it is written, every GET request to
    [/a] fails validation, whatever its headers and its query: the route
    has a body schema and a GET request has no body.  The [try] block
    raises a [ValidationError], the answer has status 400, and the
    handler of [/a] is not called. *)
Lemma nested_guard_example_rejects_every_get :
  forall request search,
    r_method request = "GET" ->
    r_url request = Some ("/a", search) ->
    (exists error r,
        attempt (fst (build nested_guard)) (snd (build nested_guard)) request
                (start_run (fst (build nested_guard)) (snd (build nested_guard)) request)
        = (inr error, r)
        /\ e_message error = "VALIDATION")
    /\ (exists response,
          result_of (handle (build nested_guard) request) = inl response
          /\ res_status response = 400%Z)
    /\ CHandler ∉ calls_of (handle (build nested_guard) request).
Proof.
  intros request search Hm Hu.
  destruct nested_guard_route_a as (entry & h & v & Hreq & Herr & Hlook & Hh & Hv & Htr & Her & Hhd & Hb).
  unfold hooks_of in *.
  rewrite (matched_method _ _ request) in Hlook by (by rewrite Hm).
  generalize dependent (build nested_guard). intros [this w]. cbn [fst snd event_array].
  intros Hreq Herr Hlook Htr Her.
  set (R := {| u := {| ctx := with_payload VUndefined (VObj [])
                                (match search with
                                 | Some pairs => parseQuery pairs
                                 | None => VObj []
                                 end) (enter request (decorators this));
                        store := w_store w |};
              handleErrors := Some (rh_error h); calls := [] |}).
  assert (Henter : enter_route this w request search entry (VObj []) (start_run this w request)
                   = validate (Some h) (Some v) request VUndefined R).
  { unfold enter_route. rewrite Hh, Hv.
    rewrite (bind_inl _ _ _ _ _ (note_error_hooks_run _ _)).
    unfold read_body. rewrite Hm. cbn [String.eqb Ascii.eqb Bool.eqb].
    unfold bind at 1. cbn [ret]. unfold bind at 1. cbn [get_ctx].
    unfold bind at 1. cbn [set_ctx]. rewrite Htr. cbn [transform_hooks].
    unfold bind at 1. cbn [ret]. reflexivity. }
  destruct (validate_rejects_body (Some h) v request VUndefined _ R Hb eq_refl)
    as (error & Hval & Hmsg).
  assert (Hatt : attempt this w request (start_run this w request) = (inr error, R)).
  { erewrite attempt_matched; [| by rewrite Hreq | done | done].
    unfold handle_route. apply bind_inr. by rewrite Henter, Hval. }
  assert (Hrec : recover this w error R
                 = (inl (default_error_response error (failed_status (c_set (ctx (u R))))),
                    {| u := {| ctx := with_set (failed_status (c_set (ctx (u R)))) (ctx (u R));
                               store := store (u R) |};
                       handleErrors := handleErrors R; calls := calls R |})).
  { unfold recover. unfold bind at 1. cbn [get_ctx]. unfold bind at 1. cbn [set_ctx].
    cbn [handleErrors R]. rewrite Her. cbn [error_hooks].
    unfold bind at 1. cbn [ret]. unfold handleError. rewrite Herr. cbn [global_error_hooks].
    unfold bind at 1. cbn [ret]. reflexivity. }
  rewrite (handle_of_raise _ _ _ _ _ _ _ Hatt Hrec).
  split; [by eauto |]. split.
  - eexists. split; [reflexivity |]. cbn. by rewrite Hmsg.
  - cbn. apply not_elem_of_nil.
Qed.

(** The rejection does not come from the header schema, which the route
    stored for [/a] has lost: a request that carries header [a] and the
    query the outer guard asks for is rejected as well, on its body. *)
Example nested_guard_rejects_request_with_header :
  let request := get_request "/a" (Some [("name", "x")]) [("a", "b")] in
  (exists response,
      result_of (handle (build nested_guard) request) = inl response
      /\ res_status response = 400%Z)
  /\ (exists error r,
         attempt (fst (build nested_guard)) (snd (build nested_guard)) request
                 (start_run (fst (build nested_guard)) (snd (build nested_guard)) request)
         = (inr error, r)
         /\ e_type error = Some "body").
Proof.
  split.
  - eexists. split; [vm_compute; reflexivity | reflexivity].
  - do 2 eexists. split; [vm_compute; reflexivity | reflexivity].
Qed.

Lemma nested_guard_scenario_route_a :
  exists entry v,
    matched (fst (build nested_guard_scenario)) (get_request "/a" None []) "/a"
    = Some (entry, VObj [])
    /\ mh_validator entry = Some v
    /\ v_header v = None
    /\ v_query v = Some (Compile (TObject [("name", TString)] (Some false)))
    /\ v_body v = None /\ v_params v = None /\ v_response v = None.
Proof. vm_compute. do 2 eexists. repeat split; reflexivity. Qed.

(** C1.  The header schema of the inner guard is not enforced.  In the
    scenario of the nested guards, a GET request to [/a] with the query
    the outer guard asks for is answered 200 by the handler of [/a]
    whatever its headers, and so without header [a]; without that query
    it is answered 400 before any callback runs: the validator stored
    for [/a] holds the query check of the outer guard and no header
    check.  In the example as it is written every GET request to [/a] is
    answered 400, with header [a] as without it, because of the body
    schema of the route. *)
Theorem nested_guard_header_schema_is_not_enforced :
  (forall hdrs : list (string * string),
      let request := get_request "/a" (Some [("name", "x")]) hdrs in
      result_of (handle (build nested_guard_scenario) request)
      = inl (mkResponse 200 [] (VStr "A"))
      /\ calls_of (handle (build nested_guard_scenario) request)
         = [CBeforeHandle 0; CHandler])
  /\ (exists response,
         result_of (handle (build nested_guard_scenario) (get_request "/a" None []))
         = inl response
         /\ res_status response = 400%Z
         /\ calls_of (handle (build nested_guard_scenario) (get_request "/a" None [])) = [])
  /\ (exists entry v,
         matched (fst (build nested_guard_scenario)) (get_request "/a" None []) "/a"
         = Some (entry, VObj [])
         /\ mh_validator entry = Some v
         /\ v_header v = None /\ v_headers v = None
         /\ v_query v = Some (Compile (TObject [("name", TString)] (Some false))))
  /\ (forall request search,
         r_method request = "GET" ->
         r_url request = Some ("/a", search) ->
         exists response,
           result_of (handle (build nested_guard) request) = inl response
           /\ res_status response = 400%Z
           /\ CHandler ∉ calls_of (handle (build nested_guard) request)).
Proof.
  split; [| split; [| split]].
  - intros hdrs request. subst request. split; vm_compute; reflexivity.
  - eexists. split; [vm_compute; reflexivity |]. split; [reflexivity |].
    vm_compute. reflexivity.
  - destruct nested_guard_scenario_route_a as (entry & v & Hm & Hv & Hh & Hq & _).
    exists entry, v. repeat split; done.
  - intros request search Hm Hu.
    destruct (nested_guard_example_rejects_every_get request search Hm Hu)
      as (_ & (response & Hr & Hs) & Hc).
    exists response. repeat split; done.
Qed.

(** ** Calls made by the stages *)

Lemma advance_advance r s l s' l' :
  advance (advance r s l) s' l' = advance r s' (l ++ l').
Proof. unfold advance. simpl. by rewrite app_assoc. Qed.

Lemma advance_same r : advance r (u r) [] = r.
Proof. destruct r. unfold advance. simpl. by rewrite app_nil_r. Qed.

Lemma invoke_return tag f arg r v s :
  f arg (u r) = (Return v, s) -> invoke tag f arg r = (inl v, advance r s [tag]).
Proof. unfold invoke. by intros ->. Qed.

Lemma invoke_raise tag f arg r e s :
  f arg (u r) = (Raise e, s) -> invoke tag f arg r = (inr e, advance r s [tag]).
Proof. unfold invoke. by intros ->. Qed.

Lemma invoke_error_return tag f error code r v s :
  f (error_arg error code) (error_state (u r)) = (Return v, s) ->
  invoke_error tag f error code r = (inl v, advance r (after_error (u r) s) [tag]).
Proof. unfold invoke_error, error_state. by intros ->. Qed.

Section Steps.
Context (R : Run -> Run -> Prop) (T : Call -> Prop) (L : loc -> Prop).
Hypothesis R_refl : forall r, R r r.
Hypothesis R_trans : forall r1 r2 r3, R r1 r2 -> R r2 r3 -> R r1 r3.
Hypothesis R_call : forall r s tag, T tag -> R r (advance r s [tag]).
Hypothesis R_ctx : forall r c,
  R r {| u := {| ctx := c; store := store (u r) |};
         handleErrors := handleErrors r; calls := calls r |}.
Hypothesis R_note : forall r a,
  L a -> R r {| u := u r; handleErrors := Some a; calls := calls r |}.

Lemma steps_ret {A} (x : A) : steps R (ret x).
Proof. intros r y r' [= <- <-]. apply R_refl. Qed.

Lemma steps_throw {A} (e : Error) : steps R (@throw A e).
Proof. intros r y r' [= <- <-]. apply R_refl. Qed.

Lemma steps_bind {A B} (m : Exec A) (k : A -> Exec B) :
  steps R m -> (forall x, steps R (k x)) -> steps R (bind m k).
Proof.
  intros Hm Hk r y r' H. unfold bind in H.
  destruct (m r) as [[x|e] r1] eqn:E.
  - exact (R_trans _ _ _ (Hm _ _ _ E) (Hk _ _ _ _ H)).
  - injection H as <- <-. exact (Hm _ _ _ E).
Qed.

Lemma steps_get_ctx : steps R get_ctx.
Proof. intros r y r' [= <- <-]. apply R_refl. Qed.

Lemma steps_set_ctx c : steps R (set_ctx c).
Proof. intros r y r' [= <- <-]. apply R_ctx. Qed.

Lemma steps_note hooks :
  (forall h, hooks = Some h -> L (rh_error h)) -> steps R (note_error_hooks hooks).
Proof.
  intros HL r y r' H. rewrite note_error_hooks_run in H. injection H as <- <-.
  destruct hooks as [h|]; simpl; [apply R_note; by apply HL | apply R_refl].
Qed.

Lemma steps_invoke tag f arg : T tag -> steps R (invoke tag f arg).
Proof.
  intros Ht r y r' H. unfold invoke in H. destruct (f arg (u r)) as [o s].
  injection H as <- <-. by apply (R_call r s tag).
Qed.

Lemma steps_invoke_error tag f error code : T tag -> steps R (invoke_error tag f error code).
Proof.
  intros Ht r y r' H. unfold invoke_error in H.
  destruct (f _ _) as [o s]. injection H as <- <-.
  by apply (R_call r (after_error (u r) s) tag).
Qed.

Lemma steps_request_hooks hs i :
  (forall j, T (CRequest j)) -> steps R (request_hooks hs i).
Proof.
  intros HP. revert i. induction hs as [|f hs IH]; intros i; simpl.
  - apply steps_ret.
  - apply steps_bind; [by apply steps_invoke |]. intros v.
    apply steps_bind; [apply steps_get_ctx |]. intros c.
    destruct (mapEarlyResponse v (c_set c)); [apply steps_ret | apply IH].
Qed.




Lemma steps_transform_hooks hs i :
  (forall j, T (CTransform j)) -> steps R (transform_hooks hs i).
Proof.
  intros HP. revert i. induction hs as [|f hs IH]; intros i; simpl.
  - apply steps_ret.
  - apply steps_bind; [by apply steps_invoke |]. intros _. apply IH.
Qed.

Lemma steps_check_or_throw type validator v : steps R (check_or_throw type validator v).
Proof.
  unfold check_or_throw. destruct validator; [| apply steps_ret].
  destruct (run_check _ _); [apply steps_ret | apply steps_throw].
Qed.

Lemma steps_validate hooks validator request body :
  (forall h, hooks = Some h -> L (rh_error h)) ->
  steps R (validate hooks validator request body).
Proof.
  intros HL. unfold validate. destruct validator; [| apply steps_ret].
  apply steps_bind; [by apply (steps_note hooks) |]. intros _.
  apply steps_bind; [apply steps_check_or_throw |]. intros _.
  apply steps_bind; [apply steps_get_ctx |]. intros c.
  apply steps_bind; [apply steps_check_or_throw |]. intros _.
  apply steps_bind; [apply steps_get_ctx |]. intros c'.
  apply steps_bind; [apply steps_check_or_throw |]. intros _.
  apply steps_check_or_throw.
Qed.


Lemma steps_afterHandle_early afters response i :
  (forall j, T (CAfterHandle j)) -> steps R (afterHandle_early afters response i).
Proof.
  intros HP. revert response i. induction afters as [|f hs IH]; intros response i; simpl.
  - apply steps_ret.
  - apply steps_bind; [by apply steps_invoke |]. intros v. apply IH.
Qed.

Lemma steps_afterHandle_hooks afters response i :
  (forall j, T (CAfterHandle j)) -> steps R (afterHandle_hooks afters response i).
Proof.
  intros HP. revert i. induction afters as [|f hs IH]; intros i; simpl.
  - apply steps_ret.
  - apply steps_bind; [by apply steps_invoke |]. intros v.
    apply steps_bind; [apply steps_get_ctx |]. intros c.
    destruct (mapEarlyResponse v (c_set c)); [apply steps_ret | apply IH].
Qed.

Lemma steps_beforeHandle_hooks hs afters i :
  (forall j, T (CBeforeHandle j)) -> (forall j, T (CAfterHandle j)) ->
  steps R (beforeHandle_hooks hs afters i).
Proof.
  intros HB HA. revert i. induction hs as [|f hs IH]; intros i; simpl.
  - apply steps_ret.
  - apply steps_bind; [by apply steps_invoke |]. intros v.
    destruct (nullish v); [apply IH |].
    apply steps_bind; [by apply steps_afterHandle_early |]. intros v'.
    apply steps_bind; [apply steps_get_ctx |]. intros c.
    destruct (mapEarlyResponse v' (c_set c)); [apply steps_ret | apply IH].
Qed.

Lemma steps_validate_response hooks validator response :
  steps R (validate_response hooks validator response).
Proof.
  unfold validate_response. destruct (validator ≫= v_response); [| apply steps_ret].
  unfold response_Check. apply steps_throw.
Qed.

Lemma steps_from_handler w entry :
  T CHandler -> (forall j, T (CAfterHandle j)) -> steps R (from_handler w entry).
Proof.
  intros HH HA. unfold from_handler.
  apply steps_bind; [by apply steps_invoke |]. intros response.
  apply steps_bind; [apply steps_validate_response |]. intros _.
  apply steps_bind.
  - destruct (mh_hooks entry); [by apply steps_afterHandle_hooks | apply steps_ret].
  - intros [result|]; [apply steps_ret |].
    apply steps_bind; [apply steps_get_ctx |]. intros c. apply steps_ret.
Qed.

Lemma steps_error_hooks hs error code i :
  (forall j, T (CError j)) -> steps R (error_hooks hs error code i).
Proof.
  intros HP. revert i. induction hs as [|f hs IH]; intros i; simpl.
  - apply steps_ret.
  - apply steps_bind; [by apply steps_invoke_error |]. intros v.
    apply steps_bind; [apply steps_get_ctx |]. intros c.
    destruct (mapEarlyResponse v (c_set c)); [apply steps_ret | apply IH].
Qed.

Lemma steps_global_error_hooks hs error i :
  (forall j, T (CGlobalError j)) -> steps R (global_error_hooks hs error i).
Proof.
  intros HP. revert i. induction hs as [|f hs IH]; intros i; simpl.
  - apply steps_ret.
  - apply steps_bind; [by apply steps_invoke_error |]. intros v.
    destruct (nullish v); [apply IH |].
    apply steps_bind; [apply steps_get_ctx |]. intros c. apply steps_ret.
Qed.

Lemma steps_recover this w error :
  (forall j, T (CError j)) -> (forall j, T (CGlobalError j)) ->
  steps R (recover this w error).
Proof.
  intros HE HG. unfold recover.
  apply steps_bind; [apply steps_get_ctx |]. intros c.
  apply steps_bind; [apply steps_set_ctx |]. intros _.
  intros r x r' H. cbv beta in H. revert H. apply steps_bind.
  - destruct (handleErrors r); [by apply steps_error_hooks | apply steps_ret].
  - intros [response|]; [apply steps_ret |].
    unfold handleError. apply steps_bind; [by apply steps_global_error_hooks |].
    intros [response|]; [apply steps_ret |].
    apply steps_bind; [apply steps_get_ctx |]. intros c'. apply steps_ret.
Qed.

Lemma steps_from_beforeHandle w entry :
  T CHandler -> (forall j, T (CBeforeHandle j)) -> (forall j, T (CAfterHandle j)) ->
  steps R (from_beforeHandle w entry).
Proof.
  intros HH HB HA. unfold from_beforeHandle. apply steps_bind.
  - destruct (mh_hooks entry); [by apply steps_beforeHandle_hooks | apply steps_ret].
  - intros [result|]; [apply steps_ret | by apply steps_from_handler].
Qed.



End Steps.

(** *** Calls only grow *)

Lemma grows_by_refl P r : grows_by P r r.
Proof. exists []. by rewrite app_nil_r. Qed.

Lemma grows_by_trans P r1 r2 r3 : grows_by P r1 r2 -> grows_by P r2 r3 -> grows_by P r1 r3.
Proof.
  intros (l1 & H1 & F1) (l2 & H2 & F2). exists (l1 ++ l2).
  rewrite H2, H1, app_assoc. split; [done | by apply Forall_app].
Qed.

Lemma grows_by_call P r s tag : P tag -> grows_by P r (advance r s [tag]).
Proof. intros Ht. exists [tag]. split; [done | by constructor]. Qed.

Lemma grows_by_ctx P r c :
  grows_by P r {| u := {| ctx := c; store := store (u r) |};
                  handleErrors := handleErrors r; calls := calls r |}.
Proof. exists []. simpl. by rewrite app_nil_r. Qed.

Lemma grows_by_note P r a :
  True -> grows_by P r {| u := u r; handleErrors := Some a; calls := calls r |}.
Proof. intros _. exists []. simpl. by rewrite app_nil_r. Qed.

Section Grows.
Context (P : Call -> Prop).

Lemma grows_ret {A} (x : A) : grows P (ret x).
Proof. apply (steps_ret _ (grows_by_refl P)). Qed.

Lemma grows_throw {A} (e : Error) : grows P (@throw A e).
Proof. apply (steps_throw _ (grows_by_refl P)). Qed.

Lemma grows_bind {A B} (m : Exec A) (k : A -> Exec B) :
  grows P m -> (forall x, grows P (k x)) -> grows P (bind m k).
Proof. apply (steps_bind _ (grows_by_trans P)). Qed.

Lemma grows_get_ctx : grows P get_ctx.
Proof. apply (steps_get_ctx _ (grows_by_refl P)). Qed.

Lemma grows_request_hooks hs i :
  (forall j, P (CRequest j)) -> grows P (request_hooks hs i).
Proof. apply (steps_request_hooks _ P (grows_by_refl P) (grows_by_trans P) (grows_by_call P)). Qed.





Lemma grows_recover this w error :
  (forall j, P (CError j)) -> (forall j, P (CGlobalError j)) ->
  grows P (recover this w error).
Proof. apply (steps_recover _ P (grows_by_refl P) (grows_by_trans P) (grows_by_call P) (grows_by_ctx P)). Qed.

End Grows.

(** ** Hooks that pass *)

Lemma map_seq_cons {A} (f : nat -> A) i n :
  f i :: (f <$> seq (S i) n) = f <$> seq i (S n).
Proof. reflexivity. Qed.

Lemma request_hooks_pass hs s0 s :
  all_pass VUndefined hs s0 s ->
  forall r i, u r = s0 ->
    request_hooks hs i r = (inl None, advance r s (CRequest <$> seq i (length hs))).
Proof.
  induction 1 as [s|f fs s s1 s2 v Hf Hv _ IH]; intros r i Hr; simpl.
  - subst. by rewrite advance_same.
  - subst s. rewrite (bind_inl _ _ _ _ _ (invoke_return _ _ _ _ _ _ Hf)).
    unfold bind at 1. cbn [get_ctx]. unfold mapEarlyResponse. rewrite Hv.
    rewrite (IH (advance r s1 [CRequest i]) (S i) eq_refl). by rewrite advance_advance.
Qed.

Lemma beforeHandle_hooks_pass pre s0 s :
  all_pass VUndefined pre s0 s ->
  forall rest afters r i, u r = s0 ->
    beforeHandle_hooks (pre ++ rest) afters i r
    = beforeHandle_hooks rest afters (i + length pre)
        (advance r s (CBeforeHandle <$> seq i (length pre))).
Proof.
  induction 1 as [s|f fs s s1 s2 v Hf Hv _ IH]; intros rest afters r i Hr; simpl.
  - subst. by rewrite advance_same, Nat.add_0_r.
  - subst s. rewrite (bind_inl _ _ _ _ _ (invoke_return _ _ _ _ _ _ Hf)). rewrite Hv.
    rewrite (IH rest afters (advance r s1 [CBeforeHandle i]) (S i) eq_refl).
    rewrite advance_advance.
    by replace (S i + length fs) with (i + S (length fs)) by lia.
Qed.


Lemma truthy_not_nullish v : truthy v = true -> nullish v = false.
Proof. by destruct v. Qed.

Lemma afterHandle_early_defined afters :
  forall v i r v' r',
    nullish v = false -> afterHandle_early afters v i r = (inl v', r') -> nullish v' = false.
Proof.
  induction afters as [|f fs IH]; intros v i r v' r' Hv H; simpl in H.
  - by injection H as <- <-.
  - unfold bind in H. destruct (invoke _ f v r) as [[nv|e] r1]; [| done].
    apply IH in H; [done |]. destruct (truthy nv) eqn:E; [by apply truthy_not_nullish | done].
Qed.

Lemma from_beforeHandle_unfold w entry :
  from_beforeHandle w entry
  = (early <- beforeHandle_hooks (route_beforeHandle w entry) (route_afterHandle w entry) 0 ;;
     match early with
     | Some result => ret result
     | None => from_handler w entry
     end).
Proof.
  unfold from_beforeHandle, route_beforeHandle, route_afterHandle.
  by destruct (mh_hooks entry).
Qed.

Lemma attempt_reaches this w request pathname search entry params r1 r2 :
  request_hooks (deref w (ev_request (event this))) 0 (start_run this w request)
  = (inl None, r1) ->
  r_url request = Some (pathname, search) ->
  matched this request pathname = Some (entry, params) ->
  enter_route this w request search entry params r1 = (inl tt, r2) ->
  attempt this w request (start_run this w request) = from_beforeHandle w entry r2.
Proof.
  intros Hreq Hurl Hm Henter. rewrite (attempt_matched _ _ _ _ _ _ _ _ _ Hreq Hurl Hm).
  unfold handle_route. by rewrite (bind_inl _ _ _ _ _ Henter).
Qed.


Lemma handle_calls_grow (P : Call -> Prop) this w request r2 (m : Exec Response) :
  (forall j, P (CError j)) -> (forall j, P (CGlobalError j)) ->
  attempt this w request (start_run this w request) = m r2 ->
  grows P m ->
  exists new, calls_of (handle (this, w) request) = calls r2 ++ new /\ Forall P new.
Proof.
  intros HE HG Hatt Hm. unfold handle. rewrite Hatt.
  destruct (m r2) as [[response|error] r3] eqn:E.
  - exact (Hm _ _ _ E).
  - destruct (Hm _ _ _ E) as (l1 & H1 & F1).
    destruct (recover this w error r3) as [result r4] eqn:E'.
    destruct (grows_recover P _ _ _ HE HG _ _ _ E') as (l2 & H2 & F2).
    exists (l1 ++ l2). unfold calls_of. simpl. rewrite H2, H1, app_assoc.
    split; [done | by apply Forall_app].
Qed.

(** ** The [beforeHandle] short-circuit *)



Lemma short_circuit_built_eq : short_circuit_built = build short_circuit_app.
Proof. vm_compute. reflexivity. Qed.

Lemma pass_through_built_eq : pass_through_built = build pass_through_app.
Proof. vm_compute. reflexivity. Qed.


(** ** Recovery from an error *)

Lemma error_hooks_prefix arg pre s0 s :
  errors_pass arg pre s0 s ->
  forall rest error code r i, arg = error_arg error code -> u r = s0 ->
    error_hooks (pre ++ rest) error code i r
    = error_hooks rest error code (i + length pre)
        (advance r s (CError <$> seq i (length pre))).
Proof.
  induction 1 as [s|f fs s s1 s2 v Hf Hv _ IH]; intros rest error code r i -> Hr; simpl.
  - subst. by rewrite advance_same, Nat.add_0_r.
  - subst s. rewrite (bind_inl _ _ _ _ _ (invoke_error_return _ _ _ _ _ _ _ Hf)).
    unfold bind at 1. cbn [get_ctx]. unfold mapEarlyResponse. rewrite Hv.
    rewrite (IH rest error code (advance r (after_error (u r) s1) [CError i]) (S i)
               eq_refl eq_refl).
    rewrite advance_advance.
    by replace (S i + length fs) with (i + S (length fs)) by lia.
Qed.

Lemma global_error_hooks_prefix arg pre s0 s :
  errors_pass arg pre s0 s ->
  forall rest error r i, arg = error_arg error (mapErrorCode (e_message error)) -> u r = s0 ->
    global_error_hooks (pre ++ rest) error i r
    = global_error_hooks rest error (i + length pre)
        (advance r s (CGlobalError <$> seq i (length pre))).
Proof.
  induction 1 as [s|f fs s s1 s2 v Hf Hv _ IH]; intros rest error r i -> Hr; simpl.
  - subst. by rewrite advance_same, Nat.add_0_r.
  - subst s. rewrite (bind_inl _ _ _ _ _ (invoke_error_return _ _ _ _ _ _ _ Hf)). rewrite Hv.
    rewrite (IH rest error (advance r (after_error (u r) s1) [CGlobalError i]) (S i)
               eq_refl eq_refl).
    rewrite advance_advance.
    by replace (S i + length fs) with (i + S (length fs)) by lia.
Qed.

Lemma recover_unfold this w error r :
  recover this w error r
  = (handled <- error_hooks (route_errors w r) error (mapErrorCode (e_message error)) 0 ;;
     match handled with
     | Some response => ret response
     | None => handleError this w error
     end) (failed r).
Proof.
  unfold recover. unfold bind at 1. cbn [get_ctx]. unfold bind at 1. cbn [set_ctx].
  fold (failed r). unfold route_errors. cbn [handleErrors failed].
  by destruct (handleErrors r).
Qed.

Lemma seq_snoc_fmap {A} (f : nat -> A) n :
  (f <$> seq 0 n) ++ [f (0 + n)] = f <$> seq 0 (S n).
Proof. by rewrite seq_S, fmap_app. Qed.

(** C6.  When the [try] block of [handle] raises [error], leaving run
    [r], the answer is found in this order.
    - The route-level error hooks run in order; if those before [f]
      return null or undefined and [f] returns another value, that value
      mapped to a response is the answer, and no later route-level hook,
      no global hook and no default handler runs.
    - If every route-level hook returns null or undefined, the global
      error hooks run in the same manner.
    - If they all return null or undefined too, the answer is the default
      one: a plain body holding the error's cause, or its message when it
      has no cause, with the status of the error's code.
    - The status of a code: 400 for [VALIDATION], 404 for [NOT_FOUND],
      500 for [INTERNAL_SERVER_ERROR], [UNKNOWN] and any other. *)
Theorem error_recovery_order :
  forall this w request error r,
    attempt this w request (start_run this w request) = (inr error, r) ->
    let code := mapErrorCode (e_message error) in
    let arg := error_arg error code in
    let route := route_errors w r in
    let global := deref w (ev_error (event this)) in
    (forall pre f post s1 v s2,
        route = pre ++ f :: post ->
        errors_pass arg pre (u (failed r)) s1 ->
        f arg (error_state s1) = (Return v, s2) -> nullish v = false ->
        result_of (handle (this, w) request) = inl (mapResponse v (c_set (ctx s2)))
        /\ calls_of (handle (this, w) request)
           = calls r ++ (CError <$> seq 0 (S (length pre))))
    /\ (forall s1 pre f post s2 v s3,
        errors_pass arg route (u (failed r)) s1 ->
        global = pre ++ f :: post ->
        errors_pass arg pre s1 s2 ->
        f arg (error_state s2) = (Return v, s3) -> nullish v = false ->
        result_of (handle (this, w) request) = inl (mapResponse v (c_set (ctx s3)))
        /\ calls_of (handle (this, w) request)
           = calls r ++ (CError <$> seq 0 (length route))
                     ++ (CGlobalError <$> seq 0 (S (length pre))))
    /\ (forall s1 s2,
        errors_pass arg route (u (failed r)) s1 ->
        errors_pass arg global s1 s2 ->
        result_of (handle (this, w) request)
        = inl (mkResponse (mapErrorStatus code) (set_headers (c_set (ctx s2)))
                          (VStr (default (e_message error) (e_cause error))))
        /\ calls_of (handle (this, w) request)
           = calls r ++ (CError <$> seq 0 (length route))
                     ++ (CGlobalError <$> seq 0 (length global)))
    /\ (mapErrorStatus "VALIDATION" = 400%Z
        /\ mapErrorStatus "NOT_FOUND" = 404%Z
        /\ mapErrorStatus "INTERNAL_SERVER_ERROR" = 500%Z
        /\ mapErrorStatus "UNKNOWN" = 500%Z
        /\ forall other, other <> "VALIDATION" -> other <> "NOT_FOUND" ->
                         mapErrorStatus other = 500%Z).
Proof.
  intros this w request error r Hatt code arg route global.
  split; [| split; [| split]].
  - intros pre f post s1 v s2 Hsplit Hpre Hf Hv.
    assert (Hrec : recover this w error r
                   = (inl (mapResponse v (c_set (ctx s2))),
                      advance (failed r) (after_error s1 s2)
                              (CError <$> seq 0 (S (length pre))))).
    { rewrite recover_unfold. fold route code. rewrite Hsplit.
      unfold bind at 1.
      rewrite (error_hooks_prefix _ _ _ _ Hpre _ error code (failed r) 0 eq_refl eq_refl).
      cbn [error_hooks].
      erewrite (bind_inl (invoke_error _ f error code));
        [| by apply invoke_error_return].
      unfold bind at 1. cbn [get_ctx]. unfold mapEarlyResponse.
      rewrite Hv, advance_advance, seq_snoc_fmap. reflexivity. }
    by rewrite (handle_of_raise _ _ _ _ _ _ _ Hatt Hrec).
  - intros s1 pre f post s2 v s3 Hroute Hsplit Hpre Hf Hv.
    assert (Hrec : recover this w error r
                   = (inl (mapResponse v (c_set (ctx s3))),
                      advance (failed r) (after_error s2 s3)
                              ((CError <$> seq 0 (length route))
                               ++ (CGlobalError <$> seq 0 (S (length pre)))))).
    { rewrite recover_unfold. fold route code.
      rewrite <- (app_nil_r route) at 1. unfold bind at 1.
      rewrite (error_hooks_prefix _ _ _ _ Hroute _ error code (failed r) 0 eq_refl eq_refl).
      cbn [error_hooks ret]. unfold handleError. fold global. rewrite Hsplit.
      unfold bind at 1.
      rewrite (global_error_hooks_prefix _ _ _ _ Hpre _ error
               (advance (failed r) s1 (CError <$> seq 0 (length route))) 0 eq_refl eq_refl).
      cbn [global_error_hooks].
      erewrite (bind_inl (invoke_error _ f error _));
        [| by apply invoke_error_return].
      rewrite Hv. unfold bind at 1. cbn [get_ctx ret].
      rewrite !advance_advance, seq_snoc_fmap. reflexivity. }
    by rewrite (handle_of_raise _ _ _ _ _ _ _ Hatt Hrec).
  - intros s1 s2 Hroute Hglobal.
    assert (Hrec : recover this w error r
                   = (inl (default_error_response error (c_set (ctx s2))),
                      advance (failed r) s2
                              ((CError <$> seq 0 (length route))
                               ++ (CGlobalError <$> seq 0 (length global))))).
    { rewrite recover_unfold. fold route code.
      rewrite <- (app_nil_r route) at 1. unfold bind at 1.
      rewrite (error_hooks_prefix _ _ _ _ Hroute _ error code (failed r) 0 eq_refl eq_refl).
      cbn [error_hooks ret]. unfold handleError. fold global.
      rewrite <- (app_nil_r global) at 1. unfold bind at 1.
      rewrite (global_error_hooks_prefix _ _ _ _ Hglobal _ error
               (advance (failed r) s1 (CError <$> seq 0 (length route))) 0 eq_refl eq_refl).
      cbn [global_error_hooks ret]. unfold bind at 1. cbn [get_ctx ret].
      rewrite !advance_advance. reflexivity. }
    rewrite (handle_of_raise _ _ _ _ _ _ _ Hatt Hrec). split; [| done].
    unfold result_of, default_error_response. simpl. by destruct (e_cause error).
  - repeat split. intros other H1 H2. unfold mapErrorStatus.
    destruct (String.eqb_spec other "VALIDATION"); [done |].
    by destruct (String.eqb_spec other "NOT_FOUND").
Qed.

Lemma error_recovery_order_witness :
  result_of (handle recovering_built (get_request "/" None []))
  = inl (mkResponse 500 [] (VStr "UNKNOWN"))
  /\ calls_of (handle recovering_built (get_request "/" None []))
     = [CHandler; CError 0; CGlobalError 0].
Proof.
  edestruct (error_recovery_order (fst recovering_built) (snd recovering_built)
               (get_request "/" None [])) as (_ & HB & _);
    [vm_compute; reflexivity |].
  change recovering_built with (fst recovering_built, snd recovering_built).
  apply (HB _ [] answer_code [] _ (VStr "UNKNOWN") _
            ltac:(econstructor; [reflexivity | reflexivity | constructor])
            eq_refl ltac:(constructor) eq_refl eq_refl).
Defined.

(** ** What a request sees of the previous one *)

Lemma bind_eqv {A B} (m : Exec A) (k : A -> Exec B) r1 r2 :
  eqv_out (m r1) (m r2) ->
  (forall x r1' r2', run_eqv r1' r2' -> eqv_out (k x r1') (k x r2')) ->
  eqv_out (bind m k r1) (bind m k r2).
Proof.
  intros [Hx Hr] Hk. unfold bind.
  destruct (m r1) as [[x1|e1] r1'], (m r2) as [[x2|e2] r2']; simpl in Hx, Hr;
    try discriminate; injection Hx as <-.
  - by apply Hk.
  - by split.
Qed.

Lemma invoke_error_eqv tag f error code r1 r2 :
  run_eqv r1 r2 ->
  eqv_out (invoke_error tag f error code r1) (invoke_error tag f error code r2).
Proof.
  intros (Hq & Hs & Hd & Hst & He & Hc). unfold invoke_error.
  assert (error_view (ctx (u r1)) = error_view (ctx (u r2))) as ->.
  { unfold error_view. by rewrite Hq, Hs. }
  rewrite Hst. destruct (f _ _) as [o s]. split; [done |].
  unfold run_eqv. simpl. by rewrite Hq, Hd, He, Hc.
Qed.

Lemma error_hooks_eqv hs error code :
  forall i r1 r2, run_eqv r1 r2 ->
    eqv_out (error_hooks hs error code i r1) (error_hooks hs error code i r2).
Proof.
  induction hs as [|f hs IH]; intros i r1 r2 H; simpl; [by split |].
  apply bind_eqv; [by apply invoke_error_eqv |]. intros v r1' r2' Hr.
  rewrite !get_ctx_bind. pose proof Hr as (_ & -> & _).
  destruct (mapEarlyResponse v _); [by split | by apply IH].
Qed.

Lemma global_error_hooks_eqv hs error :
  forall i r1 r2, run_eqv r1 r2 ->
    eqv_out (global_error_hooks hs error i r1) (global_error_hooks hs error i r2).
Proof.
  induction hs as [|f hs IH]; intros i r1 r2 H; simpl; [by split |].
  apply bind_eqv; [by apply invoke_error_eqv |]. intros v r1' r2' Hr.
  destruct (nullish v); [by apply IH |].
  rewrite !get_ctx_bind. pose proof Hr as (_ & -> & _). by split.
Qed.

Lemma failed_eqv r1 r2 : run_eqv r1 r2 -> run_eqv (failed r1) (failed r2).
Proof.
  intros (Hq & Hs & Hd & Hst & He & Hc). unfold run_eqv, failed. simpl.
  by rewrite Hq, Hs, Hd, Hst, He, Hc.
Qed.

Lemma recover_eqv this w error r1 r2 :
  run_eqv r1 r2 -> eqv_out (recover this w error r1) (recover this w error r2).
Proof.
  intros H. rewrite !recover_unfold.
  assert (route_errors w r1 = route_errors w r2) as ->.
  { unfold route_errors. destruct H as (_ & _ & _ & _ & -> & _). done. }
  apply bind_eqv; [by apply error_hooks_eqv, failed_eqv |].
  intros [response|] r1' r2' Hr; [by split |].
  unfold handleError. apply bind_eqv; [by apply global_error_hooks_eqv |].
  intros [response|] r1'' r2'' Hr'; [by split |].
  rewrite !get_ctx_bind. pose proof Hr' as (_ & -> & _). by split.
Qed.

Lemma with_payload_own c :
  with_payload (c_body c) (c_params c) (c_query c) c = c.
Proof. by destruct c. Qed.

Lemma run_eqv_payload r1 r2 :
  run_eqv r1 r2 ->
  u r2 = {| ctx := with_payload (c_body (ctx (u r2))) (c_params (ctx (u r2)))
                                (c_query (ctx (u r2))) (ctx (u r1));
            store := store (u r1) |}.
Proof.
  intros (Hq & Hs & Hd & Hst & _). destruct r1 as [[c1 s1] h1 l1], r2 as [[c2 s2] h2 l2].
  destruct c1, c2. simpl in *. unfold with_payload. simpl. by subst.
Qed.

Lemma returns_ignores_payload v : ignores_payload (returns v).
Proof. by intros arg s body params query. Qed.

Lemma invoke_eqv tag f arg r1 r2 :
  ignores_payload f -> run_eqv r1 r2 ->
  eqv_out (invoke tag f arg r1) (invoke tag f arg r2).
Proof.
  intros Hf H. pose proof H as (Hq & Hs & Hd & Hst & He & Hc).
  unfold invoke. rewrite (run_eqv_payload r1 r2 H), Hf.
  destruct (f arg (u r1)) as [o s1]. cbn [fst snd]. split; [done |].
  unfold run_eqv. cbn. by rewrite He, Hc.
Qed.

Lemma request_hooks_eqv hs :
  Forall ignores_payload hs ->
  forall i r1 r2, run_eqv r1 r2 ->
    eqv_out (request_hooks hs i r1) (request_hooks hs i r2).
Proof.
  induction 1 as [|f hs Hf _ IH]; intros i r1 r2 H; cbn [request_hooks]; [by split |].
  apply bind_eqv; [by apply invoke_eqv |]. intros v r1' r2' Hr.
  rewrite !get_ctx_bind. pose proof Hr as (_ & -> & _).
  destruct (mapEarlyResponse v _); [by split | by apply IH].
Qed.

Lemma parse_hooks_eqv hs contentType :
  Forall ignores_payload hs ->
  forall i r1 r2, run_eqv r1 r2 ->
    eqv_out (parse_hooks hs contentType i r1) (parse_hooks hs contentType i r2).
Proof.
  induction 1 as [|f hs Hf _ IH]; intros i r1 r2 H; cbn [parse_hooks]; [by split |].
  apply bind_eqv; [by apply invoke_eqv |]. intros v r1' r2' Hr.
  destruct v; try (by split). by apply IH.
Qed.

Lemma default_body_run request contentType r :
  exists x, default_body request contentType r = (x, r).
Proof.
  unfold default_body.
  repeat match goal with
         | |- context [if ?b then _ else _] => destruct b
         | |- context [match ?o with Some _ => _ | None => _ end] => destruct o
         end; by eexists.
Qed.

Lemma default_body_eqv request contentType r1 r2 :
  run_eqv r1 r2 ->
  eqv_out (default_body request contentType r1) (default_body request contentType r2).
Proof.
  intros H. unfold default_body.
  repeat match goal with
         | |- context [if ?b then _ else _] => destruct b
         | |- context [match ?o with Some _ => _ | None => _ end] => destruct o
         end; by split.
Qed.

Lemma read_body_eqv hs request r1 r2 :
  Forall ignores_payload hs -> run_eqv r1 r2 ->
  eqv_out (read_body hs request r1) (read_body hs request r2).
Proof.
  intros Hhs H. unfold read_body. destruct (String.eqb _ _); [by split |].
  destruct (headers_get _ _); [| by split].
  destruct (String.eqb _ _); [by split |].
  apply bind_eqv; [by apply parse_hooks_eqv |]. intros v r1' r2' Hr.
  destruct v; try (by split). by apply default_body_eqv.
Qed.

Lemma handle_route_payload this w request search entry params r :
  handle_route this w request search entry params r
  = match read_body (deref w (ev_parse (event this))) request (noted (mh_hooks entry) r) with
    | (inl body, r') =>
        after_payload w request entry body (payload_run body params search r')
    | (inr e, r') => (inr e, r')
    end.
Proof.
  unfold handle_route, enter_route.
  unfold bind at 1. unfold bind at 1. rewrite note_error_hooks_run.
  unfold bind at 1.
  destruct (read_body _ request (noted (mh_hooks entry) r)) as [[body|e] r']; [| done].
  rewrite get_ctx_bind. unfold bind at 1. cbn [set_ctx].
  unfold after_payload, payload_run. unfold bind at 3. reflexivity.
Qed.

Lemma payload_run_eqv body params search r1 r2 :
  run_eqv r1 r2 -> payload_run body params search r1 = payload_run body params search r2.
Proof.
  intros (Hq & Hs & Hd & Hst & He & Hc). unfold payload_run, with_payload.
  by rewrite Hq, Hs, Hd, Hst, He, Hc.
Qed.

Lemma noted_eqv hooks r1 r2 : run_eqv r1 r2 -> run_eqv (noted hooks r1) (noted hooks r2).
Proof.
  intros (Hq & Hs & Hd & Hst & He & Hc). unfold noted. destruct hooks; [| done].
  unfold run_eqv. simpl. tauto.
Qed.

Lemma finish_eqv this w (o1 o2 : (Response + Error) * Run) :
  eqv_out o1 o2 -> eqv_out (finish this w o1) (finish this w o2).
Proof.
  intros [Hx Hr]. destruct o1 as [[x1|e1] r1], o2 as [[x2|e2] r2]; simpl in Hx, Hr;
    try discriminate; injection Hx as <-.
  - by split.
  - by apply recover_eqv.
Qed.

Lemma run_eqv_refl r : run_eqv r r.
Proof. by repeat split. Qed.

Lemma handle_finish this w request :
  handle (this, w) request
  = (let '(result, r) := finish this w (attempt this w request (start_run this w request)) in
     (result, (with_decorators (ctx (u r)) this, with_store (store (u r)) w), calls r)).
Proof.
  unfold handle, finish.
  by destruct (attempt this w request (start_run this w request)) as [[x|e] r].
Qed.

Lemma attempt_eqv this w request r1 r2 :
  Forall ignores_payload (deref w (ev_request (event this))) ->
  Forall ignores_payload (deref w (ev_parse (event this))) ->
  run_eqv r1 r2 ->
  eqv_out (attempt this w request r1) (attempt this w request r2).
Proof.
  intros Hreq Hparse H. unfold attempt.
  apply bind_eqv; [by apply request_hooks_eqv |]. intros early r1' r2' Hr.
  destruct early as [response|]; [by split |].
  destruct (r_url request) as [[pathname search]|]; [| by split].
  destruct (or_else _ _) as [[entry params]|]; [| by split].
  rewrite !handle_route_payload.
  destruct (read_body_eqv _ request _ _ Hparse (noted_eqv (mh_hooks entry) _ _ Hr))
    as [Hx Hr'].
  destruct (read_body _ request (noted (mh_hooks entry) r1')) as [x1 q1].
  destruct (read_body _ request (noted (mh_hooks entry) r2')) as [x2 q2].
  cbn [fst snd] in Hx, Hr'. subst x2. destruct x1 as [body|e].
  - rewrite (payload_run_eqv body params search _ _ Hr').
    split; [done | apply run_eqv_refl].
  - by split.
Qed.

(** C8, amended.  [handle] works on the context object the instance
    keeps, whatever earlier requests left in it.  It assigns [request]
    and a new [set] before anything runs: started from two contexts that
    agree on [body], [params], [query] and their other properties,
    [handle] gives the same result, instance, store and calls, in every
    application.  It assigns [body], [params] and [query] after the
    request hooks and the parsers have run: if none of those reads or
    writes them (in particular, if there are none), then started from
    two contexts that agree on their other properties only, [handle]
    gives the same result, makes the same calls, leaves the same store,
    and leaves contexts that agree on [request], [set] and the other
    properties. *)
Theorem stale_context_fields_are_overwritten :
  forall this w request c1 c2,
    c_decor c1 = c_decor c2 ->
    let out1 := handle (with_decorators c1 this, w) request in
    let out2 := handle (with_decorators c2 this, w) request in
    (c_body c1 = c_body c2 -> c_params c1 = c_params c2 -> c_query c1 = c_query c2 ->
     out1 = out2)
    /\ (Forall ignores_payload (deref w (ev_request (event this))) ->
        Forall ignores_payload (deref w (ev_parse (event this))) ->
        result_of out1 = result_of out2
        /\ calls_of out1 = calls_of out2
        /\ w_store (snd (app_of out1)) = w_store (snd (app_of out2))
        /\ c_request (decorators (fst (app_of out1)))
           = c_request (decorators (fst (app_of out2)))
        /\ c_set (decorators (fst (app_of out1))) = c_set (decorators (fst (app_of out2)))
        /\ c_decor (decorators (fst (app_of out1)))
           = c_decor (decorators (fst (app_of out2)))).
Proof.
  intros this w request c1 c2 Hd out1 out2. subst out1 out2. split.
  - intros Hb Hp Hq. rewrite !handle_finish.
    change (attempt (with_decorators c1 this)) with (attempt this).
    change (attempt (with_decorators c2 this)) with (attempt this).
    change (finish (with_decorators c1 this)) with (finish this).
    change (finish (with_decorators c2 this)) with (finish this).
    assert (Hstart : start_run (with_decorators c1 this) w request
                     = start_run (with_decorators c2 this) w request).
    { unfold start_run, enter. cbn [decorators with_decorators]. by rewrite Hb, Hp, Hq, Hd. }
    rewrite Hstart.
    destruct (finish this w _) as [x r]. reflexivity.
  - intros Hreq Hparse. rewrite !handle_finish.
    change (attempt (with_decorators c1 this)) with (attempt this).
    change (attempt (with_decorators c2 this)) with (attempt this).
    change (finish (with_decorators c1 this)) with (finish this).
    change (finish (with_decorators c2 this)) with (finish this).
    assert (Hstart : run_eqv (start_run (with_decorators c1 this) w request)
                             (start_run (with_decorators c2 this) w request)).
    { unfold run_eqv, start_run. simpl. tauto. }
    destruct (finish_eqv this w _ _ (attempt_eqv this w request _ _ Hreq Hparse Hstart))
      as [Hx (Hq & Hs & Hdd & Hst & He & Hc)].
    destruct (finish this w (attempt this w request
                               (start_run (with_decorators c1 this) w request)))
      as [x1 r1].
    destruct (finish this w (attempt this w request
                               (start_run (with_decorators c2 this) w request)))
      as [x2 r2].
    simpl in *. tauto.
Qed.

Lemma echo_built_eq : echo_built = build echo_route.
Proof. vm_compute. reflexivity. Qed.

Lemma stale_context_fields_are_overwritten_witness :
  c_decor used_context = c_decor empty_context
  /\ Forall ignores_payload (deref (snd echo_built) (ev_request (event (fst echo_built))))
  /\ Forall ignores_payload (deref (snd echo_built) (ev_parse (event (fst echo_built))))
  /\ result_of (handle (with_decorators used_context (fst echo_built), snd echo_built)
                       (post_text "/" "x"))
     = result_of (handle (with_decorators empty_context (fst echo_built), snd echo_built)
                         (post_text "/" "x"))
  /\ result_of (handle (with_decorators used_context (fst echo_built), snd echo_built)
                       (post_text "/" "x"))
     = inl (mkResponse 200 [] (VStr "x")).
Proof.
  split; [reflexivity |]. split; [apply Forall_nil |]. split; [apply Forall_nil |].
  split; [| vm_compute; reflexivity].
  exact (proj1 (proj2 (stale_context_fields_are_overwritten
                         (fst echo_built) (snd echo_built) (post_text "/" "x")
                         used_context empty_context eq_refl)
                      (Forall_nil _) (Forall_nil _))).
Defined.

(** ** The heap of callback arrays *)

Lemma extends_refl w : extends w w.
Proof. split; [done |]. exists []. by rewrite app_nil_r. Qed.

Lemma extends_trans w1 w2 w3 : extends w1 w2 -> extends w2 w3 -> extends w1 w3.
Proof.
  intros [S1 [x1 E1]] [S2 [x2 E2]]. split; [congruence |].
  exists (x1 ++ x2). by rewrite E2, E1, app_assoc.
Qed.

Lemma extends_length w w' : extends w w' -> length (arrays w) <= length (arrays w').
Proof. intros [_ [x ->]]. rewrite length_app. lia. Qed.

Lemma extends_lookup w w' (l : loc) :
  extends w w' -> l < length (arrays w) -> arrays w' !! l = arrays w !! l.
Proof. intros [_ [x ->]] Hl. by apply lookup_app_l. Qed.

Lemma extends_deref w w' (l : loc) :
  extends w w' -> l < length (arrays w) -> deref w' l = deref w l.
Proof. intros H Hl. unfold deref. by rewrite (extends_lookup _ _ _ H Hl). Qed.

Lemma alloc_extends fs w : extends w (snd (alloc fs w)).
Proof. split; [done |]. by exists [fs]. Qed.

Lemma alloc_loc fs w : fst (alloc fs w) = length (arrays w).
Proof. done. Qed.


Lemma alloc_deref fs w : deref (snd (alloc fs w)) (length (arrays w)) = fs.
Proof.
  unfold deref. simpl. rewrite lookup_app_r by lia.
  by rewrite Nat.sub_diag.
Qed.

Lemma mergeHook_spec a b w :
  extends w (snd (mergeHook a b w))
  /\ length (arrays (snd (mergeHook a b w))) = length (arrays w) + 5
  /\ Forall (fun l => length (arrays w) <= l < length (arrays w) + 5)
            (hook_locs (fst (mergeHook a b w))).
Proof.
  unfold mergeHook, mergeObjectArray, alloc. cbn [fst snd arrays w_store hook_locs
    rh_transform rh_beforeHandle rh_parse rh_afterHandle rh_error].
  split; [| split].
  - split; [done |]. eexists. rewrite <- !app_assoc. reflexivity.
  - rewrite !length_app. simpl. lia.
  - rewrite !length_app. cbn [length]. unfold hook_locs. cbn.
    repeat (apply Forall_cons; [lia |]). apply Forall_nil.
Qed.


Lemma getSchemaValidator_names s models ap k :
  is_Some (snd (getSchemaValidator s models ap) !! k) <-> is_Some (models !! k).
Proof.
  unfold getSchemaValidator. destruct s as [[schema|name]|]; try done.
  destruct (String.eqb name ""); [done |].
  destruct (models !! name) as [schema|] eqn:E; [| done]. cbn [snd].
  destruct (decide (name = k)) as [->|Hne].
  - rewrite lookup_insert_eq, E. split; eauto.
  - by rewrite lookup_insert_ne.
Qed.

Lemma addHandler_spec method path handler hook this w :
  let app' := _addHandler method path handler hook (this, w) in
  event (fst app') = event this
  /\ (forall k, is_Some (defs (fst app') !! k) <-> is_Some (defs this !! k))
  /\ decorators (fst app') = decorators this
  /\ extends w (snd app')
  /\ exists path' entry,
       router (fst app') = router this ++ [(method, path', entry)]
       /\ Forall (fun l => length (arrays w) <= l < length (arrays (snd app')))
                 (entry_locs entry).
Proof.
  unfold _addHandler.
  pose proof (mergeHook_spec (event_as_local (event this)) hook w) as (E1 & L1 & _).
  destruct (mergeHook (event_as_local (event this)) hook w) as [route_hooks w1].
  pose proof (mergeHook_spec (event_as_local (clone (event this))) hook w1) as (E2 & L2 & F2).
  destruct (mergeHook (event_as_local (clone (event this))) hook w1) as [hooks w2].
  cbn [fst snd] in *. cbn [event defs decorators router fst snd].
  split; [done |]. split; [intros k; by rewrite !getSchemaValidator_names |].
  split; [done |].
  split; [by apply (extends_trans _ w1) |].
  do 2 eexists. split; [reflexivity |].
  unfold entry_locs. cbn [mh_hooks].
  match goal with |- context [if ?c then None else Some hooks] => destruct c end;
    [apply Forall_nil |].
  eapply List.Forall_impl; [| exact F2]. intros l Hl. simpl in Hl. lia.
Qed.

Lemma frame_ok_refl app : frame_ok app app.
Proof. split; [done |]. by intros bound H. Qed.

Lemma frame_ok_trans app1 app2 app3 :
  frame_ok app1 app2 -> frame_ok app2 app3 -> frame_ok app1 app3.
Proof.
  intros [L1 F1] [L2 F2]. split; [lia |]. intros bound H.
  destruct (F1 bound H) as [A1 K1]. destruct (F2 bound A1) as [A2 K2].
  split; [done |]. intros l Hl. by rewrite K2, K1.
Qed.

Lemma frame_ok_extends this this' w w' :
  event this' = event this -> extends w w' -> frame_ok (this, w) (this', w').
Proof.
  intros He Hx. split; [by apply extends_length |].
  intros bound [Hb Hf]. cbn [fst snd] in *. split.
  - split; cbn [fst snd]; [pose proof (extends_length _ _ Hx); lia | by rewrite He].
  - intros l Hl. apply (extends_lookup _ _ _ Hx). lia.
Qed.

Lemma frame_ok_write this w (a : loc) (fs : list Callback) :
  a ∈ event_locs (event this) ->
  frame_ok (this, w) (this, {| arrays := <[a := fs]> (arrays w); w_store := w_store w |}).
Proof.
  intros Ha. split; cbn [fst snd arrays]; [by rewrite length_insert |].
  intros bound [Hb Hf]. cbn [fst snd] in *. split.
  - split; cbn [fst snd arrays]; [by rewrite length_insert | done].
  - intros l Hl. apply list_lookup_insert_ne.
    rewrite List.Forall_forall in Hf. apply list_elem_of_In in Ha.
    specialize (Hf _ Ha). lia.
Qed.

Lemma frame_ok_store this w s :
  frame_ok (this, w) (this, with_store s w).
Proof. split; [done |]. by intros bound H. Qed.

Lemma event_array_in type e : event_array type e ∈ event_locs e.
Proof. unfold event_locs. destruct type; simpl; rewrite !elem_of_cons; tauto. Qed.

Lemma frame_ok_addHandler method path handler hook app :
  frame_ok app (_addHandler method path handler hook app).
Proof.
  destruct app as [this w].
  pose proof (addHandler_spec method path handler hook this w) as (He & _ & _ & Hx & _).
  destruct (_addHandler method path handler hook (this, w)) as [this' w'].
  by apply frame_ok_extends.
Qed.

Lemma frame_ok_on type handler app : frame_ok app (on type handler app).
Proof. destruct app as [this w]. apply frame_ok_write, event_array_in. Qed.

Lemma frame_ok_onParse parser app : frame_ok app (onParse parser app).
Proof.
  destruct app as [this w]. apply frame_ok_write, (event_array_in EvParse).
Qed.

Lemma frame_ok_state name v app : frame_ok app (state name v app).
Proof.
  destruct app as [this w]. unfold state.
  destruct (in_store _ _); [apply frame_ok_refl | apply frame_ok_store].
Qed.

Lemma frame_ok_setModel record app : frame_ok app (setModel record app).
Proof.
  destruct app as [this w]. unfold setModel.
  apply frame_ok_extends; [done | apply extends_refl].
Qed.

Lemma newElysia_spec w :
  extends w (snd (newElysia w))
  /\ length (arrays (snd (newElysia w))) = length (arrays w) + 8
  /\ event_locs (event (fst (newElysia w))) = seq (length (arrays w)) 8
  /\ router (fst (newElysia w)) = []
  /\ routes (fst (newElysia w)) = [].
Proof.
  unfold newElysia, alloc. cbn [fst snd arrays w_store event router routes event_locs
    ev_start ev_request ev_parse ev_transform ev_beforeHandle ev_afterHandle ev_error ev_stop].
  split; [| split; [| split; [| done]]].
  - split; [done |]. eexists. rewrite <- !app_assoc. reflexivity.
  - rewrite !length_app. simpl. lia.
  - unfold event_locs. cbn [ev_start ev_request ev_parse ev_transform ev_beforeHandle
      ev_afterHandle ev_error ev_stop]. rewrite !length_app. cbn [length seq].
    repeat f_equal; lia.
Qed.

Lemma frame_ok_fold_request_hooks sandbox app :
  frame_ok app (fold_request_hooks sandbox app).
Proof.
  destruct app as [this w]. unfold fold_request_hooks.
  case_bool_decide; [apply frame_ok_refl |].
  unfold alloc. split; cbn [fst snd arrays]; [rewrite length_app; lia |].
  intros bound [Hb Hf]. cbn [fst snd] in *. split.
  - split; cbn [fst snd arrays event with_event]; [rewrite length_app; lia |].
    unfold event_locs in *. cbn.
    inversion Hf as [|? ? H1 Hf1]; subst. inversion Hf1 as [|? ? H2 Hf2]; subst.
    apply Forall_cons; [done |]. apply Forall_cons; [done | done].
  - intros l Hl. apply lookup_app_l. lia.
Qed.

Lemma frame_ok_fold {A} (step : App -> A -> App) (l : list A) :
  (forall app x, frame_ok app (step app x)) ->
  forall app, frame_ok app (fold_left step l app).
Proof.
  intros Hstep. induction l as [|x l IH]; intros app; simpl.
  - apply frame_ok_refl.
  - eapply frame_ok_trans; [apply Hstep | apply IH].
Qed.

Lemma frame_ok_merge_then_add a b method path handler this w :
  frame_ok (this, w)
    (let '(hooks, w) := mergeHook a b w in
     _addHandler method path handler (Some (registered_as_local hooks)) (this, w)).
Proof.
  pose proof (mergeHook_spec a b w) as (Hx & _ & _).
  destruct (mergeHook a b w) as [hooks w1]. cbn [snd] in Hx.
  eapply frame_ok_trans; [| apply frame_ok_addHandler].
  by apply frame_ok_extends.
Qed.

Lemma frame_ok_child (run : App -> App) this w :
  (forall child, frame_ok child (run child)) ->
  frame_ok (this, w) (this, snd (run (newElysia w))).
Proof.
  intros Hrun. pose proof (newElysia_spec w) as (Hx & Hlen & Hlocs & _).
  destruct (Hrun (newElysia w)) as [Hle Hframe].
  pose proof (extends_length _ _ Hx) as Hle0.
  split; cbn [fst snd]; [lia |].
  intros bound [Hb Hf]. cbn [fst snd] in *.
  destruct (Hframe bound) as [[Hb' _] Hbelow].
  { split; [lia |]. rewrite Hlocs. apply List.Forall_forall. intros l Hl.
    apply in_seq in Hl. lia. }
  split.
  - split; cbn [fst snd]; [done | done].
  - intros l Hl. rewrite Hbelow by done. apply (extends_lookup _ _ _ Hx). lia.
Qed.

Lemma frame_ok_group prefix (run : App -> App) app :
  (forall child, frame_ok child (run child)) ->
  frame_ok app (group prefix run app).
Proof.
  intros Hrun. destruct app as [this w]. unfold group.
  pose proof (frame_ok_child run this w Hrun) as Hchild.
  destruct (run (newElysia w)) as [sandbox w1]. cbn [snd] in Hchild.
  eapply frame_ok_trans; [exact Hchild |].
  eapply frame_ok_trans; [apply (frame_ok_fold_request_hooks sandbox) |].
  eapply frame_ok_trans; [apply (frame_ok_setModel (defs sandbox)) |].
  apply frame_ok_fold. intros [this' w'] r. apply frame_ok_merge_then_add.
Qed.

Lemma frame_ok_guard hook (run : App -> App) app :
  (forall child, frame_ok child (run child)) ->
  frame_ok app (guard hook run app).
Proof.
  intros Hrun. destruct app as [this w]. unfold guard.
  pose proof (frame_ok_child run this w Hrun) as Hchild.
  destruct (run (newElysia w)) as [sandbox w1]. cbn [snd] in Hchild.
  eapply frame_ok_trans; [exact Hchild |].
  eapply frame_ok_trans; [apply (frame_ok_fold_request_hooks sandbox) |].
  eapply frame_ok_trans; [apply (frame_ok_setModel (defs sandbox)) |].
  apply frame_ok_fold. intros [this' w'] r. apply frame_ok_merge_then_add.
Qed.

Lemma frame_ok_run (run : list Build) :
  Forall (fun b => forall app, frame_ok app (exec b app)) run ->
  forall child, frame_ok child (fold_left (fun a c => exec c a) run child).
Proof.
  induction 1 as [|b run Hb _ IH]; intros child; simpl.
  - apply frame_ok_refl.
  - eapply frame_ok_trans; [apply Hb | apply IH].
Qed.

Lemma frame_ok_exec b : forall app, frame_ok app (exec b app).
Proof.
  induction b using Build_nested_ind; intros app; cbn [exec].
  - apply frame_ok_addHandler.
  - apply frame_ok_on.
  - apply (frame_ok_on EvStart).
  - apply (frame_ok_on EvRequest).
  - apply frame_ok_onParse.
  - apply (frame_ok_on EvTransform).
  - apply (frame_ok_on EvBeforeHandle).
  - apply (frame_ok_on EvAfterHandle).
  - apply (frame_ok_on EvError).
  - apply (frame_ok_on EvStop).
  - apply frame_ok_state.
  - apply frame_ok_setModel.
  - apply frame_ok_group. by apply frame_ok_run.
  - apply frame_ok_guard. by apply frame_ok_run.
Qed.

Lemma frame_ok_chain calls app : frame_ok app (chain calls app).
Proof.
  apply frame_ok_run. apply List.Forall_forall. intros b _. apply frame_ok_exec.
Qed.

(** ** The arrays of routes are apart from the arrays of events *)

Lemma wf_reshape this this' w w' :
  event this' = event this -> router_locs this' = router_locs this ->
  length (arrays w) <= length (arrays w') ->
  wf (this, w) -> wf (this', w').
Proof.
  intros He Hr Hl (H1 & H2 & H3). unfold wf in *. cbn [fst snd] in *.
  rewrite He, Hr. split; [| split; [done |]].
  - eapply List.Forall_impl; [| exact H1]. simpl. intros. lia.
  - eapply List.Forall_impl; [| exact H3]. simpl. intros l [? ?]. split; [lia | done].
Qed.

Lemma wf_frame_ok this w w' :
  frame_ok (this, w) (this, w') -> wf (this, w) -> wf (this, w').
Proof. intros [Hl _]. by apply wf_reshape. Qed.

Lemma wf_addHandler method path handler hook app :
  wf app -> wf (_addHandler method path handler hook app).
Proof.
  destruct app as [this w]. intros (H1 & H2 & H3).
  pose proof (addHandler_spec method path handler hook this w)
    as (He & _ & _ & Hx & path' & entry & Hr & Hf).
  destruct (_addHandler method path handler hook (this, w)) as [this' w'].
  cbn [fst snd] in *. pose proof (extends_length _ _ Hx) as Hl.
  unfold wf. cbn [fst snd]. rewrite He. split; [| split; [done |]].
  - eapply List.Forall_impl; [| exact H1]. simpl. intros. lia.
  - unfold router_locs. rewrite Hr, bind_app. apply Forall_app. split.
    + eapply List.Forall_impl; [| exact H3]. simpl. intros l [? ?]. split; [lia | done].
    + simpl. rewrite app_nil_r.
      eapply List.Forall_impl; [| exact Hf]. simpl. intros l Hl'. split; [lia |].
      intros Hin. rewrite List.Forall_forall in H1. apply list_elem_of_In in Hin.
      specialize (H1 _ Hin). simpl in H1. lia.
Qed.

Lemma wf_write this w (a : loc) (fs : list Callback) :
  wf (this, w) -> wf (this, {| arrays := <[a := fs]> (arrays w); w_store := w_store w |}).
Proof.
  apply wf_reshape; [done | done |]. cbn [arrays]. by rewrite length_insert.
Qed.

Lemma wf_state name v app : wf app -> wf (state name v app).
Proof.
  destruct app as [this w]. unfold state. destruct (in_store _ _); [done |].
  by apply wf_reshape.
Qed.

Lemma wf_setModel record app : wf app -> wf (setModel record app).
Proof. destruct app as [this w]. unfold setModel. by apply wf_reshape. Qed.

Lemma wf_fold_request_hooks sandbox app : wf app -> wf (fold_request_hooks sandbox app).
Proof.
  destruct app as [this w]. intros (H1 & H2 & H3). unfold fold_request_hooks.
  case_bool_decide; [done |]. unfold alloc, wf.
  cbn [fst snd arrays event with_event]. rewrite length_app. cbn [length].
  unfold event_locs in *. cbn [ev_start ev_request ev_parse ev_transform ev_beforeHandle
    ev_afterHandle ev_error ev_stop] in *.
  set (e := event this) in *.
  assert (Hlt : forall l, l ∈ [ev_start e; ev_request e; ev_parse e; ev_transform e;
                              ev_beforeHandle e; ev_afterHandle e; ev_error e; ev_stop e] ->
                          l < length (arrays w)).
  { intros l Hl. rewrite List.Forall_forall in H1. apply list_elem_of_In in Hl.
    exact (H1 _ Hl). }
  split; [| split].
  - apply List.Forall_forall. intros l Hl. apply list_elem_of_In in Hl.
    rewrite !elem_of_cons in Hl. rewrite elem_of_nil in Hl.
    destruct Hl as [->|[->|Hl]]; [| lia |].
    + assert (ev_start e < length (arrays w)); [| lia].
      apply Hlt. rewrite !elem_of_cons. tauto.
    + assert (l < length (arrays w)); [| lia].
      apply Hlt. rewrite !elem_of_cons. tauto.
  - apply list.NoDup_cons in H2 as [Hs H2].
    apply list.NoDup_cons in H2 as [Hq H2].
    apply list.NoDup_cons. split.
    + rewrite not_elem_of_cons in Hs. rewrite not_elem_of_cons. split; [| tauto].
      assert (ev_start e < length (arrays w)); [| lia].
      apply Hlt. rewrite !elem_of_cons. tauto.
    + apply list.NoDup_cons. split; [| done].
      intros Hin. assert (length (arrays w) < length (arrays w)); [| lia].
      apply Hlt. rewrite !elem_of_cons in *. tauto.
  - change (router_locs (with_event _ this)) with (router_locs this).
    eapply List.Forall_impl; [| exact H3]. simpl. intros l [Hl Hn]. split; [lia |].
    rewrite !not_elem_of_cons in *. repeat split; try tauto. lia.
Qed.

Lemma wf_fold {A} (step : App -> A -> App) (l : list A) :
  (forall app x, wf app -> wf (step app x)) ->
  forall app, wf app -> wf (fold_left step l app).
Proof.
  intros Hstep. induction l as [|x l IH]; intros app H; simpl; [done |].
  apply IH, Hstep, H.
Qed.

Lemma wf_merge_then_add a b method path handler this w :
  wf (this, w) ->
  wf (let '(hooks, w) := mergeHook a b w in
      _addHandler method path handler (Some (registered_as_local hooks)) (this, w)).
Proof.
  intros H. pose proof (mergeHook_spec a b w) as (Hx & _ & _).
  destruct (mergeHook a b w) as [hooks w1]. cbn [snd] in Hx.
  apply wf_addHandler. eapply wf_reshape; [done | done | | exact H].
  by apply extends_length.
Qed.

Lemma wf_group prefix (run : App -> App) app :
  (forall child, frame_ok child (run child)) -> wf app -> wf (group prefix run app).
Proof.
  intros Hrun. destruct app as [this w]. intros H. unfold group.
  pose proof (frame_ok_child run this w Hrun) as Hchild.
  destruct (run (newElysia w)) as [sandbox w1]. cbn [snd] in Hchild.
  apply wf_fold.
  - intros [this' w'] r. apply wf_merge_then_add.
  - apply wf_setModel, wf_fold_request_hooks. by apply (wf_frame_ok _ w).
Qed.

Lemma wf_guard hook (run : App -> App) app :
  (forall child, frame_ok child (run child)) -> wf app -> wf (guard hook run app).
Proof.
  intros Hrun. destruct app as [this w]. intros H. unfold guard.
  pose proof (frame_ok_child run this w Hrun) as Hchild.
  destruct (run (newElysia w)) as [sandbox w1]. cbn [snd] in Hchild.
  apply wf_fold.
  - intros [this' w'] r. apply wf_merge_then_add.
  - apply wf_setModel, wf_fold_request_hooks. by apply (wf_frame_ok _ w).
Qed.

Lemma wf_exec b app : wf app -> wf (exec b app).
Proof.
  destruct b; cbn [exec].
  - apply wf_addHandler.
  - destruct app. apply wf_write.
  - destruct app. apply wf_write.
  - destruct app. apply wf_write.
  - destruct app. apply wf_write.
  - destruct app. apply wf_write.
  - destruct app. apply wf_write.
  - destruct app. apply wf_write.
  - destruct app. apply wf_write.
  - destruct app. apply wf_write.
  - apply wf_state.
  - apply wf_setModel.
  - apply wf_group. intros child. apply (frame_ok_chain run).
  - apply wf_guard. intros child. apply (frame_ok_chain run).
Qed.

Lemma wf_chain calls : forall app, wf app -> wf (chain calls app).
Proof.
  unfold chain. induction calls as [|b calls IH]; intros app H; simpl; [done |].
  apply IH, wf_exec, H.
Qed.

Lemma wf_new : wf (newElysia empty_world).
Proof.
  unfold wf, router_locs, event_locs. cbn. split; [| split].
  - repeat (apply Forall_cons; [lia |]). apply Forall_nil.
  - repeat (apply list.NoDup_cons; split;
              [rewrite ?not_elem_of_cons; repeat split; try lia; apply not_elem_of_nil |]).
    apply NoDup_nil_2.
  - apply Forall_nil.
Qed.

Lemma wf_build calls : wf (build calls).
Proof. apply wf_chain, wf_new. Qed.

(** ** What [handle] reads of the heap *)












(** ** Registration after a route *)

Lemma deref_write_ne w (a l : loc) (fs : list Callback) :
  l <> a -> deref {| arrays := <[a := fs]> (arrays w); w_store := w_store w |} l = deref w l.
Proof. intros Hne. unfold deref. cbn [arrays]. by rewrite list_lookup_insert_ne. Qed.

Lemma router_locs_apart this w (a l : loc) :
  wf (this, w) -> a ∈ event_locs (event this) -> l ∈ router_locs this -> l <> a.
Proof.
  intros (_ & _ & H3) Ha Hl. cbn [fst snd] in H3.
  rewrite List.Forall_forall in H3. apply list_elem_of_In in Hl.
  destruct (H3 _ Hl) as [_ Hn]. intros ->. done.
Qed.



(** ** Request hooks of a group or guard *)

Lemma chain_snoc calls b app : chain (calls ++ [b]) app = exec b (chain calls app).
Proof. unfold chain. by rewrite fold_left_app. Qed.

Lemma child_preserves (run : App -> App) w (l : loc) :
  (forall child, frame_ok child (run child)) ->
  l < length (arrays w) ->
  arrays (snd (run (newElysia w))) !! l = arrays w !! l.
Proof.
  intros Hrun Hl. pose proof (newElysia_spec w) as (Hx & Hlen & Hlocs & _).
  destruct (Hrun (newElysia w)) as [_ Hframe].
  destruct (Hframe (length (arrays w))) as [_ Hbelow].
  { split; [lia |]. rewrite Hlocs. apply List.Forall_forall. intros k Hk.
    apply in_seq in Hk. lia. }
  rewrite Hbelow by done. by apply (extends_lookup _ _ _ Hx).
Qed.


Lemma adds_route_fold {A} (step : App -> A -> App) (l : list A) :
  (forall app x, adds_route app (step app x)) ->
  forall app, adds_route app (fold_left step l app).
Proof.
  intros Hstep. induction l as [|x l IH]; intros app; simpl.
  - split; [done | apply extends_refl].
  - destruct (Hstep app x) as [E1 X1]. destruct (IH (step app x)) as [E2 X2].
    split; [congruence | by apply (extends_trans _ (snd (step app x)))].
Qed.

Lemma adds_route_merge_then_add a b method path handler this w :
  adds_route (this, w)
    (let '(hooks, w) := mergeHook a b w in
     _addHandler method path handler (Some (registered_as_local hooks)) (this, w)).
Proof.
  pose proof (mergeHook_spec a b w) as (Hx & _ & _).
  destruct (mergeHook a b w) as [hooks w1]. cbn [snd] in Hx.
  pose proof (addHandler_spec method path handler (Some (registered_as_local hooks)) this w1)
    as (He & _ & _ & Hx' & _).
  split; [done |]. by apply (extends_trans _ w1).
Qed.

Lemma adds_route_hooks type app app' :
  adds_route app app' ->
  event_array type (event (fst app)) < length (arrays (snd app)) ->
  hooks_of type app' = hooks_of type app.
Proof.
  intros [He Hx] Hv. unfold hooks_of. rewrite He. by apply extends_deref.
Qed.

Lemma setModel_hooks type record app :
  hooks_of type (setModel record app) = hooks_of type app.
Proof. by destruct app. Qed.







(** ** Requests that match no route *)

Lemma request_hooks_prefix pre s0 s :
  all_pass VUndefined pre s0 s ->
  forall rest r i, u r = s0 ->
    request_hooks (pre ++ rest) i r
    = request_hooks rest (i + length pre) (advance r s (CRequest <$> seq i (length pre))).
Proof.
  induction 1 as [s|f fs s s1 s2 v Hf Hv _ IH]; intros rest r i Hu.
  - simpl. rewrite Nat.add_0_r. subst s. by rewrite advance_same.
  - subst s. cbn [app request_hooks length].
    rewrite (bind_inl _ _ _ _ _ (invoke_return _ _ _ _ _ _ Hf)), get_ctx_bind.
    unfold mapEarlyResponse. rewrite Hv.
    rewrite (IH rest (advance r s1 [CRequest i]) (S i) eq_refl), advance_advance.
    by replace (i + S (length fs)) with (S i + length fs) by lia.
Qed.

Lemma attempt_unmatched this w request s :
  all_pass VUndefined (deref w (ev_request (event this))) (u (start_run this w request)) s ->
  (forall pathname search,
      r_url request = Some (pathname, search) -> matched this request pathname = None) ->
  attempt this w request (start_run this w request)
  = (inr (mkError "NOT_FOUND"),
     advance (start_run this w request) s
             (CRequest <$> seq 0 (length (deref w (ev_request (event this)))))).
Proof.
  intros Hpass Hnone. unfold attempt.
  rewrite (bind_inl _ _ _ _ _ (request_hooks_pass _ _ _ Hpass _ 0 eq_refl)).
  destruct (r_url request) as [[pathname search]|] eqn:E; [| done].
  pose proof (Hnone _ _ eq_refl) as Hm. unfold matched in Hm. by rewrite Hm.
Qed.

Lemma recover_without_route_hooks this w error r x r' :
  recover this w error r = (x, r') ->
  handleErrors r = None ->
  grows_by is_global_error r r'.
Proof.
  intros H Hnone. revert H. rewrite recover_unfold. unfold route_errors. rewrite Hnone.
  cbn [error_hooks]. unfold bind at 1, ret at 1. unfold handleError. intros H.
  assert (Hg : grows is_global_error
                (handled <- global_error_hooks (deref w (ev_error (event this))) error 0 ;;
                 match handled with
                 | Some response => ret response
                 | None => c <- get_ctx ;; ret (default_error_response error (c_set c))
                 end)).
  { apply grows_bind.
    - apply (steps_global_error_hooks _ is_global_error (grows_by_refl _) (grows_by_trans _)
               (grows_by_call _)).
      intros j. by exists j.
    - intros [response|]; [apply grows_ret |].
      apply grows_bind; [apply grows_get_ctx | intros c; apply grows_ret]. }
  destruct (Hg _ _ _ H) as (new & Hnew & HF). exists new. by split.
Qed.

(** X1.  A request that matches no route (or whose URL does not parse)
    is answered by the default error response for [NOT_FOUND]: status
    404 and the body [NOT_FOUND], once the request hooks and the global
    error hooks have all declined.  No other callback is invoked;
    route-level error hooks cannot see the failure. *)
Theorem unmatched_request_is_not_found :
  forall this w request s s',
    all_pass VUndefined (deref w (ev_request (event this)))
             (u (start_run this w request)) s ->
    (forall pathname search,
        r_url request = Some (pathname, search) -> matched this request pathname = None) ->
    errors_pass (error_arg (mkError "NOT_FOUND") "NOT_FOUND")
                (deref w (ev_error (event this))) (fail_state s) s' ->
    result_of (handle (this, w) request)
    = inl (mkResponse 404 (set_headers (c_set (ctx s'))) (VStr "NOT_FOUND"))
    /\ calls_of (handle (this, w) request)
       = (CRequest <$> seq 0 (length (deref w (ev_request (event this)))))
         ++ (CGlobalError <$> seq 0 (length (deref w (ev_error (event this))))).
Proof.
  intros this w request s s' Hpass Hnone Herr.
  pose proof (attempt_unmatched _ _ _ _ Hpass Hnone) as Hatt.
  set (r1 := advance _ _ _) in Hatt.
  assert (Hrec : recover this w (mkError "NOT_FOUND") r1
                 = (inl (mkResponse 404 (set_headers (c_set (ctx s'))) (VStr "NOT_FOUND")),
                    advance (failed r1) s'
                      (CGlobalError <$> seq 0 (length (deref w (ev_error (event this))))))).
  { rewrite recover_unfold. unfold route_errors. cbn [r1 advance handleErrors start_run].
    cbn [error_hooks]. unfold bind at 1, ret at 1. unfold handleError.
    pose proof (global_error_hooks_prefix _ _ _ _ Herr [] (mkError "NOT_FOUND") (failed r1) 0
                  eq_refl eq_refl) as Hg.
    rewrite app_nil_r in Hg. cbn [global_error_hooks] in Hg.
    rewrite (bind_inl _ _ _ _ _ Hg). by rewrite get_ctx_bind. }
  rewrite (handle_of_raise _ _ _ _ _ _ _ Hatt Hrec).
  split; [done |]. unfold calls_of. cbn [snd calls advance failed r1 start_run].
  done.
Qed.

Lemma unmatched_request_is_not_found_witness :
  result_of (handle echo_built (get_request "/missing" None []))
  = inl (mkResponse 404 [] (VStr "NOT_FOUND"))
  /\ calls_of (handle echo_built (get_request "/missing" None [])) = [].
Proof.
  apply (unmatched_request_is_not_found (fst echo_built) (snd echo_built)
           (get_request "/missing" None [])
           (u (start_run (fst echo_built) (snd echo_built) (get_request "/missing" None [])))
           (fail_state (u (start_run (fst echo_built) (snd echo_built)
                                     (get_request "/missing" None []))))).
  - vm_compute. constructor.
  - intros pathname search [= <- <-]. vm_compute. reflexivity.
  - vm_compute. constructor.
Defined.

(** X2.  When a request hook throws, the failure is handled by the
    global error hooks alone: after the request hooks up to the failing
    one, every further call is a call of a global error hook.  The route
    is never looked up, so neither its handler nor its error hooks run. *)
Theorem request_hook_failure_reaches_global_hooks_only :
  forall this w request pre f post s1 e s2,
    deref w (ev_request (event this)) = pre ++ f :: post ->
    all_pass VUndefined pre (u (start_run this w request)) s1 ->
    f VUndefined s1 = (Raise e, s2) ->
    exists new,
      calls_of (handle (this, w) request) = (CRequest <$> seq 0 (S (length pre))) ++ new
      /\ Forall is_global_error new.
Proof.
  intros this w request pre f post s1 e s2 Hhooks Hpass Hf.
  assert (Hatt : attempt this w request (start_run this w request)
                 = (inr e, advance (start_run this w request) s2
                                   (CRequest <$> seq 0 (S (length pre))))).
  { assert (H : request_hooks (pre ++ f :: post) 0 (start_run this w request)
                 = (inr e, advance (start_run this w request) s2
                                   (CRequest <$> seq 0 (S (length pre))))).
    { rewrite (request_hooks_prefix _ _ _ Hpass (f :: post) _ 0 eq_refl).
      cbn [request_hooks].
      rewrite (bind_inr _ _ _ _ _
                 (invoke_raise (CRequest (0 + length pre)) f VUndefined
                    (advance (start_run this w request) s1 (CRequest <$> seq 0 (length pre)))
                    e s2 Hf)).
      by rewrite advance_advance, seq_snoc_fmap. }
    unfold attempt. rewrite Hhooks. by rewrite (bind_inr _ _ _ _ _ H). }
  destruct (recover this w e (advance (start_run this w request) s2
                                      (CRequest <$> seq 0 (S (length pre)))))
    as [result r'] eqn:Hrec.
  destruct (recover_without_route_hooks _ _ _ _ _ _ Hrec eq_refl) as (new & Hnew & HF).
  exists new. rewrite (handle_of_raise _ _ _ _ _ _ _ Hatt Hrec).
  unfold calls_of. cbn [snd]. rewrite Hnew. by split.
Qed.

Lemma request_hook_failure_reaches_global_hooks_only_witness :
  exists new,
    calls_of (handle (onRequest throwing echo_built) (post_text "/" "x")) = [CRequest 0] ++ new
    /\ Forall is_global_error new.
Proof.
  apply (request_hook_failure_reaches_global_hooks_only
           (fst (onRequest throwing echo_built)) (snd (onRequest throwing echo_built))
           (post_text "/" "x") [] throwing []
           (u (start_run (fst (onRequest throwing echo_built))
                         (snd (onRequest throwing echo_built)) (post_text "/" "x")))
           (mkError "boom")
           (u (start_run (fst (onRequest throwing echo_built))
                         (snd (onRequest throwing echo_built)) (post_text "/" "x")))).
  - vm_compute. reflexivity.
  - constructor.
  - reflexivity.
Defined.

(** ** Reading the body *)

Lemma read_body_no_payload parse request r :
  no_payload request -> read_body parse request r = (inl VUndefined, r).
Proof.
  unfold read_body. intros [H | [H | H]].
  - by rewrite H.
  - rewrite H. by destruct (String.eqb _ _).
  - rewrite H. by destruct (String.eqb _ _).
Qed.

Lemma grows_attempt_no_payload this w request :
  no_payload request ->
  grows (fun c => ~ is_parse c) (attempt this w request).
Proof.
  intros Hno.
  set (P := fun c => ~ is_parse c).
  assert (HP : forall tag, (forall i, tag <> CParse i) -> P tag).
  { intros tag H [i Hi]. by apply (H i). }
  unfold attempt. apply grows_bind; [apply grows_request_hooks; intros j; by apply HP |].
  intros [response|]; [apply grows_ret |].
  destruct (r_url request) as [[pathname search]|]; [| apply grows_throw].
  destruct (or_else _ _) as [[entry params]|]; [| apply grows_throw].
  unfold handle_route. apply grows_bind.
  - unfold enter_route. apply grows_bind.
    + apply (steps_note _ (fun _ => True) (grows_by_refl P) (grows_by_note P)). done.
    + intros _. apply grows_bind.
      * intros r x r' H. rewrite read_body_no_payload in H by done.
        injection H as <- <-. apply grows_by_refl.
      * intros body. apply grows_bind; [apply grows_get_ctx |]. intros c.
        apply grows_bind; [apply (steps_set_ctx _ (grows_by_ctx P)) |]. intros _.
        apply grows_bind.
        -- destruct (mh_hooks entry); [| apply grows_ret].
           apply (steps_transform_hooks _ P (grows_by_refl P) (grows_by_trans P)
                    (grows_by_call P)).
           intros j. by apply HP.
        -- intros _.
           apply (steps_validate _ (fun _ => True) (grows_by_refl P) (grows_by_trans P)
                    (grows_by_note P)). done.
  - intros _.
    apply (steps_from_beforeHandle _ P (grows_by_refl P) (grows_by_trans P) (grows_by_call P));
      [| intros j | intros j]; by apply HP.
Qed.

(** X3.  A [GET] request, and a request without a (non-empty)
    [content-type] header, has no body read: the body is [undefined],
    and neither a registered parser nor a default decoder is run, in any
    application and whatever the callbacks do. *)
Theorem requests_without_payload_skip_parsers :
  forall app request,
    no_payload request ->
    (forall parse r, read_body parse request r = (inl VUndefined, r))
    /\ Forall (fun c => ~ is_parse c) (calls_of (handle app request)).
Proof.
  intros [this w] request Hno. split.
  - intros parse r. by apply read_body_no_payload.
  - destruct (handle_calls_grow (fun c => ~ is_parse c) this w request
                (start_run this w request) (attempt this w request))
      as (new & Hnew & HF).
    + by intros j [i Hi].
    + by intros j [i Hi].
    + done.
    + by apply grows_attempt_no_payload.
    + by rewrite Hnew.
Qed.

Lemma requests_without_payload_skip_parsers_witness :
  Forall (fun c => ~ is_parse c)
         (calls_of (handle (onParse second_parser echo_built)
                           (get_request "/" None [("content-type", "text/plain")]))).
Proof.
  apply (requests_without_payload_skip_parsers (onParse second_parser echo_built)
           (get_request "/" None [("content-type", "text/plain")])).
  left. reflexivity.
Defined.

Lemma before_semicolon_app (type rest : string) :
  before_semicolon type = type ->
  before_semicolon (type ++ ";" ++ rest)%string = type.
Proof.
  induction type as [|c type IH]; [done |]. simpl.
  destruct (Ascii.eqb c ";"); [done |]. intros [= H]. by rewrite (IH H).
Qed.

Lemma append_semicolon_nonempty (type rest : string) :
  String.eqb (type ++ ";" ++ rest)%string "" = false.
Proof. by destruct type. Qed.

(** X4.  The parameters of a [content-type] header are cut off at the
    first [;] before parsing: for the header [type;rest] the parsers are
    called with [type] and, when they all decline, the default decoder
    is chosen by [type]. *)
Theorem content_type_parameters_are_dropped :
  forall parse request type rest r,
    r_method request <> "GET" ->
    before_semicolon type = type ->
    headers_get "content-type" request = Some (type ++ ";" ++ rest)%string ->
    read_body parse request r
    = (body <- parse_hooks parse type 0 ;;
       match body with
       | VUndefined => default_body request type
       | _ => ret body
       end) r.
Proof.
  intros parse request type rest r Hm Htype Hct. unfold read_body.
  destruct (String.eqb_spec (r_method request) "GET") as [E|_]; [done |].
  rewrite Hct, append_semicolon_nonempty. by rewrite before_semicolon_app.
Qed.

Lemma content_type_parameters_are_dropped_witness :
  read_body [] {| r_method := "POST"; r_url := Some ("/", None);
                  r_headers := [("content-type", "text/plain;charset=utf-8")];
                  r_json := None; r_text := "hi"; r_urlencoded := []; r_form := [] |}
            (start_run (fst echo_built) (snd echo_built) (post_text "/" "x"))
  = (inl (VStr "hi"), start_run (fst echo_built) (snd echo_built) (post_text "/" "x")).
Proof.
  rewrite (content_type_parameters_are_dropped [] _ "text/plain" "charset=utf-8");
    [reflexivity | discriminate | reflexivity | reflexivity].
Defined.

Lemma parse_hooks_prefix arg contentType pre s0 s :
  all_decline arg pre s0 s ->
  forall rest r i, arg = VStr contentType -> u r = s0 ->
    parse_hooks (pre ++ rest) contentType i r
    = parse_hooks rest contentType (i + length pre)
        (advance r s (CParse <$> seq i (length pre))).
Proof.
  induction 1 as [s|f fs s s1 s2 Hf _ IH]; intros rest r i -> Hu.
  - simpl. rewrite Nat.add_0_r. subst s. by rewrite advance_same.
  - subst s. cbn [app parse_hooks length].
    rewrite (bind_inl _ _ _ _ _ (invoke_return _ _ _ _ _ _ Hf)).
    rewrite (IH rest (advance r s1 [CParse i]) (S i) eq_refl eq_refl), advance_advance.
    by replace (i + S (length fs)) with (S i + length fs) by lia.
Qed.

(** X5.  The body is the result of the first parser that returns
    something other than [undefined] ([null] included): the parsers
    after it are not called and the default decoder is not used.  When
    every parser returns [undefined], the body is what the default
    decoder for the content type gives. *)
Theorem first_parser_result_is_the_body :
  forall request type r,
    r_method request <> "GET" ->
    type <> "" -> before_semicolon type = type ->
    headers_get "content-type" request = Some type ->
    (forall pre f post s1 v s2,
        all_decline (VStr type) pre (u r) s1 ->
        f (VStr type) s1 = (Return v, s2) -> v <> VUndefined ->
        read_body (pre ++ f :: post) request r
        = (inl v, advance r s2 (CParse <$> seq 0 (S (length pre)))))
    /\ (forall parse s,
        all_decline (VStr type) parse (u r) s ->
        read_body parse request r
        = default_body request type (advance r s (CParse <$> seq 0 (length parse)))).
Proof.
  intros request type r Hm Hne Htype Hct.
  assert (Hread : forall parse,
             read_body parse request r
             = (body <- parse_hooks parse type 0 ;;
                match body with
                | VUndefined => default_body request type
                | _ => ret body
                end) r).
  { intros parse. unfold read_body.
    destruct (String.eqb_spec (r_method request) "GET") as [E|_]; [done |].
    rewrite Hct. destruct (String.eqb_spec type "") as [E|_]; [done |]. by rewrite Htype. }
  split.
  - intros pre f post s1 v s2 Hpre Hf Hv. rewrite Hread.
    assert (H : parse_hooks (pre ++ f :: post) type 0 r
                = (inl v, advance r s2 (CParse <$> seq 0 (S (length pre))))).
    { rewrite (parse_hooks_prefix _ _ _ _ _ Hpre (f :: post) r 0 eq_refl eq_refl).
      cbn [parse_hooks].
      rewrite (bind_inl _ _ _ _ _
                 (invoke_return (CParse (0 + length pre)) f (VStr type)
                    (advance r s1 (CParse <$> seq 0 (length pre))) v s2 Hf)).
      rewrite advance_advance, seq_snoc_fmap. by destruct v. }
    rewrite (bind_inl _ _ _ _ _ H). by destruct v.
  - intros parse s Hall. rewrite Hread.
    pose proof (parse_hooks_prefix _ _ _ _ _ Hall [] r 0 eq_refl eq_refl) as H.
    rewrite app_nil_r in H. cbn [parse_hooks] in H.
    by rewrite (bind_inl _ _ _ _ _ H).
Qed.

Lemma first_parser_result_is_the_body_witness :
  read_body [returns VUndefined; returns VNull; second_parser] (post_text "/" "x")
            (start_run (fst echo_built) (snd echo_built) (post_text "/" "x"))
  = (inl VNull, advance (start_run (fst echo_built) (snd echo_built) (post_text "/" "x"))
                        (u (start_run (fst echo_built) (snd echo_built) (post_text "/" "x")))
                        [CParse 0; CParse 1]).
Proof.
  apply (proj1 (first_parser_result_is_the_body (post_text "/" "x") "text/plain"
                  (start_run (fst echo_built) (snd echo_built) (post_text "/" "x"))
                  ltac:(discriminate) ltac:(discriminate) eq_refl eq_refl)
           [returns VUndefined] (returns VNull) [second_parser]
           (u (start_run (fst echo_built) (snd echo_built) (post_text "/" "x")))
           VNull
           (u (start_run (fst echo_built) (snd echo_built) (post_text "/" "x")))).
  - apply (all_decline_cons _ _ _ _ _ _ eq_refl). constructor.
  - reflexivity.
  - discriminate.
Defined.

(** ** The [afterHandle] hooks after the handler *)

Lemma afterHandle_hooks_prefix response pre s0 s :
  all_pass response pre s0 s ->
  forall rest r i, u r = s0 ->
    afterHandle_hooks (pre ++ rest) response i r
    = afterHandle_hooks rest response (i + length pre)
        (advance r s (CAfterHandle <$> seq i (length pre))).
Proof.
  induction 1 as [s|f fs s s1 s2 v Hf Hv _ IH]; intros rest r i Hu.
  - simpl. rewrite Nat.add_0_r. subst s. by rewrite advance_same.
  - subst s. cbn [app afterHandle_hooks length].
    rewrite (bind_inl _ _ _ _ _ (invoke_return _ _ _ _ _ _ Hf)), get_ctx_bind.
    unfold mapEarlyResponse. rewrite Hv.
    rewrite (IH rest (advance r s1 [CAfterHandle i]) (S i) eq_refl), advance_advance.
    by replace (i + S (length fs)) with (S i + length fs) by lia.
Qed.

Lemma from_handler_returned w entry r v s :
  mh_handle entry VUndefined (u r) = (Return v, s) ->
  mh_validator entry ≫= v_response = None ->
  from_handler w entry r
  = (late <- afterHandle_hooks (route_afterHandle w entry) v 0 ;;
     match late with
     | Some result => ret result
     | None => c <- get_ctx ;; ret (mapResponse v (c_set c))
     end) (advance r s [CHandler]).
Proof.
  intros Hh Hv. unfold from_handler.
  rewrite (bind_inl _ _ _ _ _ (invoke_return _ _ _ _ _ _ Hh)).
  unfold validate_response. rewrite Hv. unfold bind at 1, ret at 1.
  unfold route_afterHandle. by destruct (mh_hooks entry).
Qed.

(** X6.  After the handler has returned, the [afterHandle] hooks are
    called in order with the handler's value, and the first result that
    is neither [null] nor [undefined] is the response: the hooks after it
    are not called and the handler's value is dropped.  (In the
    [beforeHandle] short-circuit every hook runs and a result replaces
    the running value.)  When every hook declines, the response is the
    handler's value.  For a route without a response schema. *)
Theorem afterHandle_first_answer_wins :
  forall this w request pathname search entry params r1 r2 s0 v s1,
    request_hooks (deref w (ev_request (event this))) 0 (start_run this w request)
    = (inl None, r1) ->
    r_url request = Some (pathname, search) ->
    matched this request pathname = Some (entry, params) ->
    enter_route this w request search entry params r1 = (inl tt, r2) ->
    all_pass VUndefined (route_beforeHandle w entry) (u r2) s0 ->
    mh_handle entry VUndefined s0 = (Return v, s1) ->
    mh_validator entry ≫= v_response = None ->
    let before := CBeforeHandle <$> seq 0 (length (route_beforeHandle w entry)) in
    (forall pre f post s2 nv s3,
        route_afterHandle w entry = pre ++ f :: post ->
        all_pass v pre s1 s2 ->
        f v s2 = (Return nv, s3) -> nullish nv = false ->
        handle (this, w) request
        = (inl (mapResponse nv (c_set (ctx s3))),
           (with_decorators (ctx s3) this, with_store (store s3) w),
           calls r2 ++ before ++ [CHandler] ++ (CAfterHandle <$> seq 0 (S (length pre)))))
    /\ (forall s2,
        all_pass v (route_afterHandle w entry) s1 s2 ->
        handle (this, w) request
        = (inl (mapResponse v (c_set (ctx s2))),
           (with_decorators (ctx s2) this, with_store (store s2) w),
           calls r2 ++ before ++ [CHandler]
             ++ (CAfterHandle <$> seq 0 (length (route_afterHandle w entry))))).
Proof.
  intros this w request pathname search entry params r1 r2 s0 v s1
         Hreq Hurl Hm Henter Hbefore Hh Hv before.
  pose proof (attempt_reaches _ _ _ _ _ _ _ _ _ Hreq Hurl Hm Henter) as Hatt.
  assert (Hstep : from_beforeHandle w entry r2 = from_handler w entry (advance r2 s0 before)).
  { rewrite from_beforeHandle_unfold. unfold bind at 1.
    rewrite <- (app_nil_r (route_beforeHandle w entry)) at 1.
    rewrite (beforeHandle_hooks_pass _ _ _ Hbefore _ _ _ _ eq_refl). reflexivity. }
  rewrite Hstep in Hatt.
  rewrite (from_handler_returned w entry (advance r2 s0 before) v s1 Hh Hv) in Hatt.
  rewrite advance_advance in Hatt.
  split.
  - intros pre f post s2 nv s3 Hsplit Hpre Hf Hnv.
    assert (H : afterHandle_hooks (route_afterHandle w entry) v 0
                  (advance r2 s1 (before ++ [CHandler]))
                = (inl (Some (mapResponse nv (c_set (ctx s3)))),
                   advance r2 s3 ((before ++ [CHandler])
                                  ++ (CAfterHandle <$> seq 0 (S (length pre)))))).
    { rewrite Hsplit.
      rewrite (afterHandle_hooks_prefix _ _ _ _ Hpre (f :: post)
                 (advance r2 s1 (before ++ [CHandler])) 0 eq_refl).
      cbn [afterHandle_hooks].
      rewrite (bind_inl _ _ _ _ _
                 (invoke_return (CAfterHandle (0 + length pre)) f v
                    (advance (advance r2 s1 (before ++ [CHandler])) s2
                             (CAfterHandle <$> seq 0 (length pre))) nv s3 Hf)).
      rewrite get_ctx_bind. unfold mapEarlyResponse. rewrite Hnv.
      by rewrite !advance_advance, <- app_assoc, seq_snoc_fmap, app_assoc. }
    rewrite (bind_inl _ _ _ _ _ H) in Hatt.
    rewrite (handle_of_return _ _ _ _ _ Hatt). cbn [advance u calls].
    by rewrite <- !app_assoc.
  - intros s2 Hall.
    pose proof (afterHandle_hooks_prefix _ _ _ _ Hall []
                  (advance r2 s1 (before ++ [CHandler])) 0 eq_refl) as H.
    rewrite app_nil_r, advance_advance in H. cbn [afterHandle_hooks] in H.
    rewrite (bind_inl _ _ _ _ _ H), get_ctx_bind in Hatt.
    rewrite (handle_of_return _ _ _ _ _ Hatt). cbn [advance u calls].
    by rewrite <- !app_assoc.
Qed.

Lemma afterHandle_first_answer_wins_witness :
  result_of (handle after_answer_built (get_request "/" None []))
  = inl (mkResponse 200 [] (VStr "after"))
  /\ calls_of (handle after_answer_built (get_request "/" None []))
     = [CHandler; CAfterHandle 0; CAfterHandle 1].
Proof.
  edestruct (afterHandle_first_answer_wins
               (fst after_answer_built) (snd after_answer_built)
               (get_request "/" None []) "/" None) as (HA & _);
    [vm_compute; reflexivity | reflexivity | vm_compute; reflexivity
    | vm_compute; reflexivity | vm_compute; constructor | reflexivity | reflexivity |].
  specialize (HA [returns VUndefined] (returns (VStr "after")) [returns (VStr "later")]
                 _ _ _ eq_refl
                 ltac:(econstructor; [reflexivity | reflexivity | constructor])
                 eq_refl eq_refl).
  change after_answer_built with (fst after_answer_built, snd after_answer_built).
  rewrite HA. split; reflexivity.
Defined.

(** ** The calls of a request are made in pipeline order *)

Lemma sorted_app {A} (R : A -> A -> Prop) (l1 l2 : list A) :
  StronglySorted R l1 -> StronglySorted R l2 ->
  (forall x y, In x l1 -> In y l2 -> R x y) ->
  StronglySorted R (l1 ++ l2).
Proof.
  induction 1 as [|x l1 _ IH Hx]; intros H2 Hc; [done |].
  simpl. apply SSorted_cons.
  - apply IH; [done |]. intros a b Ha Hb. apply Hc; [by right | done].
  - apply List.Forall_app. split; [done |].
    apply List.Forall_forall. intros y Hy. apply Hc; [by left | done].
Qed.


Lemma indexed_before tag j j' : indexed tag -> j < j' -> before (tag j) (tag j').
Proof.
  intros Ht Hlt. right.
  destruct (Ht j) as [-> ->]. destruct (Ht j') as [-> ->]. done.
Qed.

Lemma indexed_stage tag i c : indexed tag -> from_index tag i c -> stage c = stage (tag 0).
Proof. intros Ht (j & _ & ->). apply Ht. Qed.

Lemma emits_weaken (P Q : Call -> Prop) {A} (m : Exec A) :
  (forall c, P c -> Q c) -> emits P m -> emits Q m.
Proof.
  intros HPQ Hm r x r' H. destruct (Hm _ _ _ H) as (new & Hnew & Hs & HF).
  exists new. split; [done |]. split; [done |]. by apply (List.Forall_impl _ HPQ).
Qed.

Lemma quiet_emits (P : Call -> Prop) {A} (m : Exec A) : quiet m -> emits P m.
Proof.
  intros Hm r x r' H. exists []. rewrite app_nil_r.
  split; [exact (Hm _ _ _ H) |]. split; constructor.
Qed.

Lemma emits_bind (P Q : Call -> Prop) {A B} (m : Exec A) (k : A -> Exec B) :
  emits P m -> (forall x, emits Q (k x)) ->
  (forall c d, P c -> Q d -> before c d) ->
  emits (fun c => P c \/ Q c) (bind m k).
Proof.
  intros Hm Hk Hord r y r' H. unfold bind in H.
  destruct (m r) as [[x|e] r1] eqn:E.
  - destruct (Hm _ _ _ E) as (l1 & H1 & S1 & F1).
    destruct (Hk _ _ _ _ H) as (l2 & H2 & S2 & F2).
    exists (l1 ++ l2). rewrite H2, H1, app_assoc. split; [done |]. split.
    + apply sorted_app; [done | done |]. intros c d Hc Hd.
      apply Hord; [exact (proj1 (List.Forall_forall _ _) F1 c Hc)
                  | exact (proj1 (List.Forall_forall _ _) F2 d Hd)].
    + apply List.Forall_app.
      split; [eapply List.Forall_impl; [| exact F1] | eapply List.Forall_impl; [| exact F2]];
        simpl; tauto.
  - injection H as <- <-. destruct (Hm _ _ _ E) as (l1 & H1 & S1 & F1).
    exists l1. split; [done |]. split; [done |].
    eapply List.Forall_impl; [| exact F1]. simpl. tauto.
Qed.




Lemma emits_call tag f arg : emits (eq tag) (invoke tag f arg).
Proof.
  intros r y r' H. unfold invoke in H. destruct (f arg (u r)) as [o s].
  injection H as <- <-. exists [tag]. split; [done |].
  split; repeat constructor.
Qed.


Lemma emits_loop_step tag i {B} (m : Exec value) (k : value -> Exec B) :
  indexed tag ->
  emits (eq (tag i)) m ->
  (forall x, emits (from_index tag (S i)) (k x)) ->
  emits (from_index tag i) (bind m k).
Proof.
  intros Ht Hm Hk.
  apply (emits_weaken (fun c => tag i = c \/ from_index tag (S i) c)).
  - intros c [<- | (j & Hj & ->)]; [by exists i | exists j; split; [lia | done]].
  - apply emits_bind; [done | done |].
    intros c d <- (j & Hj & ->). apply indexed_before; [done | lia].
Qed.

Lemma quiet_ret {A} (x : A) : quiet (ret x).
Proof. by intros r y r' [= <- <-]. Qed.










Lemma indexed_CBeforeHandle : indexed CBeforeHandle. Proof. by intros j. Qed.
Lemma indexed_CAfterHandle : indexed CAfterHandle. Proof. by intros j. Qed.




Lemma emits_afterHandle_early afters :
  forall response i, emits (from_index CAfterHandle i) (afterHandle_early afters response i).
Proof.
  induction afters as [|f rest IH]; intros response i; [apply quiet_emits, quiet_ret |].
  cbn [afterHandle_early].
  apply emits_loop_step; [apply indexed_CAfterHandle | apply emits_call |].
  intros newResponse. apply IH.
Qed.




Lemma from_index_stage tag i s :
  indexed tag -> stage (tag 0) = s -> forall c, from_index tag i c -> in_stages s s c.
Proof.
  intros Ht Hs c Hc. unfold in_stages. rewrite (indexed_stage _ _ _ Ht Hc), Hs. lia.
Qed.

(** The inner loop of the short-circuit ends the request: the running
    value stays defined, so it always maps to a response. *)
Lemma emits_short_circuit afters response (k : Exec (option Response)) :
  nullish response = false ->
  emits (in_stages 5 5)
    (response <- afterHandle_early afters response 0 ;;
     c <- get_ctx ;;
     match mapEarlyResponse response (c_set c) with
     | Some result => ret (Some result)
     | None => k
     end).
Proof.
  intros Hv r y r' H. unfold bind at 1 in H.
  destruct (afterHandle_early afters response 0 r) as [[v'|e] r1] eqn:E.
  - rewrite get_ctx_bind in H. unfold mapEarlyResponse in H.
    rewrite (afterHandle_early_defined _ _ _ _ _ _ Hv E) in H. injection H as <- <-.
    refine (emits_weaken _ _ _ (from_index_stage _ 0 5 indexed_CAfterHandle eq_refl)
              (emits_afterHandle_early afters response 0) _ _ _ E).
  - injection H as <- <-.
    refine (emits_weaken _ _ _ (from_index_stage _ 0 5 indexed_CAfterHandle eq_refl)
              (emits_afterHandle_early afters response 0) _ _ _ E).
Qed.

Lemma emits_beforeHandle_hooks hs afters :
  forall i,
    emits (fun c => from_index CBeforeHandle i c \/ in_stages 5 5 c)
          (beforeHandle_hooks hs afters i).
Proof.
  induction hs as [|f rest IH]; intros i; [apply quiet_emits, quiet_ret |].
  cbn [beforeHandle_hooks].
  apply (emits_weaken (fun c => CBeforeHandle i = c
                                \/ (from_index CBeforeHandle (S i) c \/ in_stages 5 5 c))).
  { intros c [<- | [(j & Hj & ->) | H]];
      [left; by exists i | left; exists j; split; [lia | done] | by right]. }
  apply emits_bind; [apply emits_call | |].
  - intros response. destruct (nullish response) eqn:Hn; [apply IH |].
    apply (emits_weaken (in_stages 5 5)); [by right |]. by apply emits_short_circuit.
  - intros c d <- [(j & Hj & ->) | Hd].
    + apply (indexed_before CBeforeHandle); [apply indexed_CBeforeHandle | lia].
    + left. unfold in_stages in Hd. simpl. lia.
Qed.










(** ** Registration of hooks *)

Lemma event_array_inj e type other :
  NoDup (event_locs e) -> event_array type e = event_array other e -> type = other.
Proof.
  unfold event_locs. rewrite !list.NoDup_cons, !not_elem_of_cons.
  destruct type, other; simpl; try done; intuition congruence.
Qed.

Lemma wf_event_array type this w :
  wf (this, w) -> event_array type (event this) < length (arrays w).
Proof.
  intros (Hv & _ & _). cbn [fst snd] in Hv. rewrite List.Forall_forall in Hv.
  apply Hv. apply list_elem_of_In, event_array_in.
Qed.

Lemma deref_write w (a : loc) (fs : list Callback) :
  a < length (arrays w) ->
  deref {| arrays := <[a := fs]> (arrays w); w_store := w_store w |} a = fs.
Proof. intros Ha. unfold deref. cbn [arrays]. by rewrite list_lookup_insert_eq. Qed.

(** X8.  [on(type, handler)] appends the handler to the array of its
    event and changes nothing else: the arrays of the other events and
    the arrays stored with the routes registered so far stay as they
    are.  The named methods other than [onParse] are the same function. *)
Theorem on_appends_to_one_event :
  forall (calls : list Build) (type : LifeCycleEvent) (h : Callback),
    let app := build calls in
    hooks_of type (on type h app) = hooks_of type app ++ [h]
    /\ (forall other, other <> type -> hooks_of other (on type h app) = hooks_of other app)
    /\ (forall l, l ∈ router_locs (fst app) ->
          deref (snd (on type h app)) l = deref (snd app) l)
    /\ fst (on type h app) = fst app
    /\ (onStart h app = on EvStart h app
        /\ onRequest h app = on EvRequest h app
        /\ onTransform h app = on EvTransform h app
        /\ onBeforeHandle h app = on EvBeforeHandle h app
        /\ onAfterHandle h app = on EvAfterHandle h app
        /\ onError h app = on EvError h app
        /\ onStop h app = on EvStop h app).
Proof.
  intros calls type h app. pose proof (wf_build calls) as Hwf. fold app in Hwf.
  destruct app as [this w]. unfold hooks_of, on, push. cbn [fst snd].
  split; [| split; [| split; [| split]]].
  - apply deref_write. by apply wf_event_array.
  - intros other Hne. apply deref_write_ne. intros Heq. apply Hne.
    destruct Hwf as (_ & Hnd & _). by apply (event_array_inj (event this)).
  - intros l Hl. apply deref_write_ne. apply (router_locs_apart this w); [done | | done].
    apply event_array_in.
  - done.
  - done.
Qed.

(** X9.  [onParse] inserts the parser before the last parser of the
    array; only on an empty array is that an append.  The arrays of the
    other events stay as they are. *)
Theorem onParse_inserts_before_the_last_parser :
  forall (calls : list Build) (p : Callback),
    let app := build calls in
    (hooks_of EvParse app = [] -> hooks_of EvParse (onParse p app) = [p])
    /\ (forall l y, hooks_of EvParse app = l ++ [y] ->
          hooks_of EvParse (onParse p app) = l ++ [p; y])
    /\ (forall other, other <> EvParse ->
          hooks_of other (onParse p app) = hooks_of other app).
Proof.
  intros calls p app. pose proof (wf_build calls) as Hwf. fold app in Hwf.
  destruct app as [this w]. unfold hooks_of, onParse, splice. cbn [fst snd event_array].
  pose proof (wf_event_array EvParse this w Hwf) as Hv. cbn [event_array] in Hv.
  split; [| split].
  - intros He. rewrite deref_write by done. by rewrite He.
  - intros l y He. rewrite deref_write by done. rewrite He. apply splice_before_last.
  - intros other Hne. apply deref_write_ne. intros Heq. apply Hne.
    destruct Hwf as (_ & Hnd & _). by apply (event_array_inj (event this) other EvParse).
Qed.

Lemma onParse_inserts_before_the_last_parser_witness :
  hooks_of EvParse (onParse second_parser (build [BOnParse first_parser]))
  = [] ++ [second_parser; first_parser].
Proof.
  apply (proj1 (proj2 (onParse_inserts_before_the_last_parser
                         [BOnParse first_parser] second_parser)) [] first_parser).
  vm_compute. reflexivity.
Defined.

(** ** The hooks stored with a route *)

Lemma alloc_inv fs w (l : loc) w1 :
  alloc fs w = (l, w1) ->
  extends w w1 /\ (forall w', extends w1 w' -> deref w' l = fs).
Proof.
  intros [= <- <-]. split; [apply (alloc_extends fs w) |].
  intros w' Hx. rewrite (extends_deref _ _ _ Hx).
  - apply alloc_deref.
  - cbn [arrays]. rewrite length_app. simpl. lia.
Qed.

Lemma as_array_extends w w' a :
  extends w w' -> arg_in_heap w a -> as_array w' a = as_array w a.
Proof.
  intros Hx Ha. destruct a as [[f|fs|l]|]; try done. simpl in *. by apply extends_deref.
Qed.

Lemma arg_in_heap_bind w (b : option LocalHook) (sel : LocalHook -> option HookArg) :
  (forall h, b = Some h -> arg_in_heap w (sel h)) -> arg_in_heap w (b ≫= sel).
Proof. destruct b as [h|]; [| done]. intros H. by apply H. Qed.

Lemma mergeHook_arrays a b w :
  hook_in_heap w a ->
  (forall h, b = Some h -> hook_in_heap w h) ->
  let h := fst (mergeHook a b w) in
  let w' := snd (mergeHook a b w) in
  deref w' (rh_transform h) = as_array w (h_transform a) ++ as_array w (b ≫= h_transform)
  /\ deref w' (rh_beforeHandle h)
     = as_array w (h_beforeHandle a) ++ as_array w (b ≫= h_beforeHandle)
  /\ deref w' (rh_parse h) = as_array w (h_parse a) ++ as_array w (b ≫= h_parse)
  /\ deref w' (rh_afterHandle h)
     = as_array w (h_afterHandle a) ++ as_array w (b ≫= h_afterHandle)
  /\ deref w' (rh_error h) = as_array w (h_error a) ++ as_array w (b ≫= h_error).
Proof.
  intros (A1 & A2 & A3 & A4 & A5) Hb.
  assert (B1 : arg_in_heap w (b ≫= h_transform))
    by (apply arg_in_heap_bind; intros h Hh; apply (Hb h Hh)).
  assert (B2 : arg_in_heap w (b ≫= h_beforeHandle))
    by (apply arg_in_heap_bind; intros h Hh; apply (Hb h Hh)).
  assert (B3 : arg_in_heap w (b ≫= h_parse))
    by (apply arg_in_heap_bind; intros h Hh; apply (Hb h Hh)).
  assert (B4 : arg_in_heap w (b ≫= h_afterHandle))
    by (apply arg_in_heap_bind; intros h Hh; apply (Hb h Hh)).
  assert (B5 : arg_in_heap w (b ≫= h_error))
    by (apply arg_in_heap_bind; intros h Hh; apply (Hb h Hh)).
  unfold mergeHook, mergeObjectArray.
  destruct (alloc _ w) as [l1 w1] eqn:E1. destruct (alloc _ w1) as [l2 w2] eqn:E2.
  destruct (alloc _ w2) as [l3 w3] eqn:E3. destruct (alloc _ w3) as [l4 w4] eqn:E4.
  destruct (alloc _ w4) as [l5 w5] eqn:E5.
  cbn [fst snd rh_transform rh_beforeHandle rh_parse rh_afterHandle rh_error].
  apply alloc_inv in E1 as (X1 & D1). apply alloc_inv in E2 as (X2 & D2).
  apply alloc_inv in E3 as (X3 & D3). apply alloc_inv in E4 as (X4 & D4).
  apply alloc_inv in E5 as (X5 & D5).
  pose proof (extends_trans _ _ _ X1 X2) as X12.
  pose proof (extends_trans _ _ _ X12 X3) as X13.
  pose proof (extends_trans _ _ _ X13 X4) as X14.
  pose proof (extends_trans _ _ _ X2 (extends_trans _ _ _ X3 (extends_trans _ _ _ X4 X5)))
    as X25.
  pose proof (extends_trans _ _ _ X3 (extends_trans _ _ _ X4 X5)) as X35.
  pose proof (extends_trans _ _ _ X4 X5) as X45.
  split; [by apply D1 |].
  split; [rewrite (D2 _ X35); by rewrite !(as_array_extends w w1) |].
  split; [rewrite (D3 _ X45); by rewrite !(as_array_extends w w2) |].
  split; [rewrite (D4 _ X5); by rewrite !(as_array_extends w w3) |].
  rewrite (D5 _ (extends_refl _)). by rewrite !(as_array_extends w w4).
Qed.

Lemma wf_event_in_heap this w : wf (this, w) -> hook_in_heap w (event_as_local (event this)).
Proof.
  intros Hwf. unfold hook_in_heap, event_as_local, arg_in_heap.
  cbn [h_transform h_beforeHandle h_parse h_afterHandle h_error].
  repeat split.
  - apply (wf_event_array EvTransform _ _ Hwf).
  - apply (wf_event_array EvBeforeHandle _ _ Hwf).
  - apply (wf_event_array EvParse _ _ Hwf).
  - apply (wf_event_array EvAfterHandle _ _ Hwf).
  - apply (wf_event_array EvError _ _ Hwf).
Qed.

Lemma hook_in_heap_extends w w' h : extends w w' -> hook_in_heap w h -> hook_in_heap w' h.
Proof.
  intros Hx (H1 & H2 & H3 & H4 & H5). pose proof (extends_length _ _ Hx) as Hl.
  unfold hook_in_heap, arg_in_heap in *.
  repeat split;
    match goal with |- match ?a with _ => _ end => destruct a as [[?|?|?]|]; try done; lia end.
Qed.

Lemma addHandler_hooks method path handler hook this w :
  wf (this, w) ->
  (forall h, hook = Some h -> hook_in_heap w h) ->
  let app' := _addHandler method path handler hook (this, w) in
  exists entry,
    router (fst app') = router this ++ [(method, with_slash path, entry)]
    /\ mh_handle entry = handler
    /\ route_hooks rh_transform (snd app') entry
       = deref w (ev_transform (event this)) ++ as_array w (hook ≫= h_transform)
    /\ route_hooks rh_beforeHandle (snd app') entry
       = deref w (ev_beforeHandle (event this)) ++ as_array w (hook ≫= h_beforeHandle)
    /\ route_hooks rh_afterHandle (snd app') entry
       = deref w (ev_afterHandle (event this)) ++ as_array w (hook ≫= h_afterHandle)
    /\ route_hooks rh_error (snd app') entry
       = deref w (ev_error (event this)) ++ as_array w (hook ≫= h_error).
Proof.
  intros Hwf Hhook. unfold _addHandler.
  pose proof (mergeHook_spec (event_as_local (event this)) hook w) as (X1 & _ & _).
  destruct (mergeHook (event_as_local (event this)) hook w) as [route_hooks' w1].
  cbn [snd] in X1.
  pose proof (mergeHook_arrays (event_as_local (clone (event this))) hook w1
                (hook_in_heap_extends _ _ _ X1 (wf_event_in_heap _ _ Hwf))
                (fun h Hh => hook_in_heap_extends _ _ _ X1 (Hhook h Hh)))
    as (M1 & M2 & _ & M4 & M5).
  destruct (mergeHook (event_as_local (clone (event this))) hook w1) as [hooks w2].
  cbn [fst snd] in *. cbn [router fst snd]. unfold Raikiri.add, with_slash.
  eexists. split; [reflexivity |]. cbn [mh_handle]. split; [done |].
  unfold clone in *.
  cbn [event_as_local h_transform h_beforeHandle h_afterHandle h_error as_array]
    in M1, M2, M4, M5.
  assert (A : forall (a : option HookArg),
             arg_in_heap w a -> as_array w1 a = as_array w a)
    by (intros a; by apply as_array_extends).
  assert (B : forall sel : LocalHook -> option HookArg,
             (forall h, hook = Some h -> arg_in_heap w (sel h)) ->
             as_array w1 (hook ≫= sel) = as_array w (hook ≫= sel)).
  { intros sel Hsel. apply A. by apply arg_in_heap_bind. }
  rewrite (extends_deref _ _ (ev_transform (event this)) X1 (wf_event_array EvTransform _ _ Hwf)),
    (B h_transform (fun h Hh => proj1 (Hhook h Hh))) in M1.
  rewrite (extends_deref _ _ (ev_beforeHandle (event this)) X1 (wf_event_array EvBeforeHandle _ _ Hwf)),
    (B h_beforeHandle (fun h Hh => proj1 (proj2 (Hhook h Hh)))) in M2.
  rewrite (extends_deref _ _ (ev_afterHandle (event this)) X1 (wf_event_array EvAfterHandle _ _ Hwf)),
    (B h_afterHandle (fun h Hh => proj1 (proj2 (proj2 (proj2 (Hhook h Hh)))))) in M4.
  rewrite (extends_deref _ _ (ev_error (event this)) X1 (wf_event_array EvError _ _ Hwf)),
    (B h_error (fun h Hh => proj2 (proj2 (proj2 (proj2 (Hhook h Hh)))))) in M5.
  cbn [event_array] in M1, M2, M4, M5.
  unfold route_hooks. cbn [mh_hooks].
  match goal with |- context [if ?c then None else Some hooks] => destruct c eqn:Hc end;
    [| done].
  rewrite !andb_true_iff, !bool_decide_eq_true in Hc.
  destruct Hc as ((((_ & L1) & L2) & L5) & L4).
  apply length_zero_iff_nil in L1, L2, L4, L5.
  rewrite L1 in M1. rewrite L2 in M2. rewrite L4 in M4. rewrite L5 in M5. done.
Qed.

(** X10.  A route is stored with the hooks of its scope followed by its
    own: its [transform], [beforeHandle], [afterHandle] and [error]
    arrays are the arrays of the scope's events as they are when the
    route is registered, then the hooks of the route's own hook object.
    So global hooks run before local ones. *)
Theorem route_runs_scope_hooks_before_its_own :
  forall (calls : list Build) (method path : string) (handler : Callback)
         (hook : option LocalHook),
    let app := build calls in
    let app' := route method path handler hook app in
    (forall h, hook = Some h -> hook_in_heap (snd app) h) ->
    exists entry,
      router (fst app') = router (fst app) ++ [(method, with_slash path, entry)]
      /\ mh_handle entry = handler
      /\ route_hooks rh_transform (snd app') entry
         = hooks_of EvTransform app ++ as_array (snd app) (hook ≫= h_transform)
      /\ route_hooks rh_beforeHandle (snd app') entry
         = hooks_of EvBeforeHandle app ++ as_array (snd app) (hook ≫= h_beforeHandle)
      /\ route_hooks rh_afterHandle (snd app') entry
         = hooks_of EvAfterHandle app ++ as_array (snd app) (hook ≫= h_afterHandle)
      /\ route_hooks rh_error (snd app') entry
         = hooks_of EvError app ++ as_array (snd app) (hook ≫= h_error).
Proof.
  intros calls method path handler hook app app' Hhook.
  pose proof (wf_build calls) as Hwf. fold app in Hwf. subst app'.
  destruct app as [this w]. exact (addHandler_hooks method path handler hook this w Hwf Hhook).
Qed.

Lemma route_runs_scope_hooks_before_its_own_witness :
  exists entry,
    router (fst (route "GET" "a" (returns VNull)
                       (Some (before_and_schema first_parser no_schema))
                       (build [BOnBeforeHandle second_parser])))
    = router (fst (build [BOnBeforeHandle second_parser])) ++ [("GET", "/a", entry)]
    /\ route_hooks rh_beforeHandle
         (snd (route "GET" "a" (returns VNull)
                     (Some (before_and_schema first_parser no_schema))
                     (build [BOnBeforeHandle second_parser]))) entry
       = [second_parser; first_parser].
Proof.
  destruct (route_runs_scope_hooks_before_its_own
              [BOnBeforeHandle second_parser] "GET" "a" (returns VNull)
              (Some (before_and_schema first_parser no_schema)))
    as (entry & H1 & _ & _ & H3 & _).
  - intros h [= <-]. vm_compute. tauto.
  - exists entry. split; [exact H1 | exact H3].
Defined.

(** ** The routes of a group or guard *)

Lemma with_slash_starts path : starts_with_slash (with_slash path) = true.
Proof. unfold with_slash. by destruct (starts_with_slash path) eqn:E. Qed.

Lemma with_slash_fixed path : starts_with_slash path = true -> with_slash path = path.
Proof. unfold with_slash. by intros ->. Qed.

Lemma addHandler_routes method path handler hook app :
  listed <$> routes (fst (_addHandler method path handler hook app))
  = (listed <$> routes (fst app)) ++ [(method, with_slash path, handler)].
Proof.
  destruct app as [this w]. unfold _addHandler.
  destruct (mergeHook _ hook w) as [route_hooks' w1].
  destruct (mergeHook _ hook w1) as [hooks w2].
  cbn [fst routes]. by rewrite fmap_app.
Qed.

Lemma fold_request_hooks_routes sandbox app :
  routes (fst (fold_request_hooks sandbox app)) = routes (fst app).
Proof.
  destruct app as [this w]. unfold fold_request_hooks. by case_bool_decide.
Qed.

Lemma setModel_routes record app : routes (fst (setModel record app)) = routes (fst app).
Proof. by destruct app. Qed.

Lemma fold_routes (place : InternalRoute -> string)
    (step : App -> InternalRoute -> App) (rs : list InternalRoute) :
  (forall app r,
      listed <$> routes (fst (step app r))
      = (listed <$> routes (fst app)) ++ [(ir_method r, with_slash (place r), ir_handler r)]) ->
  forall app,
    listed <$> routes (fst (fold_left step rs app))
    = (listed <$> routes (fst app))
      ++ ((fun r => (ir_method r, with_slash (place r), ir_handler r)) <$> rs).
Proof.
  intros Hstep. induction rs as [|r rs IH]; intros app; simpl.
  - by rewrite app_nil_r.
  - rewrite IH, Hstep, <- app_assoc. done.
Qed.

Lemma group_routes (prefix : string) (run : App -> App) (app : App) :
  listed <$> routes (fst (group prefix run app))
  = (listed <$> routes (fst app))
    ++ ((fun r => (ir_method r, with_slash (prefixed prefix r), ir_handler r))
          <$> routes (fst (run (newElysia (snd app))))).
Proof.
  destruct app as [this w]. cbn [snd].
  unfold group. destruct (run (newElysia w)) as [sandbox w1]. cbn [fst].
  rewrite (fold_routes (prefixed prefix)).
  - by rewrite setModel_routes, fold_request_hooks_routes.
  - intros [this' w'] r. destruct (mergeHook _ _ w') as [hooks w2].
    exact (addHandler_routes _ _ _ _ (this', w2)).
Qed.

Lemma guard_routes (hook : LocalHook) (run : App -> App) (app : App) :
  listed <$> routes (fst (guard hook run app))
  = (listed <$> routes (fst app))
    ++ ((fun r => (ir_method r, with_slash (ir_path r), ir_handler r))
          <$> routes (fst (run (newElysia (snd app))))).
Proof.
  destruct app as [this w]. cbn [snd].
  unfold guard. destruct (run (newElysia w)) as [sandbox w1]. cbn [fst].
  rewrite (fold_routes ir_path).
  - by rewrite setModel_routes, fold_request_hooks_routes.
  - intros [this' w'] r. destruct (mergeHook _ _ w') as [hooks w2].
    exact (addHandler_routes _ _ _ _ (this', w2)).
Qed.

Lemma slashed_listed (rs : list InternalRoute) :
  Forall (fun k => starts_with_slash (snd (fst k)) = true) (listed <$> rs) ->
  Forall (fun r => starts_with_slash (ir_path r) = true) rs.
Proof.
  induction rs as [|r rs IH]; [constructor |]. rewrite fmap_cons. intros H.
  apply list.Forall_cons in H as [H1 H2]. apply Forall_cons; [exact H1 | by apply IH].
Qed.

Lemma listed_slashed (rs : list InternalRoute) :
  Forall (fun r => starts_with_slash (ir_path r) = true) rs ->
  Forall (fun k => starts_with_slash (snd (fst k)) = true) (listed <$> rs).
Proof.
  induction 1 as [|r rs H1 _ IH]; [constructor |]. rewrite fmap_cons.
  apply Forall_cons; [exact H1 | exact IH].
Qed.

Lemma exec_slashed b app :
  Forall (fun r => starts_with_slash (ir_path r) = true) (routes (fst app)) ->
  Forall (fun r => starts_with_slash (ir_path r) = true) (routes (fst (exec b app))).
Proof.
  intros H.
  assert (Hplaced : forall place (rs : list InternalRoute),
             Forall (fun k : string * string * Callback => starts_with_slash (snd (fst k)) = true)
                    ((fun r => (ir_method r, with_slash (place r), ir_handler r)) <$> rs)).
  { intros place rs. induction rs as [|r rs IH]; [constructor |]. rewrite fmap_cons.
    apply Forall_cons; [apply with_slash_starts | exact IH]. }
  destruct b as [method path handler hook | type handler | handler | handler | parser
                | handler | handler | handler | handler | handler | name v | record
                | prefix body | hook body]; cbn [exec];
    try (destruct app as [this w]; exact H).
  - apply slashed_listed. unfold route. rewrite addHandler_routes.
    apply List.Forall_app. split; [by apply listed_slashed |].
    apply Forall_cons; [apply with_slash_starts | constructor].
  - destruct app as [this w]. unfold state. by destruct (in_store _ _).
  - apply slashed_listed.
    rewrite group_routes.
    apply List.Forall_app. split; [by apply listed_slashed | apply Hplaced].
  - apply slashed_listed.
    rewrite guard_routes.
    apply List.Forall_app. split; [by apply listed_slashed | apply (Hplaced ir_path)].
Qed.

Lemma chain_slashed calls :
  forall app,
    Forall (fun r => starts_with_slash (ir_path r) = true) (routes (fst app)) ->
    Forall (fun r => starts_with_slash (ir_path r) = true) (routes (fst (chain calls app))).
Proof.
  unfold chain. induction calls as [|b calls IH]; intros app H; [done |].
  simpl. apply IH. by apply exec_slashed.
Qed.

(** X11.  [group] registers every route of the child in the parent, in
    the child's order and after the parent's own routes, with the same
    method and handler, under the prefix followed by the child's path
    (the prefix alone for the child's [/]), a missing leading [/] being
    added; [guard] registers them under the child's own path.  Every path
    an application holds starts with [/]. *)
Theorem group_and_guard_register_child_routes :
  forall (before body : list Build) (prefix : string) (hook : LocalHook),
    let parent := build before in
    let child := chain body (newElysia (snd parent)) in
    listed <$> routes (fst (build (before ++ [BGroup prefix body])))
    = (listed <$> routes (fst parent))
      ++ ((fun r => (ir_method r, with_slash (prefixed prefix r), ir_handler r))
            <$> routes (fst child))
    /\ listed <$> routes (fst (build (before ++ [BGuard hook body])))
       = (listed <$> routes (fst parent)) ++ (listed <$> routes (fst child))
    /\ Forall (fun r => starts_with_slash (ir_path r) = true) (routes (fst parent)).
Proof.
  intros before body prefix hook parent child.
  assert (Hs : forall calls app,
             routes (fst app) = [] ->
             Forall (fun r => starts_with_slash (ir_path r) = true)
                    (routes (fst (chain calls app)))).
  { intros calls app Hnil. apply chain_slashed. rewrite Hnil. constructor. }
  assert (Hnew : forall w, routes (fst (newElysia w)) = [])
    by (intros w; apply newElysia_spec).
  split; [| split].
  - unfold build. rewrite chain_snoc. cbn [exec]. apply group_routes.
  - unfold build. rewrite chain_snoc. cbn [exec]. rewrite guard_routes.
    f_equal. apply Forall_fmap_ext_1.
    eapply List.Forall_impl; [| exact (Hs body _ (Hnew _))].
    intros r Hr. unfold listed. by rewrite (with_slash_fixed _ Hr).
  - apply Hs, Hnew.
Qed.

Example group_places_routes_under_prefix :
  ir_path <$> routes (fst (build [BGroup "v1" [BRoute "GET" "/" (returns VNull) None;
                                               BRoute "GET" "a" (returns VNull) None]]))
  = ["/v1"; "/v1/a"].
Proof. vm_compute. reflexivity. Qed.

(** ** What a group or guard leaves of the parent's hooks *)

Lemma fold_request_hooks_other type sandbox this w :
  type <> EvRequest ->
  event_array type (event this) < length (arrays w) ->
  hooks_of type (fold_request_hooks sandbox (this, w)) = deref w (event_array type (event this))
  /\ event_array type (event (fst (fold_request_hooks sandbox (this, w))))
     < length (arrays (snd (fold_request_hooks sandbox (this, w)))).
Proof.
  intros Hne Hv. unfold fold_request_hooks, hooks_of. case_bool_decide as Hn; [done |].
  cbn [fst snd alloc event with_event].
  assert (He : forall e r,
             event_array type {| ev_start := ev_start e; ev_request := r;
                                 ev_parse := ev_parse e; ev_transform := ev_transform e;
                                 ev_beforeHandle := ev_beforeHandle e;
                                 ev_afterHandle := ev_afterHandle e;
                                 ev_error := ev_error e; ev_stop := ev_stop e |}
             = event_array type e) by (intros e r; by destruct type).
  rewrite He. split.
  - apply extends_deref; [| done]. apply (alloc_extends _ w).
  - cbn [arrays]. rewrite length_app. simpl. lia.
Qed.

Lemma scope_keeps_hooks type sandbox this w w1 (step : App -> InternalRoute -> App) :
  type <> EvRequest ->
  event_array type (event this) < length (arrays w) ->
  length (arrays w) <= length (arrays w1) ->
  arrays w1 !! event_array type (event this) = arrays w !! event_array type (event this) ->
  (forall app r, adds_route app (step app r)) ->
  hooks_of type (fold_left step (routes sandbox)
                           (setModel (defs sandbox) (fold_request_hooks sandbox (this, w1))))
  = hooks_of type (this, w).
Proof.
  intros Hne Hv Hle Hkeep Hstep.
  destruct (fold_request_hooks_other type sandbox this w1 Hne ltac:(lia)) as [Hsame Hvalid].
  set (app2 := fold_request_hooks sandbox (this, w1)) in *.
  erewrite adds_route_hooks.
  - rewrite setModel_hooks, Hsame. unfold hooks_of, deref. cbn [fst snd]. by rewrite Hkeep.
  - by apply adds_route_fold.
  - destruct app2 as [this2 w2]. exact Hvalid.
Qed.

Lemma group_keeps_hooks type prefix (run : App -> App) this w :
  wf (this, w) ->
  (forall child, frame_ok child (run child)) ->
  type <> EvRequest ->
  hooks_of type (group prefix run (this, w)) = hooks_of type (this, w).
Proof.
  intros Hwf Hrun Hne. pose proof (wf_event_array type this w Hwf) as Hv.
  pose proof (child_preserves run w _ Hrun Hv) as Hkeep.
  pose proof (frame_ok_child run this w Hrun) as [Hle _]. cbn [fst snd] in Hle.
  unfold group. destruct (run (newElysia w)) as [sandbox w1] eqn:E. cbn [snd] in *.
  apply scope_keeps_hooks; try done.
  intros [this' w'] r. apply adds_route_merge_then_add.
Qed.

Lemma guard_keeps_hooks type hook (run : App -> App) this w :
  wf (this, w) ->
  (forall child, frame_ok child (run child)) ->
  type <> EvRequest ->
  hooks_of type (guard hook run (this, w)) = hooks_of type (this, w).
Proof.
  intros Hwf Hrun Hne. pose proof (wf_event_array type this w Hwf) as Hv.
  pose proof (child_preserves run w _ Hrun Hv) as Hkeep.
  pose proof (frame_ok_child run this w Hrun) as [Hle _]. cbn [fst snd] in Hle.
  unfold guard. destruct (run (newElysia w)) as [sandbox w1] eqn:E. cbn [snd] in *.
  apply scope_keeps_hooks; try done.
  intros [this' w'] r. apply adds_route_merge_then_add.
Qed.

(** X12.  Apart from the request hooks, what the body of a [group] or
    [guard] registers with [on...] stays in the child: the parent's
    arrays for [start], [parse], [transform], [beforeHandle],
    [afterHandle], [error] and [stop] are after the call what they were
    before it.  In particular a parser registered in the body is never
    among the parsers [handle] runs. *)
Theorem group_and_guard_keep_parent_hooks :
  forall (before body : list Build) (prefix : string) (hook : LocalHook)
         (type : LifeCycleEvent),
    type <> EvRequest ->
    hooks_of type (build (before ++ [BGroup prefix body])) = hooks_of type (build before)
    /\ hooks_of type (build (before ++ [BGuard hook body])) = hooks_of type (build before).
Proof.
  intros before body prefix hook type Hne.
  pose proof (wf_build before) as Hwf.
  assert (Hrun : forall child, frame_ok child (fold_left (fun a c => exec c a) body child)).
  { apply frame_ok_run. apply List.Forall_forall. intros b _. apply frame_ok_exec. }
  unfold build in *. rewrite !chain_snoc. cbn [exec].
  destruct (chain before (newElysia empty_world)) as [this w].
  split; [by apply group_keeps_hooks | by apply guard_keeps_hooks].
Qed.

Lemma group_and_guard_keep_parent_hooks_witness :
  hooks_of EvParse (build ([] ++ [BGroup "/v1" [BOnParse first_parser]])) = [].
Proof.
  exact (proj1 (group_and_guard_keep_parent_hooks [] [BOnParse first_parser] "/v1"
                  error_route_hook EvParse ltac:(discriminate))).
Defined.

(** ** Models and validators *)



(** X14.  A route whose schema only names models that are not registered
    is stored without a validator: no request to it is validated.  The
    unknown name is not reported. *)
Theorem unregistered_models_give_no_validator :
  forall (method path : string) (handler : Callback) (hook : LocalHook)
         (s : TypedSchema) (this : Elysia) (w : World),
    h_schema hook = Some s ->
    unresolved (defs this) (s_body s) ->
    unresolved (defs this) (s_headers s) ->
    unresolved (defs this) (s_params s) ->
    unresolved (defs this) (s_query s) ->
    unresolved_response (defs this) (s_response s) ->
    exists entry,
      router (fst (route method path handler (Some hook) (this, w)))
      = router this ++ [(method, with_slash path, entry)]
      /\ mh_validator entry = None
      /\ forall hooks request body r,
           validate hooks (mh_validator entry) request body r = (inl tt, r).
Proof.
  intros method path handler hook s this w Hs Hb Hh Hp Hq Hr.
  assert (G : forall x ap, unresolved (defs this) x ->
                getSchemaValidator x (defs this) ap = (None, defs this)).
  { intros [[schema|name]|] ap H; simpl in *; try done.
    destruct (String.eqb name ""); [done |]. by rewrite H. }
  assert (G' : getResponseSchemaValidator (s_response s) (defs this) false = None).
  { destruct (s_response s) as [[schema|name|record]|]; simpl in *; try done.
    destruct (String.eqb name ""); [done |]. by rewrite Hr. }
  unfold route, _addHandler.
  destruct (mergeHook _ (Some hook) w) as [route_hooks' w1].
  destruct (mergeHook _ (Some hook) w1) as [hooks w2].
  cbn [fst router]. unfold Raikiri.add, with_slash. eexists. split; [reflexivity |].
  cbn [mh_validator mbind option_bind]. rewrite Hs. cbn [mbind option_bind].
  rewrite (G _ false Hb). cbn [fst snd]. rewrite (G _ true Hh). cbn [fst snd].
  rewrite (G _ false Hp). cbn [fst snd]. rewrite (G _ false Hq). cbn [fst snd].
  rewrite G'.
  split; [| intros hooks' request body r]; by case_bool_decide as Hc;
    [destruct Hc as [[? [=]] | [[? [=]] | [[? [=]] | [[? [=]] | [? [=]]]]]] |].
Qed.

Lemma unregistered_models_give_no_validator_witness :
  exists entry,
    router (fst (route "POST" "/" echo_body
                       (Some (schema_hook {| s_body := Some (Named "user"); s_headers := None;
                                             s_header := None; s_params := None;
                                             s_query := None; s_response := None |}))
                       (build [])))
    = router (fst (build [])) ++ [("POST", "/", entry)]
    /\ mh_validator entry = None.
Proof.
  destruct (unregistered_models_give_no_validator "POST" "/" echo_body
              (schema_hook {| s_body := Some (Named "user"); s_headers := None;
                              s_header := None; s_params := None;
                              s_query := None; s_response := None |})
              {| s_body := Some (Named "user"); s_headers := None;
                 s_header := None; s_params := None;
                 s_query := None; s_response := None |}
              (fst (build [])) (snd (build [])))
    as (entry & H1 & H2 & _); try done.
  by exists entry.
Defined.

(** ** [mergeDeep] *)

Lemma assoc_set_field_eq k v (l : list (string * Plain)) : assoc k (set_field k v l) = Some v.
Proof.
  induction l as [|[k' old] l IH]; simpl; [by rewrite String.eqb_refl |].
  destruct (String.eqb_spec k k') as [->|Hne]; simpl.
  - by rewrite String.eqb_refl.
  - destruct (String.eqb_spec k k'); [done | exact IH].
Qed.

Lemma assoc_set_field_ne k k' v (l : list (string * Plain)) :
  k' <> k -> assoc k' (set_field k v l) = assoc k' l.
Proof.
  intros Hne. induction l as [|[k0 old] l IH]; simpl.
  - destruct (String.eqb_spec k' k); [congruence | done].
  - destruct (String.eqb_spec k k0) as [->|Hk]; simpl.
    + destruct (String.eqb_spec k' k0); [congruence | done].
    + by rewrite IH.
Qed.

Lemma assoc_assign_field k k' v (l : list (string * Plain)) :
  k' <> "__proto__" ->
  assoc k' (assign_field k v l) = if String.eqb k' k then Some v else assoc k' l.
Proof.
  intros Hp. unfold assign_field.
  destruct (String.eqb_spec k "__proto__") as [->|_].
  - destruct (String.eqb_spec k' "__proto__"); [congruence | done].
  - destruct (String.eqb_spec k' k) as [->|Hne];
      [apply assoc_set_field_eq | by apply assoc_set_field_ne].
Qed.

Lemma assoc_None_keys {A} k (l : list (string * A)) : k ∉ fst <$> l -> assoc k l = None.
Proof.
  induction l as [|[k' v] l IH]; [done |]. rewrite fmap_cons, not_elem_of_cons. simpl.
  intros [Hne Hin]. destruct (String.eqb_spec k k'); [congruence | by apply IH].
Qed.

(** A [forEach] of assignments, one per key. *)
Lemma assign_each (val : string -> Plain -> Plain) (l : list (string * Plain)) :
  distinct_keys l ->
  forall output k, k <> "__proto__" ->
    assoc k (fold_left (fun output kv => assign_field (fst kv) (val (fst kv) (snd kv)) output)
                       l output)
    = match assoc k l with
      | Some s => Some (val k s)
      | None => assoc k output
      end.
Proof.
  unfold distinct_keys. induction l as [|[key s] l IH]; intros Hnd output k Hp; [done |].
  rewrite fmap_cons in Hnd. apply list.NoDup_cons in Hnd as [Hin Hnd]. cbn [fst] in Hin.
  cbn [fold_left fst snd assoc]. rewrite (IH Hnd _ _ Hp), (assoc_assign_field _ _ _ _ Hp).
  destruct (String.eqb_spec k key) as [->|Hne]; [| done].
  by rewrite (assoc_None_keys _ _ Hin).
Qed.

Lemma merge_key_assigns target key s merged output :
  (forall t, merged t = mergeDeep t s) ->
  merge_key target key s merged output = assign_field key (merged_value target key s) output.
Proof.
  intros Hm. unfold merge_key, merged_value.
  destruct (isObject s); [| done]. destruct (has_key key target); simpl; [| done].
  destruct (assoc key target); [by rewrite Hm | done].
Qed.

Lemma mergeDeep_objects tfields sfields :
  mergeDeep (PObj tfields) (PObj sfields)
  = PObj (fold_left (fun output kv =>
                       assign_field (fst kv) (merged_value tfields (fst kv) (snd kv)) output)
                    sfields (assign_all (PObj tfields))).
Proof.
  cbn [mergeDeep]. f_equal. generalize (assign_all (PObj tfields)).
  induction sfields as [|[key s] sfields IH]; intros output; [done |].
  cbn [fold_left fst snd]. rewrite IH. by rewrite merge_key_assigns.
Qed.



Lemma mergeDeep_is_object target source :
  exists fields, mergeDeep target source = PObj fields.
Proof. destruct source, target; simpl; eauto. Qed.



(** X16.  Where [target] holds a number, a boolean, [null] or
    [undefined] and [source] holds an object under the same key, the
    result holds an empty object: the value of [target] and the object of
    [source] are both lost.  The same happens under a key that [target]
    only inherits from [Object.prototype], such as [toString]. *)
Theorem mergeDeep_drops_object_over_primitive :
  forall (tfields sfields : list (string * Plain)) (k : string) (s : Plain),
    distinct_keys tfields -> distinct_keys sfields -> k <> "__proto__" ->
    assoc k sfields = Some s -> isObject s = true ->
    (forall t, assoc k tfields = Some t -> primitive t ->
       own (mergeDeep (PObj tfields) (PObj sfields)) k = Some (PObj []))
    /\ (assoc k tfields = None -> k ∈ object_prototype_keys ->
        own (mergeDeep (PObj tfields) (PObj sfields)) k = Some (PObj []))
    /\ (assoc k tfields = None -> k ∉ object_prototype_keys ->
        own (mergeDeep (PObj tfields) (PObj sfields)) k = Some s).
Proof.
  intros tfields sfields k s Ht Hs Hp Hk Hobj.
  assert (H : own (mergeDeep (PObj tfields) (PObj sfields)) k
              = Some (merged_value tfields k s)).
  { rewrite mergeDeep_objects. cbn [own].
    by rewrite (assign_each (merged_value tfields) sfields Hs _ k Hp), Hk. }
  rewrite H. unfold merged_value, has_key. rewrite Hobj. cbn [andb].
  split; [| split].
  - intros t Hkt Hprim. rewrite Hkt. rewrite bool_decide_eq_true_2 by done. cbn [orb].
    by destruct t, s.
  - intros Hnone Hin. rewrite Hnone. rewrite (bool_decide_eq_true_2 (k ∈ _)) by done.
    by rewrite orb_true_r.
  - intros Hnone Hin. rewrite Hnone.
    rewrite bool_decide_eq_false_2 by (by intros [? [=]]).
    by rewrite bool_decide_eq_false_2.
Qed.

Lemma mergeDeep_drops_object_over_primitive_witness :
  own (mergeDeep (PObj [("a", PNum 1)]) (PObj [("a", PObj [("b", PNum 2)])])) "a"
  = Some (PObj []).
Proof.
  apply (proj1 (mergeDeep_drops_object_over_primitive
                  [("a", PNum 1)] [("a", PObj [("b", PNum 2)])] "a" (PObj [("b", PNum 2)])
                  ltac:(unfold distinct_keys; refine (bool_decide_unpack _ _); vm_compute; exact I)
                  ltac:(unfold distinct_keys; refine (bool_decide_unpack _ _); vm_compute; exact I)
                  ltac:(discriminate) eq_refl eq_refl)
           (PNum 1) eq_refl I).
Defined.

Lemma set_field_new k v (l : list (string * Plain)) :
  k ∉ fst <$> l -> set_field k v l = l ++ [(k, v)].
Proof.
  induction l as [|[k' old] l IH]; [done |]. rewrite fmap_cons, not_elem_of_cons. simpl.
  intros [Hne Hin]. destruct (String.eqb_spec k k'); [congruence |]. by rewrite IH.
Qed.

Lemma set_field_same k v (l : list (string * Plain)) :
  assoc k l = Some v -> set_field k v l = l.
Proof.
  induction l as [|[k' old] l IH]; [done |]. simpl.
  destruct (String.eqb_spec k k') as [->|Hne]; [by intros [= ->] |].
  intros H. by rewrite IH.
Qed.

Lemma proto_is_inherited : "__proto__" ∈ object_prototype_keys.
Proof. unfold object_prototype_keys. rewrite !elem_of_cons. tauto. Qed.

(** A [forEach] of assignments of new keys appends them. *)
Lemma assign_new_keys (val : string -> Plain -> Plain) (l : list (string * Plain)) :
  forall output,
    NoDup (fst <$> (output ++ l)) ->
    plain_keys l ->
    Forall (fun kv => val (fst kv) (snd kv) = snd kv) l ->
    fold_left (fun output kv => assign_field (fst kv) (val (fst kv) (snd kv)) output) l output
    = output ++ l.
Proof.
  induction l as [|[key s] l IH]; intros output Hnd Hplain Hval; [by rewrite app_nil_r |].
  apply list.Forall_cons in Hplain as [Hkey Hplain]. apply list.Forall_cons in Hval as [Hv Hval].
  cbn [fst snd] in Hkey, Hv. cbn [fold_left fst snd]. rewrite Hv.
  assert (Hnew : key ∉ fst <$> output).
  { rewrite fmap_app, fmap_cons in Hnd. apply list.NoDup_app in Hnd as (_ & Hd & _).
    intros Hin. apply (Hd key Hin). cbn [fst]. apply elem_of_cons. by left. }
  unfold assign_field. destruct (String.eqb_spec key "__proto__") as [->|_].
  { exfalso. apply Hkey, proto_is_inherited. }
  rewrite (set_field_new _ _ _ Hnew), IH; [by rewrite <- app_assoc | | done | done].
  by rewrite <- app_assoc.
Qed.

Lemma assign_all_object fields :
  distinct_keys fields -> plain_keys fields -> assign_all (PObj fields) = fields.
Proof.
  intros Hnd Hplain. unfold assign_all. cbn [own_properties].
  rewrite (assign_new_keys (fun _ v => v) fields [] Hnd Hplain); [done |].
  apply List.Forall_forall. done.
Qed.

Lemma merged_value_new key s : key ∉ object_prototype_keys -> merged_value [] key s = s.
Proof.
  intros Hkey. unfold merged_value, has_key. cbn [assoc].
  rewrite bool_decide_eq_false_2 by (by intros [? [=]]).
  rewrite bool_decide_eq_false_2 by done. by rewrite andb_false_r.
Qed.

(** X17.  The empty object is neutral for [mergeDeep] on both sides: the
    result has the properties of the other object, in its order.  (For
    an object that lists each key once and has no key that is a property
    name of [Object.prototype].) *)
Theorem mergeDeep_empty_object :
  forall fields : list (string * Plain),
    distinct_keys fields -> plain_keys fields ->
    mergeDeep (PObj fields) (PObj []) = PObj fields
    /\ mergeDeep (PObj []) (PObj fields) = PObj fields.
Proof.
  intros fields Hnd Hplain. split.
  - rewrite mergeDeep_objects. cbn [fold_left]. by rewrite assign_all_object.
  - rewrite mergeDeep_objects. unfold assign_all. cbn [own_properties fold_left].
    rewrite (assign_new_keys (merged_value []) fields [] Hnd Hplain); [done |].
    eapply List.Forall_impl; [| exact Hplain]. intros [key s] Hkey. by apply merged_value_new.
Qed.

Lemma mergeDeep_empty_object_witness :
  mergeDeep (PObj []) (PObj [("a", PObj [("b", PNum 2)]); ("c", PArr [PNum 1])])
  = PObj [("a", PObj [("b", PNum 2)]); ("c", PArr [PNum 1])].
Proof.
  apply (proj2 (mergeDeep_empty_object
                  [("a", PObj [("b", PNum 2)]); ("c", PArr [PNum 1])]
                  ltac:(unfold distinct_keys; refine (bool_decide_unpack _ _); vm_compute; exact I)
                  ltac:(unfold plain_keys; refine (bool_decide_unpack _ _); vm_compute; exact I))).
Defined.

Lemma proper_fields fields :
  proper (PObj fields) -> Forall (fun kv => proper (snd kv)) fields.
Proof.
  intros (_ & _ & H). induction fields as [|kv rest IH]; [constructor |].
  destruct H as [H1 H2]. apply Forall_cons; [exact H1 | by apply IH].
Qed.

Lemma assoc_elem (k : string) (v : Plain) (l : list (string * Plain)) :
  NoDup (fst <$> l) -> (k, v) ∈ l -> assoc k l = Some v.
Proof.
  induction l as [|[k' v'] l IH]; [by intros _ ?%elem_of_nil |].
  rewrite fmap_cons, list.NoDup_cons, elem_of_cons. cbn [fst assoc].
  intros [Hnew Hnd] [[= <- <-] | Hin]; [by rewrite String.eqb_refl |].
  destruct (String.eqb_spec k k') as [->|_]; [| by apply IH].
  exfalso. apply Hnew. apply list_elem_of_fmap. by exists (k', v).
Qed.

Lemma mergeDeep_same_object v :
  proper v -> isObject v = true -> mergeDeep v v = v.
Proof.
  induction v as [| | | | | |fields IH] using Plain_nested_ind; try done.
  intros Hproper _. pose proof Hproper as (Hnd & Hplain & _).
  pose proof (proper_fields _ Hproper) as Hdeep.
  rewrite mergeDeep_objects, assign_all_object by done.
  assert (Hfold : forall l, (forall kv, kv ∈ l -> kv ∈ fields) ->
             fold_left (fun output kv =>
                          assign_field (fst kv) (merged_value fields (fst kv) (snd kv)) output)
                       l fields = fields).
  { induction l as [|[key s] l IHl]; intros Hsub; [done |].
    cbn [fold_left fst snd].
    assert (Hin : (key, s) ∈ fields) by (apply Hsub, elem_of_cons; by left).
    pose proof (assoc_elem _ _ _ Hnd Hin) as Hassoc.
    assert (Hval : merged_value fields key s = s).
    { unfold merged_value. destruct (isObject s) eqn:Hobj; [| done].
      unfold has_key. rewrite Hassoc. rewrite bool_decide_eq_true_2 by done. cbn [andb orb].
      rewrite List.Forall_forall in IH, Hdeep. apply list_elem_of_In in Hin.
      apply (IH _ Hin); [exact (Hdeep _ Hin) | exact Hobj]. }
    rewrite Hval. unfold assign_field.
    destruct (String.eqb_spec key "__proto__") as [->|_].
    - apply IHl. intros kv Hkv. apply Hsub, elem_of_cons. by right.
    - rewrite (set_field_same _ _ _ Hassoc). apply IHl.
      intros kv Hkv. apply Hsub, elem_of_cons. by right. }
  by rewrite Hfold.
Qed.

(** X18.  [mergeDeep] is idempotent: merging an object into itself gives
    the object back.  (For an object that, at every depth, lists each key
    once and has no key that is a property name of [Object.prototype].) *)
Theorem mergeDeep_idempotent :
  forall fields : list (string * Plain),
    proper (PObj fields) -> mergeDeep (PObj fields) (PObj fields) = PObj fields.
Proof. intros fields H. by apply mergeDeep_same_object. Qed.

Lemma mergeDeep_idempotent_witness :
  mergeDeep (PObj [("a", PObj [("b", PNum 2)]); ("c", PArr [PNum 1])])
            (PObj [("a", PObj [("b", PNum 2)]); ("c", PArr [PNum 1])])
  = PObj [("a", PObj [("b", PNum 2)]); ("c", PArr [PNum 1])].
Proof.
  apply (mergeDeep_idempotent [("a", PObj [("b", PNum 2)]); ("c", PArr [PNum 1])]).
  cbn [proper snd]. unfold distinct_keys, plain_keys.
  repeat split; refine (bool_decide_unpack _ _); vm_compute; exact I.
Defined.

(** ** The pathname and the query of a URL *)

Lemma span_prefix (p : ascii -> bool) (a b : string) :
  all_chars p a = true ->
  all_chars p (match b with String c _ => String c "" | EmptyString => "" end) = false
  \/ b = "" ->
  span p (a ++ b) = (a, b).
Proof.
  intros Ha Hb. induction a as [|c a IH].
  - destruct b as [|c b]; [done |]. destruct Hb as [Hb | [=]].
    cbn [all_chars] in Hb. rewrite andb_true_r in Hb.
    simpl. by rewrite Hb.
  - cbn [all_chars] in Ha. apply andb_true_iff in Ha as [Hc Ha].
    simpl. by rewrite Hc, (IH Ha).
Qed.

Lemma skip_prefix (a b : string) : skip (String.length a) (a ++ b) = b.
Proof.
  induction a as [|c a IH]; simpl; [| exact IH]. by destruct b.
Qed.

Lemma fracture_skips (scheme rest : string) :
  all_chars (is_not [":"%char]) scheme = true ->
  fracture (scheme ++ rest) = fracture rest.
Proof.
  induction scheme as [|c scheme IH]; [done |]. cbn [all_chars]. intros [Hc Hs]%andb_true_iff.
  simpl. rewrite (IH Hs).
  destruct (Ascii.eqb_spec c ":") as [->|Hne]; [done |].
  destruct c as [[] [] [] [] [] [] [] []]; try done.
Qed.

Lemma fracture_no_colon (url : string) :
  all_chars (is_not [":"%char]) url = true -> fracture url = None.
Proof.
  intros H. pose proof (fracture_skips url "" H) as Hf.
  assert (Hnil : (url ++ "")%string = url).
  { clear. induction url as [|c url IH]; [done |].
    change (String c (url ++ "")%string = String c url). by rewrite IH. }
  by rewrite Hnil in Hf.
Qed.

Lemma after_scheme_groups (host path rest : string) :
  host <> "" ->
  all_chars (is_not ["/"%char]) host = true ->
  starts_with_slash path = true ->
  all_chars (is_not ["#"%char; "?"%char]) path = true ->
  rest = "" \/ (exists tail, rest = String "?" tail) \/ (exists tail, rest = String "#" tail) ->
  after_scheme (host ++ path ++ rest) = Some (path, query_group rest).
Proof.
  intros Hhost Hh Hslash Hp Hrest. unfold after_scheme.
  rewrite (span_prefix _ host (path ++ rest) Hh).
  2: { left. destruct path as [|c path]; [done |]. simpl in Hslash.
       destruct (Ascii.eqb_spec c "/") as [->|Hne]; [done |].
       destruct c as [[] [] [] [] [] [] [] []]; try done. }
  cbn [fst]. destruct host as [|c host]; [done |]. cbn [String.length host_then_groups].
  change (S (String.length host)) with (String.length (String c host)).
  rewrite skip_prefix. unfold path_groups. rewrite (span_prefix _ path rest Hp).
  - destruct path; [done | done].
  - destruct Hrest as [-> | [[tail ->] | [tail ->]]]; [by right | by left | by left].
Qed.

(** X19.  For a URL [scheme://host/path?query#fragment] the match gives
    the path, from the first [/] after the host up to the first [?] or
    [#], and the query, from after the [?] up to the [#]; without
    [?query] there is no second group, and the fragment is never part of
    either.  A URL without [:] does not match at all (and [handle]
    answers [NOT_FOUND]). *)
Theorem fracture_of_url :
  forall (scheme host path : string) (query fragment : option string),
    all_chars (is_not [":"%char]) scheme = true ->
    host <> "" ->
    all_chars (is_not ["/"%char]) host = true ->
    starts_with_slash path = true ->
    all_chars (is_not ["#"%char; "?"%char]) path = true ->
    (forall q, query = Some q -> q <> "" /\ all_chars (is_not ["#"%char]) q = true) ->
    fracture (url_of scheme host path query fragment) = Some (path, query)
    /\ forall url, all_chars (is_not [":"%char]) url = true -> fracture url = None.
Proof.
  intros scheme host path query fragment Hs Hhost Hh Hslash Hp Hq.
  split; [| apply fracture_no_colon].
  unfold url_of. rewrite (fracture_skips _ _ Hs).
  change (fracture ("://" ++ ?s)%string)
    with (match after_scheme s with
          | Some groups => Some groups
          | None => fracture ("//" ++ s)%string
          end).
  set (rest := (match query with Some q => "?" ++ q | None => "" end
                ++ match fragment with Some f => "#" ++ f | None => "" end)%string).
  rewrite (after_scheme_groups host path rest Hhost Hh Hslash Hp).
  - f_equal. f_equal. unfold rest. destruct query as [q|].
    + destruct (Hq q eq_refl) as [Hne Hall]. simpl.
      rewrite (span_prefix _ q _ Hall).
      * cbn [fst]. destruct (String.eqb_spec q ""); [done | done].
      * destruct fragment; [by left | by right].
    + by destruct fragment.
  - unfold rest. destruct query, fragment; simpl; eauto.
Qed.

Lemma fracture_of_url_witness :
  fracture "http://localhost:8080/a/b?x=1&y=2#top" = Some ("/a/b", Some "x=1&y=2").
Proof.
  apply (proj1 (fracture_of_url "http" "localhost:8080" "/a/b" (Some "x=1&y=2") (Some "top")
                  eq_refl ltac:(discriminate) eq_refl eq_refl eq_refl
                  ltac:(intros q [= <-]; split; [discriminate | reflexivity]))).
Defined.

Example fracture_without_path : fracture "http://localhost" = Some ("t", None).
Proof. vm_compute. reflexivity. Qed.

(** ** A later hook in the body of a group or guard *)












(** *** The arrays listed with the routes are apart from those of the events *)

Lemma routes_wf_reshape this this' w w' :
  event this' = event this -> routes this' = routes this ->
  length (arrays w) <= length (arrays w') ->
  routes_wf (this, w) -> routes_wf (this', w').
Proof.
  intros He Hr Hl H. unfold routes_wf, routes_locs in *. cbn [fst snd] in *.
  rewrite He, Hr. eapply List.Forall_impl; [| exact H]. simpl. intros l [? ?].
  split; [lia | done].
Qed.

Lemma addHandler_listed method path handler hook this w :
  exists r,
    routes (fst (_addHandler method path handler hook (this, w))) = routes this ++ [r]
    /\ Forall (fun l => length (arrays w) <= l < length (arrays w) + 5)
              (hook_locs (ir_hooks r))
    /\ length (arrays (snd (_addHandler method path handler hook (this, w))))
       = length (arrays w) + 10.
Proof.
  unfold _addHandler.
  pose proof (mergeHook_spec (event_as_local (event this)) hook w) as (_ & L1 & F1).
  destruct (mergeHook (event_as_local (event this)) hook w) as [route_hooks' w1].
  pose proof (mergeHook_spec (event_as_local (clone (event this))) hook w1) as (_ & L2 & _).
  destruct (mergeHook _ hook w1) as [hooks w2].
  cbn [fst snd routes] in *. eexists. split; [reflexivity |]. split; [exact F1 | lia].
Qed.

Lemma routes_wf_addHandler method path handler hook app :
  wf app -> routes_wf app -> routes_wf (_addHandler method path handler hook app).
Proof.
  destruct app as [this w]. intros (H1 & _ & _) H. cbn [fst snd] in H1.
  destruct (addHandler_listed method path handler hook this w) as (r & Hr & Hf & Hlen).
  pose proof (addHandler_spec method path handler hook this w) as (He & _ & _ & Hx & _).
  destruct (_addHandler method path handler hook (this, w)) as [this' w'].
  cbn [fst snd] in *.
  unfold routes_wf, routes_locs in *. cbn [fst snd] in *.
  rewrite He, Hr, bind_app. apply Forall_app. split.
  - eapply List.Forall_impl; [| exact H]. simpl. intros l [? ?]. split; [lia | done].
  - cbn [mbind list_bind]. rewrite app_nil_r.
    eapply List.Forall_impl; [| exact Hf]. simpl. intros l Hl'. split; [lia |].
    intros Hin. rewrite List.Forall_forall in H1. apply list_elem_of_In in Hin.
    specialize (H1 _ Hin). simpl in H1. lia.
Qed.

Lemma routes_wf_write this w (a : loc) (fs : list Callback) :
  routes_wf (this, w) -> routes_wf (this, poke a fs w).
Proof.
  apply routes_wf_reshape; [done | done |]. cbn [arrays poke]. by rewrite length_insert.
Qed.

Lemma routes_wf_state name v app : routes_wf app -> routes_wf (state name v app).
Proof.
  destruct app as [this w]. unfold state. destruct (in_store _ _); [done |].
  by apply routes_wf_reshape.
Qed.

Lemma routes_wf_setModel record app : routes_wf app -> routes_wf (setModel record app).
Proof. destruct app as [this w]. unfold setModel. by apply routes_wf_reshape. Qed.

Lemma routes_wf_fold_request_hooks sandbox app :
  routes_wf app -> routes_wf (fold_request_hooks sandbox app).
Proof.
  destruct app as [this w]. intros H. unfold fold_request_hooks.
  case_bool_decide; [done |]. unfold alloc, routes_wf, routes_locs in *.
  cbn [fst snd arrays event with_event routes] in *.
  rewrite length_app. cbn [length].
  eapply List.Forall_impl; [| exact H]. simpl. intros l [Hl Hn]. split; [lia |].
  unfold event_locs in *. cbn. rewrite !not_elem_of_cons in *.
  repeat split; try tauto. lia.
Qed.

Lemma routes_wf_merge_then_add a b method path handler this w :
  wf (this, w) -> routes_wf (this, w) ->
  routes_wf (let '(hooks, w) := mergeHook a b w in
             _addHandler method path handler (Some (registered_as_local hooks)) (this, w)).
Proof.
  intros Hwf H. pose proof (mergeHook_spec a b w) as (Hx & _ & _).
  destruct (mergeHook a b w) as [hooks w1]. cbn [snd] in Hx.
  pose proof (extends_length _ _ Hx) as Hl.
  apply routes_wf_addHandler.
  - by apply (wf_reshape this this w w1).
  - by apply (routes_wf_reshape this this w w1).
Qed.

Lemma both_fold {A} (step : App -> A -> App) (l : list A) :
  (forall app x, wf app -> routes_wf app -> wf (step app x) /\ routes_wf (step app x)) ->
  forall app, wf app -> routes_wf app ->
    wf (fold_left step l app) /\ routes_wf (fold_left step l app).
Proof.
  intros Hstep. induction l as [|x l IH]; intros app H1 H2; simpl; [done |].
  destruct (Hstep app x H1 H2). by apply IH.
Qed.

Lemma routes_wf_group prefix (run : App -> App) app :
  (forall child, frame_ok child (run child)) ->
  wf app -> routes_wf app -> routes_wf (group prefix run app).
Proof.
  intros Hrun. destruct app as [this w]. intros Hwf H. unfold group.
  pose proof (frame_ok_child run this w Hrun) as Hchild.
  destruct (run (newElysia w)) as [sandbox w1]. cbn [snd] in Hchild.
  apply both_fold.
  - intros [this' w'] r H1 H2. split; [by apply wf_merge_then_add |].
    by apply routes_wf_merge_then_add.
  - apply wf_setModel, wf_fold_request_hooks. by apply (wf_frame_ok _ w).
  - apply routes_wf_setModel, routes_wf_fold_request_hooks.
    destruct Hchild as [Hl _]. by apply (routes_wf_reshape this this w w1).
Qed.

Lemma routes_wf_guard hook (run : App -> App) app :
  (forall child, frame_ok child (run child)) ->
  wf app -> routes_wf app -> routes_wf (guard hook run app).
Proof.
  intros Hrun. destruct app as [this w]. intros Hwf H. unfold guard.
  pose proof (frame_ok_child run this w Hrun) as Hchild.
  destruct (run (newElysia w)) as [sandbox w1]. cbn [snd] in Hchild.
  apply both_fold.
  - intros [this' w'] r H1 H2. split; [by apply wf_merge_then_add |].
    by apply routes_wf_merge_then_add.
  - apply wf_setModel, wf_fold_request_hooks. by apply (wf_frame_ok _ w).
  - apply routes_wf_setModel, routes_wf_fold_request_hooks.
    destruct Hchild as [Hl _]. by apply (routes_wf_reshape this this w w1).
Qed.

Lemma routes_wf_exec b app : wf app -> routes_wf app -> routes_wf (exec b app).
Proof.
  destruct b; cbn [exec].
  - apply routes_wf_addHandler.
  - intros _. destruct app. apply routes_wf_write.
  - intros _. destruct app. apply routes_wf_write.
  - intros _. destruct app. apply routes_wf_write.
  - intros _. destruct app. apply routes_wf_write.
  - intros _. destruct app. apply routes_wf_write.
  - intros _. destruct app. apply routes_wf_write.
  - intros _. destruct app. apply routes_wf_write.
  - intros _. destruct app. apply routes_wf_write.
  - intros _. destruct app. apply routes_wf_write.
  - intros _. apply routes_wf_state.
  - intros _. apply routes_wf_setModel.
  - apply routes_wf_group. intros child. apply (frame_ok_chain run).
  - apply routes_wf_guard. intros child. apply (frame_ok_chain run).
Qed.

Lemma routes_wf_chain calls : forall app, wf app -> routes_wf app -> routes_wf (chain calls app).
Proof.
  unfold chain. induction calls as [|b calls IH]; intros app H1 H2; simpl; [done |].
  apply IH; [by apply wf_exec | by apply routes_wf_exec].
Qed.

Lemma wf_newElysia w : wf (newElysia w).
Proof.
  pose proof (newElysia_spec w) as (_ & Hlen & Hlocs & Hr & _).
  unfold wf, router_locs. rewrite Hlocs, Hr, Hlen. split; [| split].
  - apply List.Forall_forall. intros l Hl. apply in_seq in Hl. lia.
  - apply NoDup_ListNoDup, seq_NoDup.
  - apply Forall_nil.
Qed.

Lemma routes_wf_newElysia w : routes_wf (newElysia w).
Proof.
  pose proof (newElysia_spec w) as (_ & _ & _ & _ & Hr).
  unfold routes_wf, routes_locs. rewrite Hr. apply Forall_nil.
Qed.









(** *** Building on a heap with one array replaced *)














Lemma child_length (run : list Build) w :
  length (arrays w) <= length (arrays (snd (chain run (newElysia w)))).
Proof.
  pose proof (newElysia_spec w) as (Hx & _).
  destruct (frame_ok_chain run (newElysia w)) as [Hl _].
  pose proof (extends_length _ _ Hx). lia.
Qed.



(** *** One more hook at the end of a body *)




Lemma wf_child (run : list Build) w :
  wf (chain run (newElysia w)) /\ routes_wf (chain run (newElysia w)).
Proof.
  split; [apply wf_chain, wf_newElysia |].
  apply routes_wf_chain; [apply wf_newElysia | apply routes_wf_newElysia].
Qed.








(** ** Answers and failures of hooks *)

(** X20.  A request hook that returns a value other than [null] and
    [undefined] answers the request: the value is mapped to the
    response, and neither the later request hooks nor anything else is
    called.  The route is not looked up, so a path that no route matches
    is answered too. *)
Theorem request_hook_answer_ends_the_request :
  forall this w request pre f post s1 v s2,
    deref w (ev_request (event this)) = pre ++ f :: post ->
    all_pass VUndefined pre (u (start_run this w request)) s1 ->
    f VUndefined s1 = (Return v, s2) -> nullish v = false ->
    handle (this, w) request
    = (inl (mapResponse v (c_set (ctx s2))),
       (with_decorators (ctx s2) this, with_store (store s2) w),
       CRequest <$> seq 0 (S (length pre))).
Proof.
  intros this w request pre f post s1 v s2 Hhooks Hpass Hf Hv.
  assert (H : request_hooks (pre ++ f :: post) 0 (start_run this w request)
              = (inl (Some (mapResponse v (c_set (ctx s2)))),
                 advance (start_run this w request) s2
                         (CRequest <$> seq 0 (S (length pre))))).
  { rewrite (request_hooks_prefix _ _ _ Hpass (f :: post) _ 0 eq_refl).
    cbn [request_hooks].
    rewrite (bind_inl _ _ _ _ _
               (invoke_return (CRequest (0 + length pre)) f VUndefined
                  (advance (start_run this w request) s1 (CRequest <$> seq 0 (length pre)))
                  v s2 Hf)).
    rewrite get_ctx_bind. unfold mapEarlyResponse. rewrite Hv.
    by rewrite advance_advance, seq_snoc_fmap. }
  assert (Hatt : attempt this w request (start_run this w request)
                 = (inl (mapResponse v (c_set (ctx s2))),
                    advance (start_run this w request) s2
                            (CRequest <$> seq 0 (S (length pre))))).
  { unfold attempt. rewrite Hhooks. by rewrite (bind_inl _ _ _ _ _ H). }
  by rewrite (handle_of_return _ _ _ _ _ Hatt).
Qed.

Lemma request_hook_answer_ends_the_request_witness :
  result_of (handle (onRequest first_parser echo_built) (get_request "/missing" None []))
  = inl (mkResponse 200 [] (VStr "first")).
Proof.
  change (onRequest first_parser echo_built)
    with (fst (onRequest first_parser echo_built), snd (onRequest first_parser echo_built)).
  rewrite (request_hook_answer_ends_the_request
             (fst (onRequest first_parser echo_built))
             (snd (onRequest first_parser echo_built))
             (get_request "/missing" None []) [] first_parser []
             (u (start_run (fst (onRequest first_parser echo_built))
                           (snd (onRequest first_parser echo_built))
                           (get_request "/missing" None [])))
             (VStr "first")
             (u (start_run (fst (onRequest first_parser echo_built))
                           (snd (onRequest first_parser echo_built))
                           (get_request "/missing" None [])))
             ltac:(vm_compute; reflexivity) ltac:(constructor) eq_refl eq_refl).
  reflexivity.
Defined.

Lemma invoke_error_raise tag f error code r e s :
  f (error_arg error code) (error_state (u r)) = (Raise e, s) ->
  invoke_error tag f error code r = (inr e, advance r (after_error (u r) s) [tag]).
Proof. unfold invoke_error, error_state. by intros ->. Qed.

(** X21.  An exception thrown by an error hook is not caught: [handle]
    ends with that exception instead of a response.  When it is a
    route-level error hook that throws, the error hooks after it and the
    global error hooks are not called. *)
Theorem error_hook_failure_escapes :
  forall this w request error r,
    attempt this w request (start_run this w request) = (inr error, r) ->
    let code := mapErrorCode (e_message error) in
    let arg := error_arg error code in
    (forall pre f post s1 e' s2,
        route_errors w r = pre ++ f :: post ->
        errors_pass arg pre (u (failed r)) s1 ->
        f arg (error_state s1) = (Raise e', s2) ->
        result_of (handle (this, w) request) = inr e'
        /\ calls_of (handle (this, w) request)
           = calls r ++ (CError <$> seq 0 (S (length pre))))
    /\ (forall s1 pre f post s2 e' s3,
        errors_pass arg (route_errors w r) (u (failed r)) s1 ->
        deref w (ev_error (event this)) = pre ++ f :: post ->
        errors_pass arg pre s1 s2 ->
        f arg (error_state s2) = (Raise e', s3) ->
        result_of (handle (this, w) request) = inr e'
        /\ calls_of (handle (this, w) request)
           = calls r ++ (CError <$> seq 0 (length (route_errors w r)))
                     ++ (CGlobalError <$> seq 0 (S (length pre)))).
Proof.
  intros this w request error r Hatt code arg. split.
  - intros pre f post s1 e' s2 Hsplit Hpre Hf.
    assert (Hrec : recover this w error r
                   = (inr e', advance (failed r) (after_error s1 s2)
                                      (CError <$> seq 0 (S (length pre))))).
    { rewrite recover_unfold. fold code. rewrite Hsplit. unfold bind at 1.
      rewrite (error_hooks_prefix _ _ _ _ Hpre _ error code (failed r) 0 eq_refl eq_refl).
      cbn [error_hooks].
      erewrite (bind_inr (invoke_error _ f error code));
        [| by apply invoke_error_raise].
      by rewrite advance_advance, seq_snoc_fmap. }
    rewrite (handle_of_raise _ _ _ _ _ _ _ Hatt Hrec). by split.
  - intros s1 pre f post s2 e' s3 Hroute Hsplit Hpre Hf.
    assert (Hrec : recover this w error r
                   = (inr e', advance (failed r) (after_error s2 s3)
                                      ((CError <$> seq 0 (length (route_errors w r)))
                                       ++ (CGlobalError <$> seq 0 (S (length pre)))))).
    { rewrite recover_unfold. fold code.
      rewrite <- (app_nil_r (route_errors w r)) at 1. unfold bind at 1.
      rewrite (error_hooks_prefix _ _ _ _ Hroute _ error code (failed r) 0 eq_refl eq_refl).
      cbn [error_hooks ret]. unfold handleError. rewrite Hsplit. unfold bind at 1.
      rewrite (global_error_hooks_prefix _ _ _ _ Hpre _ error
                 (advance (failed r) s1 (CError <$> seq 0 (length (route_errors w r)))) 0
                 eq_refl eq_refl).
      cbn [global_error_hooks].
      erewrite (bind_inr (invoke_error _ f error _));
        [| by apply invoke_error_raise].
      by rewrite !advance_advance, seq_snoc_fmap. }
    rewrite (handle_of_raise _ _ _ _ _ _ _ Hatt Hrec). by split.
Qed.

Lemma error_hook_failure_escapes_witness :
  result_of (handle (onError throwing echo_built) (get_request "/missing" None []))
  = inr (mkError "boom").
Proof.
  change (onError throwing echo_built)
    with (fst (onError throwing echo_built), snd (onError throwing echo_built)).
  edestruct (error_hook_failure_escapes
               (fst (onError throwing echo_built)) (snd (onError throwing echo_built))
               (get_request "/missing" None []) (mkError "NOT_FOUND")) as (_ & H).
  - vm_compute. reflexivity.
  - refine (proj1 (H _ [] throwing [] _ (mkError "boom") _ _ _ _ _)).
    + vm_compute. constructor.
    + vm_compute. reflexivity.
    + constructor.
    + reflexivity.
Defined.

(** ** The order of the checks *)

Lemma check_or_throw_passes type validator x r :
  passes validator x -> check_or_throw type validator x r = (inl tt, r).
Proof. unfold check_or_throw. destruct validator as [c|]; [| done]. simpl. by intros ->. Qed.

Lemma check_or_throw_rejects type validator x r :
  rejects validator x -> check_or_throw type validator x r = (inr (rejection type validator x), r).
Proof. unfold check_or_throw. destruct validator as [c|]; [| done]. simpl. by intros ->. Qed.

Lemma validate_unfold hooks v request body r :
  validate hooks (Some v) request body r
  = (check_or_throw "params" (v_params v) (c_params (ctx (u r))) ;;;
     c <- get_ctx ;;
     check_or_throw "query" (v_query v) (c_query c) ;;;
     check_or_throw "body" (v_body v) body) (noted hooks r).
Proof.
  unfold validate. fold (note_error_hooks hooks).
  rewrite (bind_inl _ _ _ _ _ (note_error_hooks_run hooks r)).
  unfold v_headers, check_or_throw at 1. unfold bind at 1, ret at 1.
  rewrite get_ctx_bind. by destruct hooks.
Qed.

(** X22.  The validators of a route are checked in the order params,
    query, body: the first check that rejects raises the
    [ValidationError] of its kind, whose message is [VALIDATION], and the
    checks after it are not made; when none rejects nothing is raised.
    The check compiled from the header schema is not among them. *)
Theorem validators_are_checked_in_order :
  forall hooks v request body r,
    let c := ctx (u r) in
    (rejects (v_params v) (c_params c) ->
       validate hooks (Some v) request body r
       = (inr (rejection "params" (v_params v) (c_params c)), noted hooks r))
    /\ (passes (v_params v) (c_params c) -> rejects (v_query v) (c_query c) ->
          validate hooks (Some v) request body r
          = (inr (rejection "query" (v_query v) (c_query c)), noted hooks r))
    /\ (passes (v_params v) (c_params c) -> passes (v_query v) (c_query c) ->
        rejects (v_body v) body ->
          validate hooks (Some v) request body r
          = (inr (rejection "body" (v_body v) body), noted hooks r))
    /\ (passes (v_params v) (c_params c) -> passes (v_query v) (c_query c) ->
        passes (v_body v) body ->
          validate hooks (Some v) request body r = (inl tt, noted hooks r))
    /\ (forall type check x,
          e_message (rejection type (Some check) x) = "VALIDATION"
          /\ e_type (rejection type (Some check) x) = Some type).
Proof.
  intros hooks v request body r c. subst c.
  assert (Hc : ctx (u (noted hooks r)) = ctx (u r)) by (by destruct hooks).
  split; [| split; [| split; [| split]]].
  - intros H1. rewrite validate_unfold.
    by rewrite (bind_inr _ _ _ _ _ (check_or_throw_rejects _ _ _ _ H1)).
  - intros H1 H2. rewrite validate_unfold.
    rewrite (bind_inl _ _ _ _ _ (check_or_throw_passes _ _ _ _ H1)), get_ctx_bind, Hc.
    by rewrite (bind_inr _ _ _ _ _ (check_or_throw_rejects _ _ _ _ H2)).
  - intros H1 H2 H3. rewrite validate_unfold.
    rewrite (bind_inl _ _ _ _ _ (check_or_throw_passes _ _ _ _ H1)), get_ctx_bind, Hc.
    rewrite (bind_inl _ _ _ _ _ (check_or_throw_passes _ _ _ _ H2)).
    by apply check_or_throw_rejects.
  - intros H1 H2 H3. rewrite validate_unfold.
    rewrite (bind_inl _ _ _ _ _ (check_or_throw_passes _ _ _ _ H1)), get_ctx_bind, Hc.
    rewrite (bind_inl _ _ _ _ _ (check_or_throw_passes _ _ _ _ H2)).
    by apply check_or_throw_passes.
  - done.
Qed.

Lemma validators_are_checked_in_order_witness :
  validate None
    (Some {| v_body := Some (Compile TString); v_header := None; v_params := None;
             v_query := Some (Compile (TObject [("name", TString)] None));
             v_response := None |})
    (get_request "/" None []) (VNum 1)
    (start_run (fst echo_built) (snd echo_built) (get_request "/" None []))
  = (inr (rejection "query" (Some (Compile (TObject [("name", TString)] None))) VUndefined),
     start_run (fst echo_built) (snd echo_built) (get_request "/" None [])).
Proof.
  apply (proj1 (proj2 (validators_are_checked_in_order None
                         {| v_body := Some (Compile TString); v_header := None;
                            v_params := None;
                            v_query := Some (Compile (TObject [("name", TString)] None));
                            v_response := None |}
                         (get_request "/" None []) (VNum 1)
                         (start_run (fst echo_built) (snd echo_built)
                                    (get_request "/" None []))))).
  - exact I.
  - reflexivity.
Defined.

(** X23.  The body validator checks the body that was parsed from the
    request, not [context.body]: what a transform hook assigns to
    [context.body] reaches the handler unchecked and does not change the
    outcome of validation.  (Params and query are checked as the
    transform hooks leave them in the context.) *)
Theorem body_check_ignores_context_body :
  forall hooks validator request body (b : value) r,
    fst (validate hooks validator request body (assign_body b r))
    = fst (validate hooks validator request body r)
    /\ (forall this w search entry params r1 r2,
          read_body (deref w (ev_parse (event this))) request (noted (mh_hooks entry) r)
          = (inl body, r1) ->
          match mh_hooks entry with
          | Some h => transform_hooks (deref w (rh_transform h)) 0
          | None => ret tt
          end (payload_run body params search r1) = (inl tt, r2) ->
          enter_route this w request search entry params r
          = validate (mh_hooks entry) (mh_validator entry) request body r2).
Proof.
  intros hooks validator request body b r. split.
  - destruct validator as [v|]; [| done].
    rewrite !validate_first_failure. unfold validator_checks, assign_body. cbn [ctx u c_params c_query].
    by destruct (List.find check_fails _) as [[[type [c|]] x]|].
  - intros this w search entry params r1 r2 Hread Htransform. unfold enter_route.
    rewrite (bind_inl _ _ _ _ _ (note_error_hooks_run _ r)).
    rewrite (bind_inl _ _ _ _ _ Hread), get_ctx_bind.
    unfold bind at 1, set_ctx. fold (payload_run body params search r1).
    by rewrite (bind_inl _ _ _ _ _ Htransform).
Qed.

(** ** The store and the models of a group or guard *)

Lemma fold_request_hooks_defs sandbox app :
  defs (fst (fold_request_hooks sandbox app)) = defs (fst app)
  /\ w_store (snd (fold_request_hooks sandbox app)) = w_store (snd app).
Proof.
  destruct app as [this w]. unfold fold_request_hooks. by case_bool_decide.
Qed.

Lemma fold_keeps_names {A} (step : App -> A -> App) (l : list A) :
  (forall app x, same_names (defs (fst app)) (defs (fst (step app x)))
                 /\ w_store (snd (step app x)) = w_store (snd app)) ->
  forall app, same_names (defs (fst app)) (defs (fst (fold_left step l app)))
              /\ w_store (snd (fold_left step l app)) = w_store (snd app).
Proof.
  intros Hstep. induction l as [|x l IH]; intros app; [done |]. simpl.
  destruct (IH (step app x)) as [N ->]. destruct (Hstep app x) as [N' ->].
  split; [| done]. intros k. etransitivity; [apply N | apply N'].
Qed.

Lemma merge_then_add_names a b method path handler this w :
  let app' := (let '(hooks, w) := mergeHook a b w in
               _addHandler method path handler (Some (registered_as_local hooks)) (this, w)) in
  same_names (defs this) (defs (fst app')) /\ w_store (snd app') = w_store w.
Proof.
  pose proof (mergeHook_spec a b w) as ([Hs _] & _ & _).
  destruct (mergeHook a b w) as [hooks w1]. cbn [snd] in Hs.
  pose proof (addHandler_spec method path handler (Some (registered_as_local hooks)) this w1)
    as (_ & Hd & _ & [Hs' _] & _).
  cbv zeta. split; [exact Hd | congruence].
Qed.

Lemma scope_names sandbox this w1 (step : App -> InternalRoute -> App) :
  (forall app r, same_names (defs (fst app)) (defs (fst (step app r)))
                 /\ w_store (snd (step app r)) = w_store (snd app)) ->
  let app' := fold_left step (routes sandbox)
                (setModel (defs sandbox) (fold_request_hooks sandbox (this, w1))) in
  (forall k, is_Some (defs (fst app') !! k)
             <-> is_Some (defs this !! k) \/ is_Some (defs sandbox !! k))
  /\ w_store (snd app') = w_store w1.
Proof.
  intros Hstep app'. subst app'.
  destruct (fold_keeps_names step (routes sandbox) Hstep
              (setModel (defs sandbox) (fold_request_hooks sandbox (this, w1)))) as [N ->].
  rewrite setModel_world. rewrite setModel_defs in N.
  destruct (fold_request_hooks_defs sandbox (this, w1)) as [E ->]. rewrite E in N.
  split; [| done]. intros k. etransitivity; [apply N |]. cbn [fst].
  apply lookup_union_is_Some.
Qed.

(** X24.  A [group] or [guard] shares the store with its parent and
    hands the names of its models over: the body starts from the
    parent's store and an empty registry, the store after the call is the
    store the body left, and the registry after the call holds the names
    of the parent's registry and those of the body's. *)
Theorem group_and_guard_share_store_and_models :
  forall (before body : list Build) (prefix : string) (hook : LocalHook),
    let parent := build before in
    let child := chain body (newElysia (snd parent)) in
    let grouped := build (before ++ [BGroup prefix body]) in
    let guarded := build (before ++ [BGuard hook body]) in
    w_store (snd (newElysia (snd parent))) = w_store (snd parent)
    /\ defs (fst (newElysia (snd parent))) = ∅
    /\ w_store (snd grouped) = w_store (snd child)
    /\ (forall k, is_Some (defs (fst grouped) !! k)
                  <-> is_Some (defs (fst parent) !! k) \/ is_Some (defs (fst child) !! k))
    /\ w_store (snd guarded) = w_store (snd child)
    /\ (forall k, is_Some (defs (fst guarded) !! k)
                  <-> is_Some (defs (fst parent) !! k) \/ is_Some (defs (fst child) !! k)).
Proof.
  intros before body prefix hook parent child grouped guarded.
  subst grouped guarded child. unfold build in *. rewrite !chain_snoc. cbn [exec].
  fold (chain body). subst parent.
  destruct (chain before (newElysia empty_world)) as [this w]. cbn [snd fst].
  split; [done |]. split; [done |].
  unfold group, guard. destruct (chain body (newElysia w)) as [sandbox w1]. cbn [fst snd].
  destruct (scope_names sandbox this w1
              (fun app r =>
                 let '(this, w) := app in
                 let '(hooks, w) :=
                   mergeHook (registered_as_local (ir_hooks r))
                             (Some (error_only (ev_error (event sandbox)))) w in
                 _addHandler (ir_method r)
                   (if String.eqb (ir_path r) "/" then prefix
                    else (prefix ++ ir_path r)%string)
                   (ir_handler r) (Some (registered_as_local hooks)) (this, w)))
    as [D1 S1].
  { intros [this' w'] r. apply merge_then_add_names. }
  destruct (scope_names sandbox this w1
              (fun app r =>
                 let '(this, w) := app in
                 let '(hooks, w) :=
                   mergeHook hook (Some (registered_as_local (ir_hooks r))) w in
                 _addHandler (ir_method r) (ir_path r) (ir_handler r)
                             (Some (registered_as_local hooks)) (this, w)))
    as [D2 S2].
  { intros [this' w'] r. apply merge_then_add_names. }
  split; [exact S1 |]. split; [exact D1 |]. split; [exact S2 | exact D2].
Qed.

(** ** The hooks of the routes of a group or guard *)

Lemma mergeHook_kind a b w k :
  hook_in_heap w a ->
  (forall h, b = Some h -> hook_in_heap w h) ->
  deref (snd (mergeHook a b w)) (stored k (fst (mergeHook a b w)))
  = as_array w (given k a) ++ as_array w (b ≫= given k).
Proof.
  intros Ha Hb. destruct (mergeHook_arrays a b w Ha Hb) as (H1 & H2 & _ & H4 & H5).
  by destruct k.
Qed.

Lemma addHandler_kind method path handler hook this w :
  wf (this, w) ->
  (forall h, hook = Some h -> hook_in_heap w h) ->
  let app' := _addHandler method path handler hook (this, w) in
  exists entry,
    router (fst app') = router this ++ [(method, with_slash path, entry)]
    /\ mh_handle entry = handler
    /\ Forall (fun l => l < length (arrays (snd app'))) (entry_locs entry)
    /\ forall k,
         route_hooks (stored k) (snd app') entry
         = deref w (event_array (event_of k) (event this)) ++ as_array w (hook ≫= given k).
Proof.
  intros Hwf Hhook app'. subst app'.
  destruct (addHandler_hooks method path handler hook this w Hwf Hhook)
    as (entry & Hr & Hh & H1 & H2 & H3 & H4).
  pose proof (addHandler_spec method path handler hook this w) as (_ & _ & _ & _ & Hs).
  destruct Hs as (path' & entry' & Hr' & Hlocs).
  rewrite Hr in Hr'. apply app_inj_tail in Hr' as [_ [= _ <-]].
  generalize dependent (_addHandler method path handler hook (this, w)).
  intros app' Hr H1 H2 H3 H4 Hlocs.
  exists entry. split; [exact Hr |]. split; [exact Hh |]. split.
  - eapply List.Forall_impl; [| exact Hlocs]. cbv beta. intros l Hl. lia.
  - intros k. destruct k.
    + etransitivity; [exact H1 |]. by destruct hook.
    + etransitivity; [exact H2 |]. by destruct hook.
    + etransitivity; [exact H3 |]. by destruct hook.
    + etransitivity; [exact H4 |]. by destruct hook.
Qed.

Lemma stored_in_locs k h : stored k h ∈ hook_locs h.
Proof. unfold hook_locs. destruct k; simpl; rewrite !elem_of_cons; tauto. Qed.

Lemma route_hooks_extends k w w' entry :
  extends w w' ->
  Forall (fun l => l < length (arrays w)) (entry_locs entry) ->
  route_hooks (stored k) w' entry = route_hooks (stored k) w entry.
Proof.
  intros Hx Hl. unfold route_hooks, entry_locs in *. destruct (mh_hooks entry) as [h|]; [| done].
  apply extends_deref; [done |]. rewrite List.Forall_forall in Hl.
  apply Hl, list_elem_of_In, stored_in_locs.
Qed.

Lemma given_registered k h : given k (registered_as_local h) = Some (Ref (stored k h)).
Proof. by destruct k. Qed.

Lemma registered_in_heap w h :
  Forall (fun l => l < length (arrays w)) (hook_locs h) ->
  hook_in_heap w (registered_as_local h).
Proof.
  unfold hook_locs, hook_in_heap, registered_as_local. simpl.
  intros H. rewrite !list.Forall_cons in H. tauto.
Qed.

Lemma given_in_heap w h k : hook_in_heap w h -> arg_in_heap w (given k h).
Proof. intros (H1 & H2 & H3 & H4 & H5). by destruct k. Qed.


(** One step of the [forEach] of [group] and [guard]. *)
Lemma place_route_spec first second place this w r :
  wf (this, w) ->
  let app1 := place_route first second place (this, w) r in
  wf app1 /\ event (fst app1) = event this /\ extends w (snd app1)
  /\ exists entry,
       router (fst app1) = router this ++ [(ir_method r, with_slash (place r), entry)]
       /\ mh_handle entry = ir_handler r
       /\ Forall (fun l => l < length (arrays (snd app1))) (entry_locs entry)
       /\ (hook_in_heap w (first r) ->
           (forall h, second r = Some h -> hook_in_heap w h) ->
           forall k,
             route_hooks (stored k) (snd app1) entry
             = deref w (event_array (event_of k) (event this))
               ++ (as_array w (given k (first r)) ++ as_array w (second r ≫= given k))).
Proof.
  intros Hwf app1. subst app1. unfold place_route.
  pose proof (mergeHook_spec (first r) (second r) w) as (X1 & Hlen & Hlocs).
  pose proof (fun k Hfirst Hsecond => mergeHook_kind (first r) (second r) w k Hfirst Hsecond)
    as Hmerged.
  destruct (mergeHook (first r) (second r) w) as [hooks w1]. cbn [fst snd] in *.
  assert (Hlocs1 : Forall (fun l => l < length (arrays w1)) (hook_locs hooks)).
  { eapply List.Forall_impl; [| exact Hlocs]. cbv beta. intros l Hl. lia. }
  assert (Hwf1 : wf (this, w1)).
  { apply (wf_frame_ok this w w1); [| done]. by apply frame_ok_extends. }
  destruct (addHandler_kind (ir_method r) (place r) (ir_handler r)
              (Some (registered_as_local hooks)) this w1 Hwf1)
    as (entry & Hrouter & Hhandler & Hentry & Hkinds).
  { intros h [= <-]. by apply registered_in_heap. }
  pose proof (addHandler_spec (ir_method r) (place r) (ir_handler r)
                (Some (registered_as_local hooks)) this w1) as (He & _ & _ & X2 & _).
  pose proof (wf_addHandler (ir_method r) (place r) (ir_handler r)
                (Some (registered_as_local hooks)) (this, w1) Hwf1) as Hwf2.
  generalize dependent (_addHandler (ir_method r) (place r) (ir_handler r)
                          (Some (registered_as_local hooks)) (this, w1)).
  intros [this2 w2] Hrouter Hentry Hkinds He X2 Hwf2. cbn [fst snd] in *.
  split; [exact Hwf2 |]. split; [exact He |].
  split; [exact (extends_trans _ _ _ X1 X2) |].
  exists entry. split; [exact Hrouter |]. split; [exact Hhandler |]. split; [exact Hentry |].
  intros Hfirst Hsecond k. rewrite Hkinds.
  cbn [mbind option_bind]. rewrite given_registered. cbn [as_array].
  rewrite (Hmerged k Hfirst Hsecond). f_equal. apply extends_deref; [exact X1 |].
  by apply wf_event_array.
Qed.

Lemma placed_cons first second place r rs this w this2 w2 app' entry :
  wf (this, w) ->
  event this2 = event this -> extends w w2 ->
  router this2 = router this ++ [(ir_method r, with_slash (place r), entry)] ->
  mh_handle entry = ir_handler r ->
  Forall (fun l => l < length (arrays w2)) (entry_locs entry) ->
  (hook_in_heap w (first r) ->
   (forall h, second r = Some h -> hook_in_heap w h) ->
   forall k,
     route_hooks (stored k) w2 entry
     = deref w (event_array (event_of k) (event this))
       ++ (as_array w (given k (first r)) ++ as_array w (second r ≫= given k))) ->
  placed first second place rs this2 w2 app' ->
  placed first second place (r :: rs) this w app'.
Proof.
  intros Hwf He X2 Hrouter Hhandler Hentry Hkinds (He' & X3 & entries & Hrouter' & Hall).
  destruct app' as [this3 w3]. cbn [fst snd] in *.
  split; [cbn [fst]; congruence |]. split; [exact (extends_trans _ _ _ X2 X3) |].
  exists ((ir_method r, with_slash (place r), entry) :: entries). split.
  { cbn [fst]. rewrite Hrouter', Hrouter, <- app_assoc. reflexivity. }
  constructor.
  - cbn [fst snd]. split; [reflexivity |]. split; [exact Hhandler |]. split.
    + eapply List.Forall_impl; [| exact Hentry]. cbv beta. intros l Hl.
      pose proof (extends_length _ _ X3). lia.
    + intros Hfirst Hsecond k.
      rewrite (route_hooks_extends k w2 w3 entry X3 Hentry). by apply Hkinds.
  - eapply list.Forall2_impl; [exact Hall |]. cbv beta. intros r' e (H0 & H1 & H2 & H3).
    split; [exact H0 |]. split; [exact H1 |]. split; [exact H2 |]. intros Hfirst Hsecond k.
    rewrite H3.
    + rewrite He. f_equal.
      * apply extends_deref; [exact X2 |]. by apply wf_event_array.
      * f_equal.
        -- apply as_array_extends; [exact X2 |]. by apply given_in_heap.
        -- apply as_array_extends; [exact X2 |]. apply arg_in_heap_bind.
           intros h Hh. by apply given_in_heap, Hsecond.
    + by apply (hook_in_heap_extends w).
    + intros h Hh. by apply (hook_in_heap_extends w), Hsecond.
Qed.

Lemma fold_left_step {A B} (f : A -> B -> A) (x : B) (l : list B) (a : A) :
  fold_left f (x :: l) a = fold_left f l (f a x).
Proof. reflexivity. Qed.

(** The routes [group] and [guard] register, with their hooks. *)
Lemma place_routes_spec first second place (rs : list InternalRoute) :
  forall this w,
    wf (this, w) ->
    placed first second place rs this w
           (fold_left (place_route first second place) rs (this, w)).
Proof.
  induction rs as [|r rs IH]; intros this w Hwf.
  { split; [reflexivity |]. split; [apply extends_refl |].
    exists []. split; [by rewrite app_nil_r | constructor]. }
  destruct (place_route_spec first second place this w r Hwf)
    as (Hwf2 & He & X2 & entry & Hrouter & Hhandler & Hentry & Hkinds).
  rewrite fold_left_step.
  generalize dependent (place_route first second place (this, w) r).
  intros [this2 w2] Hwf2 He X2 Hrouter Hentry Hkinds.
  exact (placed_cons first second place r rs this w this2 w2 _ entry Hwf He X2 Hrouter
           Hhandler Hentry Hkinds (IH this2 w2 Hwf2)).
Qed.

Lemma fold_request_hooks_frame sandbox this w :
  let app1 := fold_request_hooks sandbox (this, w) in
  extends w (snd app1) /\ router (fst app1) = router this
  /\ forall k, event_array (event_of k) (event (fst app1))
               = event_array (event_of k) (event this).
Proof.
  unfold fold_request_hooks. case_bool_decide.
  - split; [apply extends_refl |]. by split.
  - cbn [fst snd alloc with_event router event]. split; [| split; [done |]].
    + split; [done |]. by eexists.
    + by intros [].
Qed.

(** The routes a [group] or [guard] registers in the parent, from the
    state [(this, wc)] the body has left: [w] is the heap before the
    body ran. *)
Lemma scope_placed first second place sandbox this w wc :
  wf (this, w) ->
  length (arrays w) <= length (arrays wc) ->
  (forall l, l < length (arrays w) -> arrays wc !! l = arrays w !! l) ->
  let app' := fold_left (place_route first second place) (routes sandbox)
                (setModel (defs sandbox) (fold_request_hooks sandbox (this, wc))) in
  exists entries,
    router (fst app') = router this ++ entries
    /\ Forall2 (fun r e =>
                  fst e = (ir_method r, with_slash (place r))
                  /\ mh_handle (snd e) = ir_handler r
                  /\ (hook_in_heap wc (first r) ->
                      (forall h, second r = Some h -> hook_in_heap wc h) ->
                      forall k,
                        route_hooks (stored k) (snd app') (snd e)
                        = deref w (event_array (event_of k) (event this))
                          ++ (as_array wc (given k (first r))
                              ++ as_array wc (second r ≫= given k))))
               (routes sandbox) entries.
Proof.
  intros Hwf Hle Hkeep app'. subst app'.
  assert (Hwfc : wf (this, wc)) by (by apply (wf_reshape this this w wc)).
  pose proof (wf_fold_request_hooks sandbox _ Hwfc) as Hwf1.
  destruct (fold_request_hooks_frame sandbox this wc) as (X1 & Hr1 & He1).
  destruct (fold_request_hooks sandbox (this, wc)) as [this1 w1]. cbn [fst snd] in *.
  change (setModel (defs sandbox) (this1, w1))
    with (with_defs (defs (fst (setModel (defs sandbox) (this1, w1)))) this1, w1).
  set (this2 := with_defs _ this1).
  assert (Hwf2 : wf (this2, w1)) by (by apply (wf_reshape this1 this2 w1 w1)).
  destruct (place_routes_spec first second place (routes sandbox) this2 w1 Hwf2)
    as (_ & _ & entries & Hrouter & Hall).
  exists entries. split; [by rewrite Hrouter, <- Hr1 |].
  eapply list.Forall2_impl; [exact Hall |]. cbv beta. intros r e (H0 & H1 & _ & H3).
  split; [exact H0 |]. split; [exact H1 |]. intros Hfirst Hsecond k.
  rewrite H3.
  - change (event this2) with (event this1). rewrite He1. f_equal.
    + rewrite (extends_deref _ _ _ X1) by apply (wf_event_array _ _ _ Hwfc).
      unfold deref. by rewrite Hkeep by apply (wf_event_array _ _ _ Hwf).
    + f_equal.
      * apply as_array_extends; [exact X1 |]. by apply given_in_heap.
      * apply as_array_extends; [exact X1 |]. apply arg_in_heap_bind.
        intros h Hh. by apply given_in_heap, Hsecond.
  - by apply (hook_in_heap_extends wc).
  - intros h Hh. by apply (hook_in_heap_extends wc), Hsecond.
Qed.

Lemma plain_arg_in_heap w x : plain_arg x = true -> arg_in_heap w x.
Proof. by destruct x as [[f|l|l]|]. Qed.

Lemma plain_hook_in_heap w h : plain_hook h = true -> hook_in_heap w h.
Proof.
  unfold plain_hook, hook_in_heap. rewrite !andb_true_iff.
  intros ((((H1 & H2) & H3) & H4) & H5). repeat split; by apply plain_arg_in_heap.
Qed.

Lemma plain_as_array w w' x : plain_arg x = true -> as_array w x = as_array w' x.
Proof. by destruct x as [[f|l|l]|]. Qed.

Lemma plain_given k h : plain_hook h = true -> plain_arg (given k h) = true.
Proof.
  unfold plain_hook. rewrite !andb_true_iff. intros ((((H1 & H2) & H3) & H4) & H5).
  by destruct k.
Qed.

Lemma routes_in_heap_registered (sandbox : Elysia) wc r :
  routes_wf (sandbox, wc) -> r ∈ routes sandbox ->
  hook_in_heap wc (registered_as_local (ir_hooks r)).
Proof.
  intros H Hr. apply registered_in_heap. apply List.Forall_forall. intros l Hl.
  unfold routes_wf in H. cbn [fst snd] in H. rewrite List.Forall_forall in H.
  apply H. apply list_elem_of_In. unfold routes_locs. apply list_elem_of_bind.
  exists r. split; [by apply list_elem_of_In | done].
Qed.

Lemma Forall2_left_member {A B} (P Q : A -> B -> Prop) (l : list A) (k : list B) :
  (forall x y, x ∈ l -> P x y -> Q x y) -> Forall2 P l k -> Forall2 Q l k.
Proof.
  intros H HF. induction HF as [|x y l k Hxy HF IH]; constructor.
  - apply H; [by left | done].
  - apply IH. intros x' y' Hx'. apply H. by right.
Qed.

Lemma child_frame (body : list Build) w :
  length (arrays w) <= length (arrays (snd (chain body (newElysia w))))
  /\ forall l, l < length (arrays w) ->
               arrays (snd (chain body (newElysia w))) !! l = arrays w !! l.
Proof.
  split; [apply child_length |]. intros l Hl.
  apply (child_preserves (chain body) w l); [| done]. intros child. apply frame_ok_chain.
Qed.

(** X25.  [guard] registers every route of its body in the parent with,
    for each of transform, beforeHandle, afterHandle and error, the
    hooks of the parent first, then the hooks of the guard, then the
    hooks the route had in the body (those of the body's scope when the
    route was registered, followed by the route's own). *)
Theorem guard_hooks_run_between :
  forall (before body : list Build) (hook : LocalHook),
    plain_hook hook = true ->
    let parent := build before in
    let child := chain body (newElysia (snd parent)) in
    let app' := build (before ++ [BGuard hook body]) in
    exists entries,
      router (fst app') = router (fst parent) ++ entries
      /\ Forall2 (fun r e =>
                    fst e = (ir_method r, with_slash (ir_path r))
                    /\ mh_handle (snd e) = ir_handler r
                    /\ forall k,
                         route_hooks (stored k) (snd app') (snd e)
                         = hooks_of (event_of k) parent
                           ++ as_array (snd parent) (given k hook)
                           ++ deref (snd child) (stored k (ir_hooks r)))
                 (routes (fst child)) entries.
Proof.
  intros before body hook Hhook parent child app'. subst app' child.
  pose proof (wf_build before) as Hwf. fold parent in Hwf.
  unfold build. rewrite chain_snoc. fold (build before). fold parent.
  destruct parent as [this w]. cbn [fst snd exec] in *.
  destruct (wf_child body w) as [Hcwf Hcr].
  destruct (child_frame body w) as [Hle Hkeep].
  unfold guard.
  change (fold_left (fun a c => exec c a) body (newElysia w)) with (chain body (newElysia w)).
  destruct (chain body (newElysia w)) as [sandbox wc]. cbn [fst snd] in *.
  destruct (scope_placed (fun _ => hook) (fun r => Some (registered_as_local (ir_hooks r)))
              ir_path sandbox this w wc Hwf Hle Hkeep) as (entries & Hrouter & Hall).
  exists entries. split; [exact Hrouter |].
  eapply Forall2_left_member; [| exact Hall]. cbv beta.
  intros r e Hr (H0 & H1 & H3). split; [exact H0 |]. split; [exact H1 |]. intros k.
  etransitivity; [apply H3 |].
  - by apply plain_hook_in_heap.
  - intros h [= <-]. by apply (routes_in_heap_registered sandbox).
  - unfold hooks_of. cbn [fst snd mbind option_bind]. f_equal.
    rewrite given_registered. cbn [as_array]. f_equal.
    by apply plain_as_array, plain_given.
Qed.

Lemma guard_hooks_run_between_witness :
  plain_hook (before_hook (returns VNull)) = true
  /\ exists entries,
       router (fst (build ([BOnBeforeHandle (returns VUndefined)]
                           ++ [BGuard (before_hook (returns VNull))
                                      [BRoute "GET" "/" (returns (VStr "A")) None]])))
       = router (fst (build [BOnBeforeHandle (returns VUndefined)])) ++ entries
       /\ Forall2 (fun r e =>
                     fst e = (ir_method r, with_slash (ir_path r))
                     /\ mh_handle (snd e) = ir_handler r
                     /\ forall k,
                          route_hooks (stored k)
                            (snd (build ([BOnBeforeHandle (returns VUndefined)]
                                         ++ [BGuard (before_hook (returns VNull))
                                                    [BRoute "GET" "/" (returns (VStr "A"))
                                                            None]])))
                            (snd e)
                          = hooks_of (event_of k) (build [BOnBeforeHandle (returns VUndefined)])
                            ++ as_array (snd (build [BOnBeforeHandle (returns VUndefined)]))
                                        (given k (before_hook (returns VNull)))
                            ++ deref (snd (chain [BRoute "GET" "/" (returns (VStr "A")) None]
                                                 (newElysia
                                                    (snd (build [BOnBeforeHandle
                                                                   (returns VUndefined)])))))
                                     (stored k (ir_hooks r)))
                  (routes (fst (chain [BRoute "GET" "/" (returns (VStr "A")) None]
                                      (newElysia
                                         (snd (build [BOnBeforeHandle (returns VUndefined)]))))))
                  entries.
Proof.
  split; [reflexivity |].
  exact (guard_hooks_run_between [BOnBeforeHandle (returns VUndefined)]
           [BRoute "GET" "/" (returns (VStr "A")) None]
           (before_hook (returns VNull)) eq_refl).
Defined.

(** X26.  [group] registers every route of its body in the parent with
    the hooks of the parent first and then the hooks the route had in the
    body; for the error hooks, the error hooks the body has registered by
    its end follow once more, so that an error hook of the body
    registered before the route is stored twice and one registered after
    it once. *)
Theorem group_hooks_run_after_parent :
  forall (before body : list Build) (prefix : string),
    let parent := build before in
    let child := chain body (newElysia (snd parent)) in
    let app' := build (before ++ [BGroup prefix body]) in
    exists entries,
      router (fst app') = router (fst parent) ++ entries
      /\ Forall2 (fun r e =>
                    fst e = (ir_method r,
                             with_slash (if String.eqb (ir_path r) "/" then prefix
                                         else (prefix ++ ir_path r)%string))
                    /\ mh_handle (snd e) = ir_handler r
                    /\ forall k,
                         route_hooks (stored k) (snd app') (snd e)
                         = hooks_of (event_of k) parent
                           ++ deref (snd child) (stored k (ir_hooks r))
                           ++ match k with
                              | KError => hooks_of EvError child
                              | _ => []
                              end)
                 (routes (fst child)) entries.
Proof.
  intros before body prefix parent child app'. subst app' child.
  pose proof (wf_build before) as Hwf. fold parent in Hwf.
  unfold build. rewrite chain_snoc. fold (build before). fold parent.
  destruct parent as [this w]. cbn [fst snd exec] in *.
  destruct (wf_child body w) as [Hcwf Hcr].
  destruct (child_frame body w) as [Hle Hkeep].
  unfold group.
  change (fold_left (fun a c => exec c a) body (newElysia w)) with (chain body (newElysia w)).
  destruct (chain body (newElysia w)) as [sandbox wc]. cbn [fst snd] in *.
  destruct (scope_placed (fun r => registered_as_local (ir_hooks r))
              (fun _ => Some (error_only (ev_error (event sandbox))))
              (fun r => if String.eqb (ir_path r) "/" then prefix
                        else (prefix ++ ir_path r)%string)
              sandbox this w wc Hwf Hle Hkeep) as (entries & Hrouter & Hall).
  exists entries. split; [exact Hrouter |].
  eapply Forall2_left_member; [| exact Hall]. cbv beta.
  intros r e Hr (H0 & H1 & H3). split; [exact H0 |]. split; [exact H1 |]. intros k.
  etransitivity; [apply H3 |].
  - by apply (routes_in_heap_registered sandbox).
  - intros h [= <-]. unfold hook_in_heap, error_only, arg_in_heap. cbn.
    repeat split. apply (wf_event_array EvError _ _ Hcwf).
  - unfold hooks_of. cbn [fst snd mbind option_bind]. f_equal.
    rewrite given_registered. cbn [as_array]. f_equal. by destruct k.
Qed.

(** ** Models and the default of [additionalProperties] *)

Lemma getSchemaValidator_model (models : gmap string TSchema) name props ap :
  name <> "" ->
  models !! name = Some (TObject props None) ->
  getSchemaValidator (Some (Named name)) models ap
  = (Some (Compile (TObject props (Some ap))),
     <[name := TObject props (Some ap)]> models).
Proof.
  intros Hname Hm. unfold getSchemaValidator.
  destruct (String.eqb name "") eqn:E; [by apply String.eqb_eq in E |].
  by rewrite Hm.
Qed.

Lemma getSchemaValidator_decided (models : gmap string TSchema) name props ap ap' :
  name <> "" ->
  models !! name = Some (TObject props (Some ap)) ->
  getSchemaValidator (Some (Named name)) models ap'
  = (Some (Compile (TObject props (Some ap))), models).
Proof.
  intros Hname Hm. unfold getSchemaValidator.
  destruct (String.eqb name "") eqn:E; [by apply String.eqb_eq in E |].
  rewrite Hm. cbn [default_additional]. f_equal. by apply insert_id.
Qed.

Lemma getSchemaValidator_absent (models : gmap string TSchema) ap :
  getSchemaValidator None models ap = (None, models).
Proof. reflexivity. Qed.

(** X27.  A model keeps the [additionalProperties] of its first
    compilation.  A route that names an object model (written without
    [additionalProperties]) as its body is stored with a body check that
    rejects unknown properties; but once a route has named that model as
    its header schema, every later route that names it as its body is
    stored with a body check that accepts them. *)
Theorem model_keeps_its_first_default :
  forall (this : Elysia) (w : World) (name : string) (props : list (string * TSchema))
         (m1 p1 m2 p2 : string) (h1 h2 : Callback),
    name <> "" ->
    defs this !! name = Some (TObject props None) ->
    let as_headers := schema_hook {| s_body := None; s_headers := Some (Named name);
                                     s_header := None; s_params := None; s_query := None;
                                     s_response := None |} in
    let as_body := schema_hook {| s_body := Some (Named name); s_headers := None;
                                  s_header := None; s_params := None; s_query := None;
                                  s_response := None |} in
    (exists entry,
        router (fst (route m2 p2 h2 (Some as_body) (this, w)))
        = router this ++ [(m2, with_slash p2, entry)]
        /\ mh_validator entry ≫= v_body = Some (Compile (TObject props (Some false))))
    /\ (exists entry,
           router (fst (route m2 p2 h2 (Some as_body)
                              (route m1 p1 h1 (Some as_headers) (this, w))))
           = router (fst (route m1 p1 h1 (Some as_headers) (this, w)))
             ++ [(m2, with_slash p2, entry)]
           /\ mh_validator entry ≫= v_body = Some (Compile (TObject props (Some true)))).
Proof.
  intros this w name props m1 p1 m2 p2 h1 h2 Hname Hm as_headers as_body.
  assert (Hfirst : defs (fst (route m1 p1 h1 (Some as_headers) (this, w))) !! name
                   = Some (TObject props (Some true))).
  { unfold route, _addHandler.
    destruct (mergeHook _ (Some as_headers) w) as [rh w1].
    destruct (mergeHook _ (Some as_headers) w1) as [hooks w2].
    cbn [fst defs mbind option_bind as_headers schema_hook h_schema s_body s_headers
         s_params s_query].
    repeat (rewrite getSchemaValidator_absent; cbn [snd fst]).
    rewrite (getSchemaValidator_model _ name props true Hname Hm). cbn [snd].
    apply lookup_insert_eq. }
  split.
  - unfold route, _addHandler.
    destruct (mergeHook _ (Some as_body) w) as [rh w1].
    destruct (mergeHook _ (Some as_body) w1) as [hooks w2].
    cbn [fst router]. unfold Raikiri.add, with_slash. eexists. split; [reflexivity |].
    cbn [mh_validator mbind option_bind as_body schema_hook h_schema s_body s_headers
         s_params s_query s_response].
    repeat (rewrite getSchemaValidator_absent; cbn [snd fst]).
    rewrite (getSchemaValidator_model _ name props false Hname Hm). cbn [snd fst].
    rewrite bool_decide_eq_true_2 by (left; eauto). reflexivity.
  - destruct (route m1 p1 h1 (Some as_headers) (this, w)) as [this1 w1]. cbn [fst] in *.
    unfold route, _addHandler.
    destruct (mergeHook _ (Some as_body) w1) as [rh w2].
    destruct (mergeHook _ (Some as_body) w2) as [hooks w3].
    cbn [fst router]. unfold Raikiri.add, with_slash. eexists. split; [reflexivity |].
    cbn [mh_validator mbind option_bind as_body schema_hook h_schema s_body s_headers
         s_params s_query s_response defs].
    repeat (rewrite getSchemaValidator_absent; cbn [snd fst]).
    rewrite (getSchemaValidator_decided _ name props true false Hname Hfirst). cbn [snd fst].
    rewrite bool_decide_eq_true_2 by (left; eauto). reflexivity.
Qed.

Lemma model_keeps_its_first_default_witness :
  run_check (Compile (TObject [("a", TString)] (Some true)))
            (VObj [("a", VStr "x"); ("extra", VNum 1)]) = true
  /\ run_check (Compile (TObject [("a", TString)] (Some false)))
               (VObj [("a", VStr "x"); ("extra", VNum 1)]) = false
  /\ exists entry,
       router (fst (route "POST" "/b" echo_body
                          (Some (schema_hook {| s_body := Some (Named "m"); s_headers := None;
                                                s_header := None; s_params := None;
                                                s_query := None; s_response := None |}))
                          (route "GET" "/a" echo_body
                             (Some (schema_hook {| s_body := None;
                                                   s_headers := Some (Named "m");
                                                   s_header := None; s_params := None;
                                                   s_query := None; s_response := None |}))
                             (build [BSetModel {["m" := TObject [("a", TString)] None]}]))))
       = router (fst (route "GET" "/a" echo_body
                             (Some (schema_hook {| s_body := None;
                                                   s_headers := Some (Named "m");
                                                   s_header := None; s_params := None;
                                                   s_query := None; s_response := None |}))
                             (build [BSetModel {["m" := TObject [("a", TString)] None]}])))
         ++ [("POST", "/b", entry)]
       /\ mh_validator entry ≫= v_body
          = Some (Compile (TObject [("a", TString)] (Some true))).
Proof.
  split; [reflexivity |]. split; [reflexivity |].
  exact (proj2 (model_keeps_its_first_default
                  (fst (build [BSetModel {["m" := TObject [("a", TString)] None]}]))
                  (snd (build [BSetModel {["m" := TObject [("a", TString)] None]}]))
                  "m" [("a", TString)] "GET" "/a" "POST" "/b" echo_body echo_body
                  ltac:(discriminate) ltac:(vm_compute; reflexivity))).
Defined.

(** ** The error hooks of a group, by example *)

(** An error hook registered in the body of a [group] before a route is
    stored with the route twice, one registered after it once: with
    [onError] before and after the route, a failure of the handler calls
    three route-level error hooks. *)
Example group_stores_error_hooks_again :
  calls_of (handle (build [BGroup "/g" [BOnError (returns VUndefined);
                                        BRoute "GET" "/" throwing None;
                                        BOnError (returns VUndefined)]])
                   (get_request "/g" None []))
  = [CHandler; CError 0; CError 1; CError 2].
Proof. vm_compute. reflexivity. Qed.
